(** * The NAS reinforcement-learning environment of metanas/env/core.py

    A shallow embedding of [NasEnv]: the cell graph, the per-edge
    operation-weight rows and their softmax view, the state encoder
    ([update_states]), the increase/decrease operators, the action
    dispatcher ([step], [_perform_action]) and the reward scaling.

    Tensor entries are Python/torch floats; they are idealised as real
    numbers, so [softmax], [torch.log] and the comparisons of the source are
    the real-valued ones.  Python exceptions are outcomes of a small
    state-and-exception monad over the environment object: an exception
    leaves the attributes assigned so far in place, as in Python. *)

From Stdlib Require Import Reals Lra Lia List String.
From stdpp Require Import gmap list.

Set Default Goal Selector "!".

(** ** Tensors *)

(** [alpha_normal] and [alpha_reduce]: one 2-d tensor per intermediate
    node, one row per incoming edge, one weight per primitive operation. *)
Abbreviation alpha := (list (list (list R))) (only parsing).

Definition rsum (l : list R) : R := fold_right Rplus 0%R l.

(** [F.softmax(alpha, dim=-1)] on one edge. *)
Definition softmax (l : list R) : list R :=
  map (fun a => (exp a / rsum (map exp l))%R) l.

(** [_inverse_softmax(x, C) = torch.log(x) + C], elementwise. *)
Definition _inverse_softmax (x : list R) (C : R) : list R :=
  map (fun v => (ln v + C)%R) x.

(** [C = math.log(10.)]. *)
Definition C_log10 : R := ln 10.

(** In-place [curr_edge += c]. *)
Definition add_scalar (c : R) (l : list R) : list R :=
  map (fun v => (v + c)%R) l.

(** ** torch.topk

    [torch.topk(v, k)] returns the [k] largest entries with their indices
    and fails when [k] exceeds the length.  The order among equal entries
    is left open by torch; this model keeps the earliest one. *)
Definition better (b x : R * nat) : R * nat :=
  if Rlt_dec (fst b) (fst x) then x else b.

Fixpoint topk_pairs (k : nat) (l : list (R * nat)) : option (list (R * nat)) :=
  match k with
  | O => Some []
  | S k' =>
      match l with
      | [] => None
      | p :: l' =>
          let m := fold_left better l' p in
          match topk_pairs k' (filter (fun x => negb (snd x =? snd m)) l) with
          | Some rest => Some (m :: rest)
          | None => None
          end
      end
  end.

Definition enumerate {T} (l : list T) : list (T * nat) :=
  combine l (seq 0 (length l)).

Definition topk (v : list R) (k : nat) : option (list R * list nat) :=
  match topk_pairs k (enumerate v) with
  | Some ps => Some (map fst ps, map snd ps)
  | None => None
  end.

(** ** Observations

    A state-table row is [np.concatenate(([from], [to], [flag], A[to],
    edge))].  The record keeps the five pieces apart; [obs_vector] is the
    flat vector, and [int(current_state[0])], [int(current_state[1])] are
    [obs_from] and [obs_to]. *)
Record observation := mkObs {
  obs_from : nat;
  obs_to : nat;
  obs_topk : bool;
  obs_adj : list nat;
  obs_ops : list R
}.

Definition obs_vector (o : observation) : list R :=
  [INR (obs_from o); INR (obs_to o); if obs_topk o then 1%R else 0%R]
    ++ map INR (obs_adj o) ++ obs_ops o.

(** ** Cell graph

    [A = np.ones((n, n)) - np.eye(n); A[0, 1] = 0; A[1, 0] = 0]. *)
Definition ones_minus_eye (n : nat) : list (list nat) :=
  map (fun r => map (fun c => 1 - (if r =? c then 1 else 0)) (seq 0 n)) (seq 0 n).

Definition set_entry (r c v : nat) (A : list (list nat)) : list (list nat) :=
  alter (fun row => <[c := v]> row) r A.

Definition adjacency (n_nodes : nat) : list (list nat) :=
  set_entry 1 0 0 (set_entry 0 1 0 (ones_minus_eye n_nodes)).

(** ** The environment object *)

Inductive exn :=
| AssertionError | AttributeError | TypeError | IndexError | KeyError
| RuntimeError | NotImplementedError | ValueError | ZeroDivisionError
| InternalError.                  (* python-igraph: no such vertex *)

(** The values the [test_env] constructor argument takes. *)
Inductive pyval := PyNone | PyBool (b : bool) | PyObject.

Definition is_false (v : pyval) : bool :=
  match v with PyBool false => true | _ => false end.

Definition is_none (v : pyval) : bool :=
  match v with PyNone => true | _ => false end.

(** What the environment cannot compute by itself in one call: the draw of
    [np.random.uniform], the wall-clock duration, and what the external
    estimator does once it has been handed a task (the training loop of
    [_darts_estimation], the predictor of [_meta_predictor_estimation]): it
    ends in the exception [estimator_raises] or, when that is [None],
    returns [estimated_acc].  [PRIMITIVES_NAS_BENCH_201] is the constant of
    the module [metanas.utils.genotypes]. *)
Record oracle := mkOracle {
  uniform_draw : R;
  estimated_acc : R;
  elapsed_seconds : nat;
  estimator_raises : option exn;
  PRIMITIVES_NAS_BENCH_201 : list string
}.

(** An entry of [self.max_alphas]: the Parameter object
    [self.meta_model.alpha_normal[i]] itself, which shows every later
    in-place write to that row, or a tensor of its own. *)
Inductive row_ref :=
| Param (i : nat)
| Copy (v : list (list R)).

Record NasEnv := mkNasEnv {
  cell_type : string;
  n_ops : nat;                              (* len(self.primitives) *)
  test_env : pyval;
  reward_estimation : bool;
  max_ep_len : nat;
  A : list (list nat);
  alpha_normal : alpha;                     (* self.meta_model.alpha_normal *)
  alpha_reduce : alpha;                     (* self.meta_model.alpha_reduce *)
  current_task : option nat;
  meta_state : option (alpha * alpha);      (* None: attribute never assigned *)
  step_count : nat;
  terminate_episode : bool;
  baseline_acc : R;
  normalized_alphas : alpha;
  alphas : alpha;
  states : list observation;
  edge_to_index : gmap (nat * nat) nat;
  edge_to_alpha : gmap (nat * nat) (nat * nat);
  current_state_index : nat;
  current_state : observation;
  max_alphas : list row_ref;
  max_acc : R;
  primitives : list string;                 (* self.primitives *)
  params_on_device : bool                   (* the model lives on config.device *)
}.

Definition set_alpha_normal (v : alpha) (e : NasEnv) : NasEnv :=
  let 'mkNasEnv a b c d f g _ i j k l m n o p q r s t u w x y z := e in
  mkNasEnv a b c d f g v i j k l m n o p q r s t u w x y z.
Definition set_alpha_reduce (v : alpha) (e : NasEnv) : NasEnv :=
  let 'mkNasEnv a b c d f g h _ j k l m n o p q r s t u w x y z := e in
  mkNasEnv a b c d f g h v j k l m n o p q r s t u w x y z.
Definition set_step_count (v : nat) (e : NasEnv) : NasEnv :=
  let 'mkNasEnv a b c d f g h i j k _ m n o p q r s t u w x y z := e in
  mkNasEnv a b c d f g h i j k v m n o p q r s t u w x y z.
Definition set_terminate_episode (v : bool) (e : NasEnv) : NasEnv :=
  let 'mkNasEnv a b c d f g h i j k l _ n o p q r s t u w x y z := e in
  mkNasEnv a b c d f g h i j k l v n o p q r s t u w x y z.
Definition set_baseline_acc (v : R) (e : NasEnv) : NasEnv :=
  let 'mkNasEnv a b c d f g h i j k l m _ o p q r s t u w x y z := e in
  mkNasEnv a b c d f g h i j k l m v o p q r s t u w x y z.
Definition set_normalized_alphas (v : alpha) (e : NasEnv) : NasEnv :=
  let 'mkNasEnv a b c d f g h i j k l m n _ p q r s t u w x y z := e in
  mkNasEnv a b c d f g h i j k l m n v p q r s t u w x y z.
Definition set_alphas (v : alpha) (e : NasEnv) : NasEnv :=
  let 'mkNasEnv a b c d f g h i j k l m n o _ q r s t u w x y z := e in
  mkNasEnv a b c d f g h i j k l m n o v q r s t u w x y z.
Definition set_states (v : list observation) (e : NasEnv) : NasEnv :=
  let 'mkNasEnv a b c d f g h i j k l m n o p _ r s t u w x y z := e in
  mkNasEnv a b c d f g h i j k l m n o p v r s t u w x y z.
Definition set_edge_to_index (v : gmap (nat * nat) nat) (e : NasEnv) : NasEnv :=
  let 'mkNasEnv a b c d f g h i j k l m n o p q _ s t u w x y z := e in
  mkNasEnv a b c d f g h i j k l m n o p q v s t u w x y z.
Definition set_edge_to_alpha (v : gmap (nat * nat) (nat * nat)) (e : NasEnv) : NasEnv :=
  let 'mkNasEnv a b c d f g h i j k l m n o p q r _ t u w x y z := e in
  mkNasEnv a b c d f g h i j k l m n o p q r v t u w x y z.
Definition set_current_state_index (v : nat) (e : NasEnv) : NasEnv :=
  let 'mkNasEnv a b c d f g h i j k l m n o p q r s _ u w x y z := e in
  mkNasEnv a b c d f g h i j k l m n o p q r s v u w x y z.
Definition set_current_state (v : observation) (e : NasEnv) : NasEnv :=
  let 'mkNasEnv a b c d f g h i j k l m n o p q r s t _ w x y z := e in
  mkNasEnv a b c d f g h i j k l m n o p q r s t v w x y z.
Definition set_max_alphas (v : list row_ref) (e : NasEnv) : NasEnv :=
  let 'mkNasEnv a b c d f g h i j k l m n o p q r s t u _ x y z := e in
  mkNasEnv a b c d f g h i j k l m n o p q r s t u v x y z.
Definition set_max_acc (v : R) (e : NasEnv) : NasEnv :=
  let 'mkNasEnv a b c d f g h i j k l m n o p q r s t u w _ y z := e in
  mkNasEnv a b c d f g h i j k l m n o p q r s t u w v y z.

(** ** State and exceptions *)

Inductive outcome (T : Type) :=
| Ok (a : T) (e : NasEnv)
| Raise (x : exn) (e : NasEnv).
Arguments Ok {T} a e.
Arguments Raise {T} x e.

Definition M (T : Type) : Type := NasEnv -> outcome T.

Definition ret {T} (a : T) : M T := fun e => Ok a e.
Definition bind {T U} (m : M T) (k : T -> M U) : M U :=
  fun e => match m e with
           | Ok a e' => k a e'
           | Raise x e' => Raise x e'
           end.
Definition raise {T} (x : exn) : M T := fun e => Raise x e.
Definition get : M NasEnv := fun e => Ok e e.
Definition modify (f : NasEnv -> NasEnv) : M unit := fun e => Ok tt (f e).

Notation "x <- c1 ;; c2" := (bind c1 (fun x => c2))
  (at level 100, c1 at next level, right associativity).
Notation "c1 ;; c2" := (bind c1 (fun _ => c2))
  (at level 100, right associativity).

(** [l[i]] on a list or tensor. *)
Definition index {T} (l : list T) (i : nat) : M T :=
  match l !! i with
  | Some x => ret x
  | None => raise IndexError
  end.

(** [d[k]] on a dict. *)
Definition dict_get {V} (d : gmap (nat * nat) V) (k : nat * nat) : M V :=
  match d !! k with
  | Some v => ret v
  | None => raise KeyError
  end.

(** [for k, x in enumerate(l)] with a local variable carried through. *)
Fixpoint for_enumerate {T St} (l : list T) (k : nat)
    (body : nat -> T -> St -> M St) (s : St) : M St :=
  match l with
  | [] => ret s
  | x :: l' => s' <- body k x s ;; for_enumerate l' (S k) body s'
  end.

Definition lift_opt {T} (x : exn) (o : option T) : M T :=
  match o with
  | Some v => ret v
  | None => raise x
  end.

(** Read-modify-write of one attribute. *)
Definition update_states_attr (f : list observation -> list observation) : M unit :=
  modify (fun e => set_states (f (states e)) e).
Definition update_edge_to_index (f : gmap (nat * nat) nat -> gmap (nat * nat) nat) : M unit :=
  modify (fun e => set_edge_to_index (f (edge_to_index e)) e).
Definition update_edge_to_alpha
    (f : gmap (nat * nat) (nat * nat) -> gmap (nat * nat) (nat * nat)) : M unit :=
  modify (fun e => set_edge_to_alpha (f (edge_to_alpha e)) e).

(** ** State encoder: [update_states] *)

(** [edge_max, _ = torch.topk(edges[:, :], 1)], one maximum per edge. *)
Definition row_max (edge : list R) : option R :=
  match topk edge 1 with
  | Some ([v], _) => Some v
  | _ => None
  end.

(** Body of [for j, edge in enumerate(edges)]. *)
Definition encode_edge (i : nat) (topk_edge_indices : list nat)
    (j : nat) (edge : list R) (s_idx : nat) : M nat :=
  update_edge_to_index (insert (j, i + 2) s_idx) ;;
  update_edge_to_index (insert (i + 2, j) (s_idx + 1)) ;;
  update_edge_to_alpha (insert (j, i + 2) (i, j)) ;;
  update_edge_to_alpha (insert (i + 2, j) (i, j)) ;;
  e <- get ;;
  A_to <- index (A e) (i + 2) ;;
  update_states_attr (fun st =>
    st ++ [mkObs j (i + 2) (bool_decide (j ∈ topk_edge_indices)) A_to edge]) ;;
  A_from <- index (A e) j ;;
  update_states_attr (fun st =>
    st ++ [mkObs (i + 2) j (bool_decide (j ∈ topk_edge_indices)) A_from edge]) ;;
  ret (s_idx + 2).

(** Body of [for i, edges in enumerate(self.normalized_alphas)]. *)
Definition encode_node (i : nat) (edges : list (list R)) (s_idx : nat) : M nat :=
  edge_max <- lift_opt RuntimeError (mapM row_max edges) ;;
  topk_edge_indices <- lift_opt RuntimeError (snd <$> topk edge_max 2) ;;
  for_enumerate edges 0 (encode_edge i topk_edge_indices) s_idx.

Definition update_states : M unit :=
  let s_idx := 0 in
  modify (set_states []) ;;
  modify (set_edge_to_index ∅) ;;
  modify (set_edge_to_alpha ∅) ;;
  e <- get ;;
  (if String.eqb (cell_type e) "normal" then
     modify (set_normalized_alphas (map (map softmax) (alpha_normal e))) ;;
     modify (set_alphas (alpha_normal e))
   else if String.eqb (cell_type e) "reduce" then
     modify (set_normalized_alphas (map (map softmax) (alpha_reduce e))) ;;
     modify (set_alphas (alpha_reduce e))
   else raise RuntimeError) ;;
  e <- get ;;
  _ <- for_enumerate (normalized_alphas e) 0 encode_node s_idx ;;
  ret tt.

Definition set_start_state : M unit :=
  modify (set_current_state_index 0) ;;
  e <- get ;;
  st <- index (states e) (current_state_index e) ;;
  modify (set_current_state st).

(** ** Operation-distribution store: [increase_op], [decrease_op] *)

(** [t[row_idx][edge_idx] = v] on a list of 2-d tensors. *)
Definition write_edge (row_idx edge_idx : nat) (v : list R) (t : alpha) : option alpha :=
  match t !! row_idx with
  | Some node =>
      if decide (edge_idx < length node)
      then Some (<[row_idx := <[edge_idx := v]> node]> t)
      else None
  | None => None
  end.

(** [t[row_idx][edge_idx]] and [t[row_idx][edge_idx][op_idx]], when in range. *)
Definition edge_at (t : alpha) (row_idx edge_idx : nat) : option (list R) :=
  match t !! row_idx with
  | Some node => node !! edge_idx
  | None => None
  end.

Definition weight_at (t : alpha) (row_idx edge_idx op_idx : nat) : option R :=
  match edge_at t row_idx edge_idx with
  | Some edge => edge !! op_idx
  | None => None
  end.

(** The views [curr_op] and [curr_edge] share storage with
    [self.normalized_alphas]: the in-place [+=] on them is a write to that
    attribute. *)
Definition store_normalized (row_idx edge_idx : nat) (v : list R) : M unit :=
  e <- get ;;
  t <- lift_opt IndexError (write_edge row_idx edge_idx v (normalized_alphas e)) ;;
  modify (set_normalized_alphas t).

Definition store_alpha_normal (row_idx edge_idx : nat) (v : list R) : M unit :=
  e <- get ;;
  t <- lift_opt IndexError (write_edge row_idx edge_idx v (alpha_normal e)) ;;
  modify (set_alpha_normal t).

(** [if curr_op + prob > 1.0: surplus = curr_op + prob - 0.99; prob -= surplus]. *)
Definition clamp_increase (curr_op prob : R) : R :=
  if Rgt_dec (curr_op + prob) 1
  then (let surplus := curr_op + prob - 0.99 in prob - surplus)%R
  else prob.

(** [if curr_op - prob < 0.0: surplus = prob - curr_op + 0.01; prob -= surplus]. *)
Definition clamp_decrease (curr_op prob : R) : R :=
  if Rlt_dec (curr_op - prob) 0
  then (let surplus := prob - curr_op + 0.01 in prob - surplus)%R
  else prob.

Definition increase_op (row_idx edge_idx op_idx : nat) (prob : R) : M bool :=
  let C := C_log10 in
  e <- get ;;
  node <- index (normalized_alphas e) row_idx ;;
  curr_edge <- index node edge_idx ;;
  curr_op <- index curr_edge op_idx ;;
  let prob := clamp_increase curr_op prob in
  if Rlt_dec (curr_op + prob) 1 then
    let curr_edge := <[op_idx := (curr_op + prob)%R]> curr_edge in
    store_normalized row_idx edge_idx curr_edge ;;
    let curr_edge := add_scalar 0.01 curr_edge in
    store_normalized row_idx edge_idx curr_edge ;;
    store_alpha_normal row_idx edge_idx (_inverse_softmax curr_edge C) ;;
    ret true
  else ret false.

Definition decrease_op (row_idx edge_idx op_idx : nat) (prob : R) : M bool :=
  let C := C_log10 in
  e <- get ;;
  node <- index (normalized_alphas e) row_idx ;;
  curr_edge <- index node edge_idx ;;
  curr_op <- index curr_edge op_idx ;;
  let prob := clamp_decrease curr_op prob in
  if Rgt_dec (curr_op - prob) 0 then
    let curr_edge := <[op_idx := (curr_op - prob)%R]> curr_edge in
    store_normalized row_idx edge_idx curr_edge ;;
    let curr_edge := add_scalar 0.01 curr_edge in
    store_normalized row_idx edge_idx curr_edge ;;
    store_alpha_normal row_idx edge_idx (_inverse_softmax curr_edge C) ;;
    ret true
  else ret false.

Definition update_meta_model (increase : bool) (row_idx edge_idx op_idx : nat) : M bool :=
  e <- get ;;
  if String.eqb (cell_type e) "normal" then
    if increase
    then increase_op row_idx edge_idx op_idx 0.3
    else decrease_op row_idx edge_idx op_idx 0.3
  else if String.eqb (cell_type e) "reduce" then raise NotImplementedError
  else raise RuntimeError.

(** ** Module-level functions

    A function outside the class returns a value or raises. *)
Inductive result (T : Type) :=
| Return (a : T)
| Throw (x : exn).
Arguments Return {T} a.
Arguments Throw {T} x.

Definition rbind {T U} (r : result T) (k : T -> result U) : result U :=
  match r with
  | Return a => k a
  | Throw x => Throw x
  end.

(** A loop that collects one value per element and stops at the first
    exception. *)
Fixpoint mapR {T U} (f : T -> result U) (l : list T) : result (list U) :=
  match l with
  | [] => Return []
  | x :: l' => rbind (f x) (fun y => rbind (mapR f l') (fun ys => Return (y :: ys)))
  end.

Definition lift_result {T} (r : result T) : M T :=
  match r with
  | Return a => ret a
  | Throw x => raise x
  end.

(** ** Genotype: [parse]

    [torch.topk(edges[:, :], 1)] gives, for every edge, its largest weight
    and the index of the operation that carries it; torch raises
    [RuntimeError] when asked for more entries than there are. *)
Definition row_argmax (edge : list R) : result (R * nat) :=
  match topk edge 1 with
  | Some ([v], [p]) => Return (v, p)
  | _ => Throw RuntimeError
  end.

(** Body of [for edge_idx in topk_edge_indices]. *)
Definition gene_of (primitives : list string) (ms : list (R * nat)) (edge_idx : nat)
    : result (string * nat) :=
  match ms !! edge_idx with
  | Some (_, prim_idx) =>
      match primitives !! prim_idx with
      | Some prim => Return (prim, edge_idx)
      | None => Throw IndexError
      end
  | None => Throw IndexError
  end.

(** Body of [for edges in alpha]. *)
Definition parse_node (k : nat) (primitives : list string) (edges : list (list R))
    : result (list (string * nat)) :=
  rbind (mapR row_argmax edges) (fun ms =>
    match topk (map fst ms) k with
    | Some (_, topk_edge_indices) => mapR (gene_of primitives ms) topk_edge_indices
    | None => Throw RuntimeError
    end).

Definition parse (alpha : alpha) (k : nat) (primitives : list string)
    : result (list (list (string * nat))) :=
  mapR (parse_node k primitives) alpha.

(** ** [decode_metad2a_to_igraph]

    A directed igraph: the number of vertices, the ['type'] attribute of
    the vertices in vertex order, and the edges in the order they were
    added.  [add_edge] refuses a vertex that does not exist.  The argument is
    a list of rows, never a string. *)
Record igraph := mkGraph {
  g_n : nat;
  g_types : list Z;
  g_edges : list (nat * nat)
}.

Definition add_edge (u v : nat) (g : igraph) : result igraph :=
  if (u <? g_n g) && (v <? g_n g)
  then Return (mkGraph (g_n g) (g_types g) (g_edges g ++ [(u, v)]))
  else Throw InternalError.

(** [for j, edge in enumerate(node[1:]): if edge == 1: g.add_edge(j, i)]. *)
Fixpoint connect (i j : nat) (conns : list Z) (g : igraph) : result igraph :=
  match conns with
  | [] => Return g
  | edge :: rest =>
      rbind (if (edge =? 1)%Z then add_edge j i g else Return g)
        (fun g' => connect i (S j) rest g')
  end.

(** Body of [for i, node in enumerate(row)]; vertex [i] receives its type
    in iteration [i]. *)
Definition decode_node (n i : nat) (node : list Z) (g : igraph) : result igraph :=
  match node with
  | [] => Throw IndexError
  | ty :: conns =>
      let g := mkGraph (g_n g) (g_types g ++ [ty]) (g_edges g) in
      rbind (if (i <? n - 2) && (0 <? i) then add_edge i (i + 1) g else Return g)
        (fun g' => connect i 0 conns g')
  end.

Fixpoint decode_nodes (n i : nat) (row : list (list Z)) (g : igraph) : result igraph :=
  match row with
  | [] => Return g
  | node :: rest => rbind (decode_node n i node g) (fun g' => decode_nodes n (S i) rest g')
  end.

Definition decode_metad2a_to_igraph (row : list (list Z)) : result (igraph * nat) :=
  let n := length row in
  rbind (decode_nodes n 0 row (mkGraph n [] [])) (fun g => Return (g, n)).

(** ** Reward *)

(** [l.index(x)]. *)
Fixpoint list_index (x : string) (l : list string) : option nat :=
  match l with
  | [] => None
  | y :: l' => if String.eqb y x then Some 0 else S <$> list_index x l'
  end.

Definition connections : list (list Z) :=
  [[1]; [1; 0]; [0; 1; 0]; [1; 0; 0; 0]; [0; 1; 0; 0; 0]; [0; 0; 1; 1; 0; 0];
   [0; 0; 0; 0; 1; 1; 1]]%Z.

(** The two nested loops of [_meta_predictor_estimation] over the
    genotype, [index] counting the operations met so far. *)
Fixpoint op_rows (primitives : list string) (ops : list (string * nat)) (index : nat)
    : result (list (list Z)) :=
  match ops with
  | [] => Return []
  | (op, _) :: rest =>
      match list_index op primitives with
      | Some p =>
          match connections !! index with
          | Some conn =>
              rbind (op_rows primitives rest (S index))
                (fun rows => Return ((Z.of_nat p + 2 :: conn)%Z :: rows))
          | None => Throw IndexError
          end
      | None => Throw ValueError
      end
  end.

(** The list [edges] that [_meta_predictor_estimation] passes to
    [decode_metad2a_to_igraph]. *)
Definition predictor_rows (primitives : list string) (geno : list (list (string * nat)))
    : result (list (list Z)) :=
  rbind (op_rows primitives (concat geno) 0) (fun rows =>
    match last connections with
    | Some conn => Return ([0%Z] :: rows ++ [1%Z :: conn])
    | None => Throw IndexError
    end).

(** What the estimator does once the task is at hand. *)
Definition run_estimator (o : oracle) (task : option nat) : M R :=
  match task with
  | None => raise AttributeError            (* task.train_loader *)
  | Some _ =>
      match estimator_raises o with
      | Some x => raise x
      | None => ret (estimated_acc o)
      end
  end.

Definition _darts_estimation (o : oracle) (task : option nat) : M R :=
  run_estimator o task.

Definition _meta_predictor_estimation (o : oracle) (task : option nat) : M R :=
  e <- get ;;
  geno <- lift_result (parse (normalized_alphas e) 2 (PRIMITIVES_NAS_BENCH_201 o)) ;;
  edges <- lift_result (predictor_rows (primitives e) geno) ;;
  _ <- lift_result (decode_metad2a_to_igraph edges) ;;
  run_estimator o task.

Definition scale_reward (baseline_acc accuracy : R) : R :=
  let reward := 0%R in
  if Req_dec_T baseline_acc accuracy then 0%R
  else if Rle_dec baseline_acc accuracy then
    let '(a1, a2) := (baseline_acc, 1%R) in
    let '(b1, b2) := (0%R, 4%R) in
    (b1 + ((accuracy - a1) * (b2 - b1)) / (a2 - a1))%R
  else if Rge_dec baseline_acc accuracy then
    let '(a1, a2) := (0%R, baseline_acc) in
    let '(b1, b2) := ((-0.1)%R, 0%R) in
    (b1 + ((accuracy - a1) * (b2 - b1)) / (a2 - a1))%R
  else reward.

(** What a [return] statement of [compute_reward] hands back: a bare number
    or a two-element tuple. *)
Inductive retval :=
| RetScalar (r : R)
| RetPair (reward acc : R).

(** The division [... / (a2 - a1)] of [scale_reward] raises
    [ZeroDivisionError] on a zero denominator: above a baseline of 1.0,
    below a baseline of 0.0. *)
Definition scale_reward_raises (baseline_acc accuracy : R) : bool :=
  if Req_dec_T baseline_acc accuracy then false
  else if Rle_dec baseline_acc accuracy then
    (if Req_dec_T (1 - baseline_acc) 0 then true else false)
  else if Rge_dec baseline_acc accuracy then
    (if Req_dec_T (baseline_acc - 0) 0 then true else false)
  else false.

Definition compute_reward (o : oracle) : M retval :=
  e <- get ;;
  if negb (is_none (test_env e)) then
    ret (RetScalar (uniform_draw o))
  else
    acc <- (if reward_estimation e
            then _meta_predictor_estimation o (current_task e)
            else _darts_estimation o (current_task e)) ;;
    if scale_reward_raises (baseline_acc e) acc then raise ZeroDivisionError
    else
      let reward := scale_reward (baseline_acc e) acc in
      ret (RetPair reward acc).

(** Tuple unpacking [reward, acc = v]. *)
Definition unpack2 (v : retval) : M (R * R) :=
  match v with
  | RetPair r a => ret (r, a)
  | RetScalar _ => raise TypeError
  end.

(** ** Action dispatcher *)

(** The [action_info] f-strings, with the interpolated values. *)
Inductive action_info :=
| NoInfo                                        (* "" *)
| LegalMove (cur_node action : nat)
| IllegalMove (cur_node action : nat)
| IncreaseAlpha (row_idx edge_idx action : nat)
| DecreaseAlpha (row_idx edge_idx action : nat)
| Terminate (step_count : nat).

(** [x in np.arange(lo, hi)]. *)
Definition in_arange (lo hi x : nat) : bool := (lo <=? x) && (x <? hi).

(** Local variables of [_perform_action]. *)
Record locals := mkLocals {
  l_action : nat;
  l_action_info : action_info;
  l_reward : R;
  l_acc : option R;
  l_cur_node : nat;
  l_next_node : nat
}.

(** [if action in np.arange(len(self.A))]. *)
Definition traverse_branch (l : locals) : M locals :=
  e <- get ;;
  let 'mkLocals action action_info reward acc cur_node next_node := l in
  if in_arange 0 (length (A e)) action then
    A_next <- index (A e) next_node ;;
    a <- index A_next action ;;
    if 0 <? a then
      let cur_node := next_node in
      let next_node := action in
      s_idx <- dict_get (edge_to_index e) (cur_node, next_node) ;;
      st <- index (states e) s_idx ;;
      modify (set_current_state st) ;;
      ret (mkLocals action (LegalMove cur_node action) reward acc cur_node next_node)
    else if a <? 1 then
      ret (mkLocals action (IllegalMove cur_node action) (-0.1)%R acc cur_node next_node)
    else ret l
  else ret l.

(** The increase and decrease branches differ in the range, the offset, the
    flag passed to [update_meta_model] and the message. *)
Definition mutate_branch (o : oracle) (increase : bool) (lo : nat)
    (describe : nat -> nat -> nat -> action_info) (l : locals) : M locals :=
  e <- get ;;
  let 'mkLocals action action_info reward acc cur_node next_node := l in
  if in_arange lo (lo + n_ops e) action then
    let action := action - lo in
    ra <- dict_get (edge_to_alpha e) (cur_node, next_node) ;;
    let '(row_idx, edge_idx) := ra in
    s_idx <- dict_get (edge_to_index e) (cur_node, next_node) ;;
    update <- update_meta_model increase row_idx edge_idx action ;;
    (if update : bool then update_states else ret tt) ;;
    e <- get ;;
    st <- index (states e) s_idx ;;
    modify (set_current_state st) ;;
    v <- compute_reward o ;;
    ra <- unpack2 v ;;
    let '(reward, acc) := ra in
    ret (mkLocals action (describe row_idx edge_idx action) reward (Some acc)
           cur_node next_node)
  else ret l.

Definition terminate_branch (l : locals) : M locals :=
  e <- get ;;
  let 'mkLocals action action_info reward acc cur_node next_node := l in
  if in_arange (length (A e) + 2 * n_ops e) (length (A e) + 2 * n_ops e + 1) action then
    modify (set_terminate_episode true) ;;
    ret (mkLocals action (Terminate (step_count e)) reward acc cur_node next_node)
  else ret l.

Definition _perform_action (o : oracle) (action : nat) : M (action_info * R * option R) :=
  e <- get ;;
  let cur_node := obs_from (current_state e) in
  let next_node := obs_to (current_state e) in
  l <- traverse_branch (mkLocals action NoInfo 0%R None cur_node next_node) ;;
  l <- mutate_branch o true (length (A e)) IncreaseAlpha l ;;
  l <- mutate_branch o false (length (A e) + n_ops e) DecreaseAlpha l ;;
  l <- terminate_branch l ;;
  ret (l_action_info l, l_reward l, l_acc l).

Record info_dict := mkInfo {
  info_step_count : nat;
  info_action_id : nat;
  info_action : action_info;
  info_acc : option R;
  info_running_time : nat
}.

(** [row.to(self.config.device)]: the tensor itself when it already lives
    on that device, a copy otherwise. *)
Definition to_device (e : NasEnv) (i : nat) (row : list (list R)) : row_ref :=
  if params_on_device e then Param i else Copy row.

(** [for _, row in enumerate(self.meta_model.alpha_normal):
      self.max_alphas.append(row.to(self.config.device))]. *)
Definition collect_rows_on_device : M unit :=
  e <- get ;;
  for_enumerate (alpha_normal e) 0
    (fun i row _ =>
       modify (fun e => set_max_alphas (max_alphas e ++ [to_device e i row]) e)) tt.

Definition record_best (acc : option R) : M unit :=
  match acc with
  | Some acc =>
      if Rgt_dec acc 0 then
        modify (set_baseline_acc acc) ;;
        e <- get ;;
        if Rlt_dec (max_acc e) acc then
          modify (set_max_acc acc) ;;
          modify (set_max_alphas []) ;;
          collect_rows_on_device
        else ret tt
      else ret tt
  | None => ret tt
  end.

Definition step (o : oracle) (action : nat)
    : M (observation * R * bool * info_dict) :=
  r <- _perform_action o action ;;
  let '(action_info, reward, acc) := r in
  record_best acc ;;
  let running_time := elapsed_seconds o in
  modify (fun e => set_step_count (step_count e + 1) e) ;;
  e <- get ;;
  let done := (step_count e =? max_ep_len e) || terminate_episode e in
  let info := mkInfo (step_count e) action action_info acc running_time in
  ret (current_state e, reward, done, info).

(** ** Reset *)

(** [self.meta_model.load_state_dict(self.meta_state)]; the attribute
    [meta_state] exists only once [set_task] has assigned it. *)
Definition load_meta_state : M unit :=
  e <- get ;;
  match meta_state e with
  | None => raise AttributeError
  | Some (an, ar) => modify (set_alpha_normal an) ;; modify (set_alpha_reduce ar)
  end.

Definition reset (o : oracle) : M observation :=
  e <- get ;;
  if bool_decide (current_task e = None) && is_false (test_env e) then
    raise AssertionError
  else
    modify (set_step_count 0) ;;
    modify (set_terminate_episode false) ;;
    load_meta_state ;;
    update_states ;;
    set_start_state ;;
    v <- compute_reward o ;;
    ra <- unpack2 v ;;
    modify (set_baseline_acc (snd ra)) ;;
    e <- get ;;
    ret (current_state e).

(** ** A small cell used for concrete evaluations

    One intermediate node (three nodes in all), two incoming edges, three
    primitive operations. *)
Definition small_states (norm : alpha) : list observation :=
  match norm with
  | [[r0; r1]] =>
      [mkObs 0 2 true [1; 1; 0] r0; mkObs 2 0 true [0; 0; 1] r0;
       mkObs 1 2 true [1; 1; 0] r1; mkObs 2 1 true [0; 0; 1] r1]
  | _ => []
  end.

Definition small_env (tenv : pyval) (raw norm : alpha) : NasEnv :=
  {| cell_type := "normal"; n_ops := 3; test_env := tenv;
     reward_estimation := false; max_ep_len := 100; A := adjacency 3;
     alpha_normal := raw; alpha_reduce := raw;
     current_task := None; meta_state := None;
     step_count := 3; terminate_episode := false; baseline_acc := 0;
     normalized_alphas := norm; alphas := raw;
     states := small_states norm;
     edge_to_index := <[(2, 1) := 3]> (<[(1, 2) := 2]> (<[(2, 0) := 1]> (<[(0, 2) := 0]> ∅)));
     edge_to_alpha :=
       <[(2, 1) := (0, 1)]> (<[(1, 2) := (0, 1)]> (<[(2, 0) := (0, 0)]> (<[(0, 2) := (0, 0)]> ∅)));
     current_state_index := 0;
     current_state := mkObs 0 2 true [1; 1; 0] (default [] (norm !! 0 ≫= (.!! 0)));
     max_alphas := []; max_acc := 0;
     primitives := ["none"; "skip_connect"; "nor_conv_3x3"]%string;
     params_on_device := true |}.

(** A float32 softmax underflows to exactly [0.0]: the cached view of the
    raw row [0, -200, -200] is [1, 0, 0]. *)
Definition env_zero_weight : NasEnv :=
  small_env PyNone
    [[[0; -200; -200]; [0; 0; 0]]]%R
    [[[1; 0; 0]; [1/3; 1/3; 1/3]]]%R.

(** An operation that already holds 0.99 of the mass. *)
Definition env_saturated : NasEnv :=
  small_env PyNone
    [[[ln 0.99; ln 0.005; ln 0.005]; [0; 0; 0]]]%R
    [[[0.99; 0.005; 0.005]; [1/3; 1/3; 1/3]]]%R.

(** A balanced row. *)
Definition env_balanced : NasEnv :=
  small_env PyNone
    [[[ln 0.5; ln 0.3; ln 0.2]; [0; 0; 0]]]%R
    [[[0.5; 0.3; 0.2]; [1/3; 1/3; 1/3]]]%R.

(** Constructed with a test environment, no task set. *)
Definition env_test_mode : NasEnv :=
  small_env PyObject
    [[[0; 0; 0]; [0; 0; 0]]]%R
    [[[1/3; 1/3; 1/3]; [1/3; 1/3; 1/3]]]%R.

(** Constructed with the default [test_env=None], no task set, three steps
    taken. *)
Definition env_no_task : NasEnv :=
  small_env PyNone
    [[[0; 0; 0]; [0; 0; 0]]]%R
    [[[1/3; 1/3; 1/3]; [1/3; 1/3; 1/3]]]%R.

Definition oracle0 : oracle :=
  mkOracle 0.25 0.5 0 None
    ["none"; "skip_connect"; "nor_conv_1x1"; "nor_conv_3x3"; "avg_pool_3x3"]%string.

(** The rebuild of [env_no_task]: uniform rows, both edges of the node in
    its top two. *)
Definition raw_uniform : alpha := [[[0; 0; 0]; [0; 0; 0]]]%R.

Definition env_uniform_rebuilt : NasEnv :=
  set_alphas raw_uniform
    (set_normalized_alphas (map (map softmax) raw_uniform)
       (set_states (small_states (map (map softmax) raw_uniform)) env_no_task)).

(** ** Setting a task: [set_task] *)

Definition set_current_task (v : option nat) (e : NasEnv) : NasEnv :=
  let 'mkNasEnv a b c d f g h i _ k l m n o p q r s t u w x y z := e in
  mkNasEnv a b c d f g h i v k l m n o p q r s t u w x y z.
Definition set_meta_state (v : option (alpha * alpha)) (e : NasEnv) : NasEnv :=
  let 'mkNasEnv a b c d f g h i j _ l m n o p q r s t u w x y z := e in
  mkNasEnv a b c d f g h i j v l m n o p q r s t u w x y z.

(** [for _, row in enumerate(self.meta_model.alpha_normal):
      self.max_alphas.append(row)]. *)
Definition collect_max_alphas : M unit :=
  e <- get ;;
  for_enumerate (alpha_normal e) 0
    (fun i _ _ => modify (fun e => set_max_alphas (max_alphas e ++ [Param i]) e)) tt.

(** The rows [self.max_alphas] shows when it is read: an entry that is a
    Parameter of the model shows the row the model carries now. *)
Definition row_value (e : NasEnv) (r : row_ref) : option (list (list R)) :=
  match r with
  | Param i => alpha_normal e !! i
  | Copy v => Some v
  end.

Definition max_alphas_values (e : NasEnv) : option alpha :=
  mapM (row_value e) (max_alphas e).

Definition set_task (o : oracle) (task : nat) (meta_state : alpha * alpha) : M unit :=
  modify (set_current_task (Some task)) ;;
  modify (set_meta_state (Some meta_state)) ;;
  _ <- reset o ;;
  modify (set_max_acc 0) ;;
  modify (set_max_alphas []) ;;
  collect_max_alphas.

(** [len(self.A) + 2*len(self.primitives) + 1], the size of the action
    space built by [__init__]. *)
Definition action_size (e : NasEnv) : nat := length (A e) + 2 * n_ops e + 1.

(** The small cell declared as a reduction cell. *)
Definition env_reduce : NasEnv :=
  let 'mkNasEnv _ b c d f g h i j k l m n o p q r s t u w x y z := env_uniform_rebuilt in
  mkNasEnv "reduce" b c d f g h i j k l m n o p q r s t u w x y z.

(** The small cell once the meta-loop has handed over task 0 and a
    meta-state with uniform rows. *)
Definition env_task : NasEnv :=
  set_meta_state (Some (raw_uniform, raw_uniform)) (set_current_task (Some 0) env_no_task).

(** The first row of the state table of the uniform cell, and the
    environment [reset] leaves behind on [env_task]. *)
Definition obs_uniform_first : observation :=
  mkObs 0 2 true [1; 1; 0] (softmax [0; 0; 0]%R).

Definition env_task_reset : NasEnv :=
  set_baseline_acc (estimated_acc oracle0)
    (set_current_state obs_uniform_first
       (set_current_state_index 0
          (set_edge_to_alpha (edge_to_alpha env_uniform_rebuilt)
             (set_edge_to_index (edge_to_index env_uniform_rebuilt)
                (set_states (states env_uniform_rebuilt)
                   (set_alphas raw_uniform
                      (set_normalized_alphas (map (map softmax) raw_uniform)
                         (set_alpha_reduce raw_uniform
                            (set_alpha_normal raw_uniform
                               (set_terminate_episode false
                                  (set_step_count 0 env_task))))))))))).

(** The small cell with all raw weights equal to [c]. *)
Definition raw_const (c : R) : alpha := [[[c; c; c]; [c; c; c]]].

Definition env_const (c : R) : NasEnv :=
  small_env PyNone (raw_const c) (map (map softmax) (raw_const c)).

(** ... once task 0 has been handed over. *)
Definition env_const_task (c : R) : NasEnv := set_current_task (Some 0) (env_const c).

(** ** Vocabulary of the statements *)

(** Unfolds the monad down to the outcome. *)
Ltac run_monad :=
  unfold bind, get, modify, ret, raise, index, dict_get, lift_opt; simpl.

(** The state after a mutation that went through: the cached view holds the
    new row, the raw row holds its inverse softmax. *)
Definition mutated (e : NasEnv) (row edge : nat) (node anode : list (list R))
    (new : list R) : NasEnv :=
  set_alpha_normal
    (<[row := <[edge := _inverse_softmax new C_log10]> anode]> (alpha_normal e))
    (set_normalized_alphas (<[row := <[edge := new]> node]> (normalized_alphas e)) e).

(** A computation that returns leaves the part [f] of the environment as it
    found it. *)
Definition keeps {X T} (f : NasEnv -> X) (m : M T) : Prop :=
  forall e a e', m e = Ok a e' -> f e' = f e.

(** The environment with the three tables emptied: what the two loops of
    [update_states] do not touch. *)
Definition clear_tables (e : NasEnv) : NasEnv :=
  set_edge_to_alpha ∅ (set_edge_to_index ∅ (set_states [] e)).

(** ... and with the two views emptied as well: what [update_states] reads. *)
Definition clear_views (e : NasEnv) : NasEnv :=
  set_alphas [] (set_normalized_alphas [] (clear_tables e)).

(** The environment on which the loops of [update_states] start. *)
Definition encoder_start (a : alpha) (e : NasEnv) : NasEnv :=
  set_alphas a (set_normalized_alphas (map (map softmax) a) (clear_tables e)).

(** The raw rows [update_states] reads, by cell type. *)
Definition selected_alpha (e : NasEnv) : alpha :=
  if String.eqb (cell_type e) "normal" then alpha_normal e else alpha_reduce e.

(** Every key between two different nodes has its reverse in the map, one
    index away. *)
Definition paired (m : gmap (nat * nat) nat) : Prop :=
  forall a b v, a <> b -> m !! (a, b) = Some v ->
    exists w, m !! (b, a) = Some w /\ (w = v + 1 \/ v = w + 1).

(** No key from a node to itself. *)
Definition loop_free (m : gmap (nat * nat) nat) : Prop :=
  forall a, m !! (a, a) = None.

(** Every node lists at most the nodes before it as sources of incoming
    edges: node [i + 2] has at most [i + 2] incoming edges. *)
Definition incoming_from_earlier (a : alpha) : Prop :=
  forall i edges, a !! i = Some edges -> length edges <= i + 2.

(** The shape of a cell the searched network supplies: node [i + 2] exists
    in the cell graph, has between two and [i + 2] incoming edges, and every
    edge carries at least one operation weight. *)
Definition well_shaped (n_nodes : nat) (a : alpha) : Prop :=
  forall i edges, a !! i = Some edges ->
    2 <= length edges <= i + 2 /\ i + 2 < n_nodes /\ Forall (fun edge => edge <> []) edges.

(** [A[r][c]], when in range. *)
Definition adjacent (A : list (list nat)) (r c : nat) : option nat :=
  match A !! r with
  | Some row => row !! c
  | None => None
  end.

(** The attributes [__init__] fixes and no method assigns afterwards,
    together with the task attributes only [set_task] assigns. *)
Definition config_of (e : NasEnv) :=
  (cell_type e, n_ops e, test_env e, reward_estimation e, max_ep_len e, A e,
   current_task e, meta_state e).

(** The bookkeeping [step] and [reset] own. *)
Definition episode_of (e : NasEnv) :=
  (step_count e, baseline_acc e, max_acc e, max_alphas e).

(** A computation that returns from a state where [P] holds returns to a
    state where [P] holds. *)
Definition preserves {T} (P : NasEnv -> Prop) (m : M T) : Prop :=
  forall e a e', P e -> m e = Ok a e' -> P e'.

(** What [update_states] needs of the rows it encodes, with [n] the number
    of nodes of the cell graph: node [i + 2] is a node of the graph, it has
    at least the two incoming edges [torch.topk(.., k=2)] asks for, its
    source nodes are nodes of the graph, and every edge has an operation
    weight for [torch.topk(.., 1)]. *)
Definition encodable (n : nat) (a : alpha) : Prop :=
  forall i edges, a !! i = Some edges ->
    2 <= length edges <= n /\ i + 2 < n /\ Forall (fun edge => edge <> []) edges.

(** The tables agree: the row [edge_to_index] points to for the key
    [(a, b)] is the observation of the edge from [a] to [b], it carries the
    adjacency row of [b] and the normalized weights of the row
    [edge_to_alpha] points to, which belongs to the undirected edge
    between [a] and [b]. *)
Definition tables_agree (e : NasEnv) : Prop :=
  forall a b s, edge_to_index e !! (a, b) = Some s ->
    exists i j o edge,
      edge_to_alpha e !! (a, b) = Some (i, j) /\
      ((a, b) = (j, i + 2) \/ (a, b) = (i + 2, j)) /\
      states e !! s = Some o /\
      obs_from o = a /\ obs_to o = b /\
      A e !! b = Some (obs_adj o) /\
      edge_at (normalized_alphas e) i j = Some edge /\
      obs_ops o = edge.

(** A cell in which every node takes one incoming edge from every earlier
    node: node [i + 2] has exactly [i + 2] incoming edges. *)
Definition full_cell (a : alpha) : Prop :=
  forall i edges, a !! i = Some edges -> length edges = i + 2.

(** The tables are up to date: a rebuild would change nothing. *)
Definition up_to_date (e : NasEnv) : Prop := update_states e = Ok tt e.

(** What [update_states] reads and writes. *)
Definition tables_of (e : NasEnv) :=
  (cell_type e, alpha_normal e, alpha_reduce e, A e, states e, edge_to_index e,
   edge_to_alpha e, normalized_alphas e, alphas e).

(** The environment [dst] with the three tables of [src]. *)
Definition with_tables (src dst : NasEnv) : NasEnv :=
  set_edge_to_alpha (edge_to_alpha src)
    (set_edge_to_index (edge_to_index src) (set_states (states src) dst)).

(** The two dictionaries as the loops of [update_states] fill them, from
    the number of incoming edges of each node alone: node [i + 2] with [n]
    edges takes the table rows [s .. s + 2 n - 1]. *)
Fixpoint index_edges (i n j s : nat) (m : gmap (nat * nat) nat) : gmap (nat * nat) nat :=
  match n with
  | O => m
  | S n' => index_edges i n' (S j) (s + 2) (<[(i + 2, j) := s + 1]> (<[(j, i + 2) := s]> m))
  end.

Fixpoint index_nodes (shape : list nat) (i s : nat) (m : gmap (nat * nat) nat)
    : gmap (nat * nat) nat :=
  match shape with
  | [] => m
  | n :: rest => index_nodes rest (S i) (s + 2 * n) (index_edges i n 0 s m)
  end.

Fixpoint alpha_edges (i n j : nat) (m : gmap (nat * nat) (nat * nat))
    : gmap (nat * nat) (nat * nat) :=
  match n with
  | O => m
  | S n' => alpha_edges i n' (S j) (<[(i + 2, j) := (i, j)]> (<[(j, i + 2) := (i, j)]> m))
  end.

Fixpoint alpha_nodes (shape : list nat) (i : nat) (m : gmap (nat * nat) (nat * nat))
    : gmap (nat * nat) (nat * nat) :=
  match shape with
  | [] => m
  | n :: rest => alpha_nodes rest (S i) (alpha_edges i n 0 m)
  end.

(** Every edge of the normal cell carries one weight per primitive. *)
Definition rows_of_ops (e : NasEnv) : Prop :=
  forall i edges, alpha_normal e !! i = Some edges ->
    Forall (fun edge => length edge = n_ops e) edges.

(** The invariant of both loops of [update_states]: the running index is the
    length of the table, the tables agree, both dictionaries have the same
    keys, and the loops leave the views and the graph alone. *)
Definition encoder_inv (N : alpha) (G : list (list nat)) (s : nat) (f : NasEnv) : Prop :=
  s = length (states f) /\
  tables_agree f /\
  (forall k, is_Some (edge_to_index f !! k) <-> is_Some (edge_to_alpha f !! k)) /\
  normalized_alphas f = N /\ A f = G.

(** Every row of the graph is as long as the graph has nodes. *)
Definition square (G : list (list nat)) : Prop :=
  Forall (fun row => length row = length G) G.


(** The invariant of the loops of [update_states] on the rows of the
    table, when the encoder is about to take edge [j] of node [i + 2]: the
    running index is the length of the table, every row sits at the index
    stored under its own pair of nodes, and joins two nodes before [i + 2]
    or node [i + 2] to a node before [j]. *)
Definition keyed_upto (i j s : nat) (f : NasEnv) : Prop :=
  s = length (states f) /\
  forall t o, states f !! t = Some o ->
    edge_to_index f !! (obs_from o, obs_to o) = Some t /\
    ((obs_from o < i + 2 /\ obs_to o < i + 2) \/
     (obs_to o = i + 2 /\ obs_from o < j) \/
     (obs_from o = i + 2 /\ obs_to o < j)).

(** The entries [step] and [set_task] store in [self.max_alphas]. *)
Definition rows_on_device (e : NasEnv) : list row_ref :=
  imap (to_device e) (alpha_normal e).

Definition params_of (a : alpha) : list row_ref :=
  imap (fun i _ => Param i) a.

(** The reward can be computed: no test environment, the training-based
    estimator, a task at hand, an estimator that runs through, and no
    zero denominator in [scale_reward]. *)
Definition reward_ready (o : oracle) (e : NasEnv) : Prop :=
  test_env e = PyNone /\ reward_estimation e = false /\
  (exists task, current_task e = Some task) /\
  estimator_raises o = None /\
  scale_reward_raises (baseline_acc e) (estimated_acc o) = false.

(* ================================================================= *)
(** * Properties *)

(** ** Sums, softmax and its inverse *)

Section Numeric.
Local Open Scope R_scope.

Lemma rsum_app (l1 l2 : list R) : rsum (l1 ++ l2) = rsum l1 + rsum l2.
Proof. induction l1 as [|a l1 IH]; simpl; [lra | rewrite IH; lra]. Qed.

Lemma rsum_map_scale (f : R -> R) (c : R) (l : list R) :
  rsum (map (fun a => f a * c) l) = rsum (map f l) * c.
Proof. induction l as [|a l IH]; simpl; [lra | rewrite IH; lra]. Qed.

Lemma rsum_add_scalar (c : R) (l : list R) :
  rsum (add_scalar c l) = rsum l + c * INR (length l).
Proof.
  unfold add_scalar.
  induction l as [|a l IH]; [simpl; lra |].
  change (length (a :: l)) with (S (length l)). rewrite S_INR.
  simpl. rewrite IH. lra.
Qed.

Lemma rsum_insert (l : list R) (i : nat) (x y : R) :
  l !! i = Some x -> rsum (<[i := y]> l) = rsum l - x + y.
Proof.
  revert i. induction l as [|a l IH]; intros [|i] H; simpl in *; try discriminate.
  - injection H as ->. lra.
  - rewrite (IH i H). lra.
Qed.

Lemma rsum_pos (l : list R) :
  l <> [] -> (forall v, In v l -> 0 < v) -> 0 < rsum l.
Proof.
  destruct l as [|a l]; [congruence | intros _ H].
  assert (Ha : 0 < a) by (apply H; now left).
  assert (Hl : 0 <= rsum l).
  { assert (Hin : forall v, In v l -> 0 < v) by (intros v Hv; apply H; now right).
    clear H Ha. induction l as [|b l IH]; simpl; [lra |].
    assert (0 < b) by (apply Hin; now left).
    assert (0 <= rsum l) by (apply IH; intros v Hv; apply Hin; now right).
    lra. }
  simpl. lra.
Qed.



Lemma length_softmax (l : list R) : length (softmax l) = length l.
Proof. unfold softmax. now rewrite length_map. Qed.

Lemma exp_inverse_softmax (x : list R) (C : R) :
  (forall v, In v x -> 0 < v) ->
  map exp (_inverse_softmax x C) = map (fun v => v * exp C) x.
Proof.
  intros Hpos. unfold _inverse_softmax. rewrite map_map.
  apply map_ext_in. intros v Hv. rewrite exp_plus, exp_ln; auto.
Qed.

(** The softmax of [ln x + C] is [x] renormalised, whatever [C] is. *)
Lemma softmax_inverse_softmax (x : list R) (C : R) :
  (forall v, In v x -> 0 < v) ->
  softmax (_inverse_softmax x C) = map (fun v => v / rsum x) x.
Proof.
  intros Hpos. destruct (decide (x = [])) as [-> | Hne]; [reflexivity |].
  unfold softmax. rewrite exp_inverse_softmax by assumption.
  rewrite (rsum_map_scale (fun v => v)), map_id.
  unfold _inverse_softmax. rewrite map_map.
  apply map_ext_in. intros v Hv.
  rewrite exp_plus, exp_ln by auto.
  pose proof (rsum_pos x Hne Hpos). pose proof (exp_pos C).
  field. split; lra.
Qed.

End Numeric.

(** ** Running the operators *)

Lemma write_edge_Some (t : alpha) (row edge : nat) (node : list (list R)) (v : list R) :
  t !! row = Some node -> edge < length node ->
  write_edge row edge v t = Some (<[row := <[edge := v]> node]> t).
Proof.
  intros Hrow Hlt. unfold write_edge. rewrite Hrow.
  destruct (decide (edge < length node)); [reflexivity | contradiction].
Qed.

Lemma write_edge_twice (t : alpha) (row edge : nat) (node : list (list R)) (v w : list R) :
  t !! row = Some node -> edge < length node ->
  write_edge row edge w (<[row := <[edge := v]> node]> t)
  = Some (<[row := <[edge := w]> node]> t).
Proof.
  intros Hrow Hlt.
  assert (Hr : row < length t) by (eapply lookup_lt_Some; eauto).
  rewrite (write_edge_Some _ row edge (<[edge := v]> node)).
  - now rewrite list_insert_insert_eq, list_insert_insert_eq.
  - now apply list_lookup_insert_eq.
  - now rewrite length_insert.
Qed.

Lemma increase_op_run e row edge op prob node curr_edge x anode :
  normalized_alphas e !! row = Some node ->
  node !! edge = Some curr_edge ->
  curr_edge !! op = Some x ->
  alpha_normal e !! row = Some anode ->
  edge < length anode ->
  increase_op row edge op prob e =
    if Rlt_dec (x + clamp_increase x prob) 1 then
      Ok true (mutated e row edge node anode
                 (add_scalar 0.01 (<[op := (x + clamp_increase x prob)%R]> curr_edge)))
    else Ok false e.
Proof.
  intros Hn He Ho Ha Hlt.
  assert (Hlt' : edge < length node) by (eapply lookup_lt_Some; eauto).
  unfold increase_op, mutated, store_normalized, store_alpha_normal.
  destruct e; simpl in *. run_monad.
  rewrite Hn. simpl. rewrite He. simpl. rewrite Ho. simpl.
  destruct (Rlt_dec _ _); [| reflexivity].
  rewrite (write_edge_Some _ _ _ node) by assumption. simpl.
  rewrite (write_edge_twice _ _ _ node) by assumption. simpl.
  rewrite (write_edge_Some _ _ _ anode) by assumption. reflexivity.
Qed.

Lemma decrease_op_run e row edge op prob node curr_edge x anode :
  normalized_alphas e !! row = Some node ->
  node !! edge = Some curr_edge ->
  curr_edge !! op = Some x ->
  alpha_normal e !! row = Some anode ->
  edge < length anode ->
  decrease_op row edge op prob e =
    if Rgt_dec (x - clamp_decrease x prob) 0 then
      Ok true (mutated e row edge node anode
                 (add_scalar 0.01 (<[op := (x - clamp_decrease x prob)%R]> curr_edge)))
    else Ok false e.
Proof.
  intros Hn He Ho Ha Hlt.
  assert (Hlt' : edge < length node) by (eapply lookup_lt_Some; eauto).
  unfold decrease_op, mutated, store_normalized, store_alpha_normal.
  destruct e; simpl in *. run_monad.
  rewrite Hn. simpl. rewrite He. simpl. rewrite Ho. simpl.
  destruct (Rgt_dec _ _); [| reflexivity].
  rewrite (write_edge_Some _ _ _ node) by assumption. simpl.
  rewrite (write_edge_twice _ _ _ node) by assumption. simpl.
  rewrite (write_edge_Some _ _ _ anode) by assumption. reflexivity.
Qed.

Lemma write_edge_inv (t t' : alpha) (row edge : nat) (v : list R) :
  write_edge row edge v t = Some t' ->
  exists node, t !! row = Some node /\ edge < length node.
Proof.
  unfold write_edge. destruct (t !! row) as [node|]; [| discriminate].
  destruct (decide (edge < length node)); [eauto | discriminate].
Qed.

Lemma increase_op_inv e e1 row edge op prob :
  increase_op row edge op prob e = Ok true e1 ->
  exists node curr_edge x anode,
    normalized_alphas e !! row = Some node /\
    node !! edge = Some curr_edge /\
    curr_edge !! op = Some x /\
    alpha_normal e !! row = Some anode /\
    edge < length anode /\
    (x + clamp_increase x prob < 1)%R /\
    e1 = mutated e row edge node anode
           (add_scalar 0.01 (<[op := (x + clamp_increase x prob)%R]> curr_edge)).
Proof.
  intros H.
  destruct (normalized_alphas e !! row) as [node|] eqn:Hn;
    [| unfold increase_op in H; revert H; run_monad; rewrite Hn; discriminate].
  destruct (node !! edge) as [curr_edge|] eqn:He;
    [| unfold increase_op in H; revert H; run_monad; rewrite Hn; simpl; rewrite He;
       discriminate].
  destruct (curr_edge !! op) as [x|] eqn:Ho;
    [| unfold increase_op in H; revert H; run_monad; rewrite Hn; simpl; rewrite He;
       simpl; rewrite Ho; discriminate].
  assert (Hlt' : edge < length node) by (eapply lookup_lt_Some; eauto).
  destruct (write_edge row edge [] (alpha_normal e)) as [t|] eqn:Hw.
  - apply write_edge_inv in Hw as (anode & Ha & Hlt).
    rewrite (increase_op_run e row edge op prob node curr_edge x anode) in H by assumption.
    destruct (Rlt_dec _ _); [| discriminate].
    injection H as <-. exists node, curr_edge, x, anode. auto 10.
  - exfalso. revert H. unfold increase_op, store_normalized, store_alpha_normal.
    destruct e; simpl in *. run_monad.
    rewrite Hn. simpl. rewrite He. simpl. rewrite Ho. simpl.
    destruct (Rlt_dec _ _); [| discriminate].
    rewrite (write_edge_Some _ _ _ node) by assumption. simpl.
    rewrite (write_edge_twice _ _ _ node) by assumption. simpl.
    unfold write_edge in *. destruct (alpha_normal0 !! row) as [an|]; [| discriminate].
    destruct (decide (edge < length an)); discriminate.
Qed.

Lemma decrease_op_inv e e1 row edge op prob :
  decrease_op row edge op prob e = Ok true e1 ->
  exists node curr_edge x anode,
    normalized_alphas e !! row = Some node /\
    node !! edge = Some curr_edge /\
    curr_edge !! op = Some x /\
    alpha_normal e !! row = Some anode /\
    edge < length anode /\
    (x - clamp_decrease x prob > 0)%R /\
    e1 = mutated e row edge node anode
           (add_scalar 0.01 (<[op := (x - clamp_decrease x prob)%R]> curr_edge)).
Proof.
  intros H.
  destruct (normalized_alphas e !! row) as [node|] eqn:Hn;
    [| unfold decrease_op in H; revert H; run_monad; rewrite Hn; discriminate].
  destruct (node !! edge) as [curr_edge|] eqn:He;
    [| unfold decrease_op in H; revert H; run_monad; rewrite Hn; simpl; rewrite He;
       discriminate].
  destruct (curr_edge !! op) as [x|] eqn:Ho;
    [| unfold decrease_op in H; revert H; run_monad; rewrite Hn; simpl; rewrite He;
       simpl; rewrite Ho; discriminate].
  assert (Hlt' : edge < length node) by (eapply lookup_lt_Some; eauto).
  destruct (write_edge row edge [] (alpha_normal e)) as [t|] eqn:Hw.
  - apply write_edge_inv in Hw as (anode & Ha & Hlt).
    rewrite (decrease_op_run e row edge op prob node curr_edge x anode) in H by assumption.
    destruct (Rgt_dec _ _); [| discriminate].
    injection H as <-. exists node, curr_edge, x, anode. auto 10.
  - exfalso. revert H. unfold decrease_op, store_normalized, store_alpha_normal.
    destruct e; simpl in *. run_monad.
    rewrite Hn. simpl. rewrite He. simpl. rewrite Ho. simpl.
    destruct (Rgt_dec _ _); [| discriminate].
    rewrite (write_edge_Some _ _ _ node) by assumption. simpl.
    rewrite (write_edge_twice _ _ _ node) by assumption. simpl.
    unfold write_edge in *. destruct (alpha_normal0 !! row) as [an|]; [| discriminate].
    destruct (decide (edge < length an)); discriminate.
Qed.

(** ** What a computation leaves alone *)

Lemma keeps_ret {X T} (f : NasEnv -> X) (a : T) : keeps f (ret a).
Proof. intros e b e' H. injection H as _ <-. reflexivity. Qed.

Lemma keeps_raise {X T} (f : NasEnv -> X) (x : exn) : keeps f (raise (T := T) x).
Proof. intros e b e' H. discriminate. Qed.

Lemma keeps_get {X} (f : NasEnv -> X) : keeps f get.
Proof. intros e b e' H. injection H as _ <-. reflexivity. Qed.

Lemma keeps_modify {X} (f : NasEnv -> X) (g : NasEnv -> NasEnv) :
  (forall e, f (g e) = f e) -> keeps f (modify g).
Proof. intros Hg e b e' H. injection H as _ <-. apply Hg. Qed.

Lemma keeps_bind {X T U} (f : NasEnv -> X) (m : M T) (k : T -> M U) :
  keeps f m -> (forall a, keeps f (k a)) -> keeps f (bind m k).
Proof.
  intros Hm Hk e b e' H. unfold bind in H.
  destruct (m e) as [a e1 | x e1] eqn:Hme; [| discriminate].
  rewrite (Hk a e1 b e' H). eapply Hm; eauto.
Qed.

Lemma keeps_index {X T} (f : NasEnv -> X) (l : list T) (i : nat) : keeps f (index l i).
Proof. unfold index. destruct (l !! i); [apply keeps_ret | apply keeps_raise]. Qed.

Lemma keeps_lift_opt {X T} (f : NasEnv -> X) (x : exn) (o : option T) :
  keeps f (lift_opt x o).
Proof. unfold lift_opt. destruct o; [apply keeps_ret | apply keeps_raise]. Qed.

Lemma keeps_for_enumerate {X T St} (f : NasEnv -> X) (l : list T)
    (body : nat -> T -> St -> M St) :
  (forall k x s, keeps f (body k x s)) ->
  forall k s, keeps f (for_enumerate l k body s).
Proof.
  intros Hb. induction l as [|x l IH]; intros k s; simpl.
  - apply keeps_ret.
  - apply keeps_bind; [apply Hb | intros a; apply IH].
Qed.

(** Loop invariants, with the position of each element at hand. *)
Lemma for_enumerate_inv {T St} (I : NasEnv -> Prop) (l : list T)
    (body : nat -> T -> St -> M St) :
  forall k0 s e s' e',
    (forall n x s e s' e',
        l !! n = Some x -> I e -> body (k0 + n) x s e = Ok s' e' -> I e') ->
    I e -> for_enumerate l k0 body s e = Ok s' e' -> I e'.
Proof.
  induction l as [|x l IH]; intros k0 s e s' e' Hb HI H; simpl in H.
  - injection H as _ <-. exact HI.
  - unfold bind in H. destruct (body k0 x s e) as [s1 e1 | ? ?] eqn:Hx; [| discriminate].
    apply (IH (S k0) s1 e1 s' e'); [| | exact H].
    + intros n y t f t' f' Hy HIf Hrun.
      apply (Hb (S n) y t f t' f'); [exact Hy | exact HIf |].
      now replace (k0 + S n) with (S k0 + n) by lia.
    + apply (Hb 0 x s e s1 e1); [reflexivity | exact HI |].
      now rewrite Nat.add_0_r.
Qed.

(** ** The state encoder *)

Lemma encode_edge_run i tk j edge s e s' e' :
  encode_edge i tk j edge s e = Ok s' e' ->
  exists A_to A_from,
    A e !! (i + 2) = Some A_to /\ A e !! j = Some A_from /\
    s' = s + 2 /\
    e' = set_states
           (states e ++ [mkObs j (i + 2) (bool_decide (j ∈ tk)) A_to edge;
                         mkObs (i + 2) j (bool_decide (j ∈ tk)) A_from edge])
           (set_edge_to_alpha
              (<[(i + 2, j) := (i, j)]> (<[(j, i + 2) := (i, j)]> (edge_to_alpha e)))
              (set_edge_to_index
                 (<[(i + 2, j) := s + 1]> (<[(j, i + 2) := s]> (edge_to_index e))) e)).
Proof.
  unfold encode_edge, update_edge_to_index, update_edge_to_alpha, update_states_attr.
  destruct e; run_monad.
  destruct (A0 !! (i + 2)) as [A_to|] eqn:Hto; simpl; [| discriminate].
  destruct (A0 !! j) as [A_from|] eqn:Hfrom; simpl; [| discriminate].
  intros H. injection H as <- <-. exists A_to, A_from.
  rewrite <- app_assoc. auto.
Qed.

Lemma keeps_encode_edge i tk j edge s : keeps clear_tables (encode_edge i tk j edge s).
Proof.
  intros e s' e' H. apply encode_edge_run in H as (A_to & A_from & _ & _ & _ & ->).
  destruct e; reflexivity.
Qed.

Lemma keeps_encode_node i edges s : keeps clear_tables (encode_node i edges s).
Proof.
  unfold encode_node.
  apply keeps_bind; [apply keeps_lift_opt | intros edge_max].
  apply keeps_bind; [apply keeps_lift_opt | intros tk].
  apply keeps_for_enumerate. intros; apply keeps_encode_edge.
Qed.

Lemma update_states_unfold e :
  update_states e =
    if String.eqb (cell_type e) "normal" then
      (for_enumerate (map (map softmax) (alpha_normal e)) 0 encode_node 0 ;; ret tt)
        (encoder_start (alpha_normal e) e)
    else if String.eqb (cell_type e) "reduce" then
      (for_enumerate (map (map softmax) (alpha_reduce e)) 0 encode_node 0 ;; ret tt)
        (encoder_start (alpha_reduce e) e)
    else Raise RuntimeError (clear_tables e).
Proof.
  unfold update_states, encoder_start, clear_tables. destruct e; run_monad.
  destruct (String.eqb cell_type0 "normal"); [reflexivity |].
  destruct (String.eqb cell_type0 "reduce"); reflexivity.
Qed.

Lemma update_states_inv e e' :
  update_states e = Ok tt e' ->
  (cell_type e = "normal" \/ cell_type e = "reduce")%string /\
  exists s,
    for_enumerate (map (map softmax) (selected_alpha e)) 0 encode_node 0
      (encoder_start (selected_alpha e) e) = Ok s e'.
Proof.
  rewrite update_states_unfold. unfold selected_alpha.
  destruct (String.eqb (cell_type e) "normal") eqn:Hn.
  - apply String.eqb_eq in Hn. unfold bind.
    destruct (for_enumerate _ _ _ _ _) as [s e1|] eqn:Hloop; [| discriminate].
    intros H. injection H as <-. eauto.
  - destruct (String.eqb (cell_type e) "reduce") eqn:Hr; [| discriminate].
    apply String.eqb_eq in Hr. unfold bind.
    destruct (for_enumerate _ _ _ _ _) as [s e1|] eqn:Hloop; [| discriminate].
    intros H. injection H as <-. eauto.
Qed.

(** A rebuild changes the three tables and the two views, nothing else. *)
Lemma update_states_frame e e' :
  update_states e = Ok tt e' ->
  clear_tables e' = encoder_start (selected_alpha e) e.
Proof.
  intros H. apply update_states_inv in H as (_ & s & Hloop).
  apply (keeps_for_enumerate clear_tables) in Hloop.
  - rewrite Hloop. unfold encoder_start, clear_tables. destruct e; reflexivity.
  - intros; apply keeps_encode_node.
Qed.

Lemma update_states_normalized e e' :
  update_states e = Ok tt e' ->
  normalized_alphas e' = map (map softmax) (selected_alpha e) /\
  alphas e' = selected_alpha e /\
  alpha_normal e' = alpha_normal e /\
  alpha_reduce e' = alpha_reduce e /\
  cell_type e' = cell_type e /\
  A e' = A e.
Proof.
  intros H. apply update_states_frame in H.
  assert (Hn : forall f, normalized_alphas (clear_tables f) = normalized_alphas f)
    by (intros f; destruct f; reflexivity).
  assert (Ha : forall f, alphas (clear_tables f) = alphas f)
    by (intros f; destruct f; reflexivity).
  assert (Han : forall f, alpha_normal (clear_tables f) = alpha_normal f)
    by (intros f; destruct f; reflexivity).
  assert (Har : forall f, alpha_reduce (clear_tables f) = alpha_reduce f)
    by (intros f; destruct f; reflexivity).
  assert (Hc : forall f, cell_type (clear_tables f) = cell_type f)
    by (intros f; destruct f; reflexivity).
  assert (HA : forall f, A (clear_tables f) = A f)
    by (intros f; destruct f; reflexivity).
  rewrite <- (Hn e'), <- (Ha e'), <- (Han e'), <- (Har e'), <- (Hc e'), <- (HA e'), H.
  generalize (selected_alpha e). intros a.
  unfold encoder_start, clear_tables. destruct e; simpl. auto 10.
Qed.

Lemma update_states_reads_cleared e :
  (cell_type e = "normal" \/ cell_type e = "reduce")%string ->
  update_states e = update_states (clear_views e).
Proof.
  intros Hc. rewrite !update_states_unfold. unfold encoder_start, clear_views, clear_tables.
  destruct e.
  cbn [cell_type alpha_normal alpha_reduce set_alphas set_normalized_alphas
       set_edge_to_alpha set_edge_to_index set_states] in *.
  destruct Hc as [-> | ->]; reflexivity.
Qed.

Lemma update_states_clear_views e e' :
  update_states e = Ok tt e' -> clear_views e' = clear_views e.
Proof.
  intros H. apply update_states_frame in H.
  unfold clear_views. rewrite H.
  generalize (selected_alpha e). intros a.
  unfold encoder_start, clear_tables. destruct e; reflexivity.
Qed.

(** Rebuilding a freshly rebuilt environment changes nothing. *)
Lemma update_states_idempotent e e1 :
  update_states e = Ok tt e1 -> update_states e1 = Ok tt e1.
Proof.
  intros H.
  assert (Hc : (cell_type e = "normal" \/ cell_type e = "reduce")%string)
    by (apply (update_states_inv e e1 H)).
  assert (Hc1 : cell_type e1 = cell_type e) by (apply (update_states_normalized e e1 H)).
  rewrite update_states_reads_cleared by (now rewrite Hc1).
  rewrite (update_states_clear_views e e1 H).
  now rewrite <- update_states_reads_cleared.
Qed.

(** ** The two directions of an edge sit on neighbouring table rows *)

Lemma paired_empty : paired ∅.
Proof. intros a b v _ H. rewrite lookup_empty in H. discriminate. Qed.

Lemma paired_insert (m : gmap (nat * nat) nat) (a b s : nat) :
  paired m -> paired (<[(b, a) := s + 1]> (<[(a, b) := s]> m)).
Proof.
  intros Hm c d v Hcd H.
  destruct (decide ((c, d) = (b, a))) as [Heq | Hne1].
  - injection Heq as -> ->. rewrite lookup_insert_eq in H. injection H as <-.
    exists s. split; [| right; reflexivity].
    rewrite lookup_insert_ne by congruence. apply lookup_insert_eq.
  - rewrite lookup_insert_ne in H by congruence.
    destruct (decide ((c, d) = (a, b))) as [Heq | Hne2].
    + injection Heq as -> ->. rewrite lookup_insert_eq in H. injection H as <-.
      exists (s + 1). split; [apply lookup_insert_eq | left; reflexivity].
    + rewrite lookup_insert_ne in H by congruence.
      destruct (Hm c d v Hcd H) as (w & Hw & Hadj). exists w. split; [| exact Hadj].
      rewrite !lookup_insert_ne by congruence. exact Hw.
Qed.

Lemma loop_free_insert (m : gmap (nat * nat) nat) (a b s t : nat) :
  a <> b -> loop_free m -> loop_free (<[(b, a) := t]> (<[(a, b) := s]> m)).
Proof.
  intros Hab Hm c. rewrite !lookup_insert_ne by congruence. apply Hm.
Qed.

Lemma encode_edge_paired i tk j edge s e s' e' :
  paired (edge_to_index e) ->
  encode_edge i tk j edge s e = Ok s' e' ->
  paired (edge_to_index e').
Proof.
  intros Hp H. apply encode_edge_run in H as (A_to & A_from & _ & _ & _ & ->).
  destruct e; simpl in *. now apply paired_insert.
Qed.

Lemma encode_edge_loop_free i tk j edge s e s' e' :
  j <> i + 2 ->
  loop_free (edge_to_index e) ->
  encode_edge i tk j edge s e = Ok s' e' ->
  loop_free (edge_to_index e').
Proof.
  intros Hne Hp H. apply encode_edge_run in H as (A_to & A_from & _ & _ & _ & ->).
  destruct e; simpl in *. now apply loop_free_insert.
Qed.

Lemma encode_node_paired i edges s e s' e' :
  paired (edge_to_index e) ->
  encode_node i edges s e = Ok s' e' ->
  paired (edge_to_index e').
Proof.
  intros Hp. unfold encode_node, bind, lift_opt.
  destruct (mapM row_max edges) as [edge_max|]; simpl; [| discriminate].
  destruct (snd <$> topk edge_max 2) as [tk|]; simpl; [| discriminate].
  apply (for_enumerate_inv (fun f => paired (edge_to_index f))); [| exact Hp].
  intros n x t f t' f' Hx Hf Hrun.
  exact (encode_edge_paired i tk (0 + n) x t f t' f' Hf Hrun).
Qed.

Lemma encode_node_loop_free i edges s e s' e' :
  length edges <= i + 2 ->
  loop_free (edge_to_index e) ->
  encode_node i edges s e = Ok s' e' ->
  loop_free (edge_to_index e').
Proof.
  intros Hlen Hp. unfold encode_node, bind, lift_opt.
  destruct (mapM row_max edges) as [edge_max|]; simpl; [| discriminate].
  destruct (snd <$> topk edge_max 2) as [tk|]; simpl; [| discriminate].
  apply (for_enumerate_inv (fun f => loop_free (edge_to_index f))); [| exact Hp].
  intros n x t f t' f' Hx Hf Hrun.
  apply (encode_edge_loop_free i tk (0 + n) x t f t' f'); [| exact Hf | exact Hrun].
  apply lookup_lt_Some in Hx. lia.
Qed.

Lemma update_states_paired e e' :
  update_states e = Ok tt e' -> paired (edge_to_index e').
Proof.
  intros H. apply update_states_inv in H as (_ & s & Hloop).
  revert Hloop. apply (for_enumerate_inv (fun f => paired (edge_to_index f))).
  - intros n x t f t' f' Hx Hf Hrun.
    exact (encode_node_paired (0 + n) x t f t' f' Hf Hrun).
  - unfold encoder_start, clear_tables. destruct e; simpl. apply paired_empty.
Qed.

Lemma update_states_loop_free e e' :
  incoming_from_earlier (normalized_alphas e') ->
  update_states e = Ok tt e' ->
  loop_free (edge_to_index e').
Proof.
  intros Hshape H.
  destruct (update_states_normalized e e' H) as (Hn & _).
  apply update_states_inv in H as (_ & s & Hloop).
  revert Hloop. apply (for_enumerate_inv (fun f => loop_free (edge_to_index f))).
  - intros n x t f t' f' Hx Hf Hrun.
    apply (encode_node_loop_free (0 + n) x t f t' f'); [| exact Hf | exact Hrun].
    apply (Hshape n). now rewrite Hn.
  - unfold encoder_start, clear_tables. destruct e; simpl.
    intros a. apply lookup_empty.
Qed.

(** ** The rebuild succeeds on a well-shaped cell *)

Lemma keep_other_indices_all (l : list (R * nat)) (i : nat) :
  ~ In i (map snd l) ->
  filter (fun x => negb (snd x =? i)) l = l.
Proof.
  induction l as [|x l IH]; intros Hi; [reflexivity |].
  rewrite filter_cons. simpl in Hi.
  destruct (decide _) as [_ | Hx].
  - f_equal. apply IH. tauto.
  - exfalso. apply Hx. destruct (Nat.eqb_spec (snd x) i); [tauto | exact I].
Qed.

Lemma keep_other_indices (l : list (R * nat)) (i : nat) :
  NoDup (map snd l) ->
  length l <= S (length (filter (fun x => negb (snd x =? i)) l)) /\
  NoDup (map snd (filter (fun x => negb (snd x =? i)) l)).
Proof.
  induction l as [|x l IH]; intros Hnd.
  - split; [simpl; lia | constructor].
  - simpl in Hnd. apply NoDup_cons in Hnd as [Hx Hnd].
    rewrite filter_cons. destruct (decide _) as [Hk | Hk].
    + destruct (IH Hnd) as [Hlen Hnd']. split; [simpl; lia |].
      simpl. apply NoDup_cons. split; [| exact Hnd'].
      intros Hin. apply Hx. apply list_elem_of_In in Hin. apply list_elem_of_In.
      apply in_map_iff in Hin as (y & Hy & Hin). apply in_map_iff.
      exists y. split; [exact Hy |].
      apply list_elem_of_In. apply list_elem_of_In in Hin.
      now apply list_elem_of_filter in Hin as [_ Hin].
    + assert (Hxi : snd x = i).
      { destruct (Nat.eqb_spec (snd x) i); [assumption | exfalso; apply Hk; exact I]. }
      rewrite keep_other_indices_all.
      * split; [simpl; lia | exact Hnd].
      * rewrite <- Hxi. intros Hin. apply Hx. now apply list_elem_of_In.
Qed.

Lemma topk_pairs_total (k : nat) :
  forall l, k <= length l -> NoDup (map snd l) -> is_Some (topk_pairs k l).
Proof.
  induction k as [|k IH]; intros l Hlen Hnd; [simpl; eauto |].
  destruct l as [|p l]; [simpl in Hlen; lia |].
  cbn [topk_pairs].
  set (m := fold_left better l p).
  destruct (keep_other_indices (p :: l) (snd m) Hnd) as [Hl Hnd'].
  destruct (IH (filter (fun x => negb (snd x =? snd m)) (p :: l))) as [rest Hrest].
  - simpl in Hlen. simpl in Hl. lia.
  - exact Hnd'.
  - rewrite Hrest. eauto.
Qed.

Lemma snd_enumerate {T} (l : list T) : map snd (enumerate l) = seq 0 (length l).
Proof.
  unfold enumerate. generalize 0.
  induction l as [|x l IH]; intros n; [reflexivity |].
  simpl. now rewrite IH.
Qed.

Lemma length_enumerate {T} (l : list T) : length (enumerate l) = length l.
Proof. unfold enumerate. rewrite length_combine, length_seq. lia. Qed.

Lemma topk_total (v : list R) (k : nat) : k <= length v -> is_Some (topk v k).
Proof.
  intros Hk. unfold topk.
  destruct (topk_pairs_total k (enumerate v)) as [ps Hps].
  - now rewrite length_enumerate.
  - rewrite snd_enumerate. apply NoDup_seq.
  - rewrite Hps. eauto.
Qed.

Lemma row_max_total (edge : list R) : edge <> [] -> is_Some (row_max edge).
Proof.
  destruct edge as [|x edge]; [congruence | intros _].
  unfold row_max, topk, enumerate. simpl. eauto.
Qed.

Lemma length_mapM {T U} (f : T -> option U) (l : list T) (r : list U) :
  mapM f l = Some r -> length r = length l.
Proof.
  revert r. induction l as [|x l IH]; intros r H; simpl in H.
  - injection H as <-. reflexivity.
  - destruct (f x) as [y|]; simpl in H; [| discriminate].
    destruct (mapM f l) as [ys|]; simpl in H; [| discriminate].
    injection H as <-. simpl. f_equal. now apply IH.
Qed.

Lemma for_enumerate_total {T St} (I : NasEnv -> Prop) (l : list T)
    (body : nat -> T -> St -> M St) :
  forall k0,
    (forall n x s f, l !! n = Some x -> I f ->
        exists s' f', body (k0 + n) x s f = Ok s' f' /\ I f') ->
    forall s f, I f -> exists s' f', for_enumerate l k0 body s f = Ok s' f' /\ I f'.
Proof.
  induction l as [|x l IH]; intros k0 Hb s f HI; simpl.
  - exists s, f. split; [reflexivity | exact HI].
  - destruct (Hb 0 x s f eq_refl HI) as (s1 & f1 & Hrun & HI1).
    rewrite Nat.add_0_r in Hrun. unfold bind. rewrite Hrun.
    apply (IH (S k0)); [| exact HI1].
    intros n y t g Hy Hg.
    destruct (Hb (S n) y t g Hy Hg) as (t' & g' & Hrun' & Hg').
    exists t', g'. split; [| exact Hg'].
    now replace (S k0 + n) with (k0 + S n) by lia.
Qed.

Lemma encode_edge_total i tk j edge s e :
  i + 2 < length (A e) -> j < length (A e) ->
  exists s' e', encode_edge i tk j edge s e = Ok s' e' /\ A e' = A e.
Proof.
  intros Hi Hj.
  destruct (lookup_lt_is_Some_2 (A e) (i + 2) Hi) as [A_to Hto].
  destruct (lookup_lt_is_Some_2 (A e) j Hj) as [A_from Hfrom].
  unfold encode_edge, update_edge_to_index, update_edge_to_alpha, update_states_attr.
  destruct e; simpl in *. run_monad. rewrite Hto. simpl. rewrite Hfrom. simpl. eauto.
Qed.

Lemma encode_node_total n_nodes i edges s e :
  2 <= length edges <= i + 2 -> i + 2 < n_nodes ->
  Forall (fun edge => edge <> []) edges ->
  length (A e) = n_nodes ->
  exists s' e', encode_node i edges s e = Ok s' e' /\ length (A e') = n_nodes.
Proof.
  intros Hlen Hi Hne HA. unfold encode_node, bind, lift_opt.
  destruct (mapM_is_Some_2 row_max edges) as [edge_max Hmax].
  { eapply Forall_impl; [exact Hne |]. intros edge He. now apply row_max_total. }
  rewrite Hmax. simpl.
  destruct (topk_total edge_max 2) as [[vals tk] Htk].
  { rewrite (length_mapM _ _ _ Hmax). lia. }
  rewrite Htk. simpl.
  apply (for_enumerate_total (fun f => length (A f) = n_nodes)); [| exact HA].
  intros n x t f Hx Hf. apply lookup_lt_Some in Hx.
  destruct (encode_edge_total i tk (0 + n) x t f) as (t' & f' & Hrun & HA');
    [lia | simpl; lia |].
  exists t', f'. split; [exact Hrun | congruence].
Qed.

Lemma update_states_total e :
  (cell_type e = "normal" \/ cell_type e = "reduce")%string ->
  well_shaped (length (A e)) (selected_alpha e) ->
  exists e', update_states e = Ok tt e'.
Proof.
  intros Hc Hshape.
  assert (Hloop : exists s e',
    for_enumerate (map (map softmax) (selected_alpha e)) 0 encode_node 0
      (encoder_start (selected_alpha e) e) = Ok s e' /\ length (A e') = length (A e)).
  { apply (for_enumerate_total (fun f => length (A f) = length (A e))).
    - intros n x s f Hx Hf. simpl.
      rewrite list_lookup_fmap in Hx.
      destruct (selected_alpha e !! n) as [edges|] eqn:Hn; [| discriminate].
      injection Hx as <-.
      destruct (Hshape n edges Hn) as (Hlen & Hi & Hne).
      apply encode_node_total; [now rewrite length_map | exact Hi | | exact Hf].
      apply Forall_fmap. eapply Forall_impl; [exact Hne |].
      intros edge He. simpl. unfold softmax. destruct edge; [congruence | discriminate].
    - unfold encoder_start, clear_tables. destruct e; reflexivity. }
  destruct Hloop as (s & e' & Hloop & _). exists e'.
  rewrite update_states_unfold. unfold selected_alpha in Hloop.
  destruct Hc as [Hc | Hc]; rewrite Hc in *; simpl in *;
    unfold bind; rewrite Hloop; reflexivity.
Qed.

(** ** Clamping *)

Section Clamping.
Local Open Scope R_scope.

Lemma clamp_increase_cap (x prob : R) :
  x + prob > 1 -> x + clamp_increase x prob = 0.99.
Proof.
  intros H. unfold clamp_increase. destruct (Rgt_dec (x + prob) 1); [simpl; lra | contradiction].
Qed.

Lemma clamp_increase_id (x prob : R) :
  ~ x + prob > 1 -> clamp_increase x prob = prob.
Proof.
  intros H. unfold clamp_increase. destruct (Rgt_dec (x + prob) 1); [contradiction | reflexivity].
Qed.

Lemma clamp_decrease_floor (x prob : R) :
  x - prob < 0 -> x - clamp_decrease x prob = 0.01.
Proof.
  intros H. unfold clamp_decrease. destruct (Rlt_dec (x - prob) 0); [simpl; lra | contradiction].
Qed.

Lemma clamp_decrease_id (x prob : R) :
  ~ x - prob < 0 -> clamp_decrease x prob = prob.
Proof.
  intros H. unfold clamp_decrease. destruct (Rlt_dec (x - prob) 0); [contradiction | reflexivity].
Qed.

(** A clamped increase always goes through. *)
Lemma increase_op_clamped e row edge op prob node curr_edge x anode :
  normalized_alphas e !! row = Some node ->
  node !! edge = Some curr_edge ->
  curr_edge !! op = Some x ->
  alpha_normal e !! row = Some anode ->
  (edge < length anode)%nat ->
  x + prob > 1 ->
  increase_op row edge op prob e =
    Ok true (mutated e row edge node anode (add_scalar 0.01 (<[op := 0.99]> curr_edge))).
Proof.
  intros Hn He Ho Ha Hlt Hover.
  rewrite (increase_op_run e row edge op prob node curr_edge x anode) by assumption.
  rewrite (clamp_increase_cap x prob Hover).
  destruct (Rlt_dec 0.99 1) as [_ | Hn']; [reflexivity | exfalso; lra].
Qed.

(** A clamped decrease always goes through. *)
Lemma decrease_op_clamped e row edge op prob node curr_edge x anode :
  normalized_alphas e !! row = Some node ->
  node !! edge = Some curr_edge ->
  curr_edge !! op = Some x ->
  alpha_normal e !! row = Some anode ->
  (edge < length anode)%nat ->
  x - prob < 0 ->
  decrease_op row edge op prob e =
    Ok true (mutated e row edge node anode (add_scalar 0.01 (<[op := 0.01]> curr_edge))).
Proof.
  intros Hn He Ho Ha Hlt Hunder.
  rewrite (decrease_op_run e row edge op prob node curr_edge x anode) by assumption.
  rewrite (clamp_decrease_floor x prob Hunder).
  destruct (Rgt_dec 0.01 0) as [_ | Hn']; [reflexivity | exfalso; lra].
Qed.

(** The only way to get [False]: the unclamped move lands exactly on the
    bound. *)
Lemma increase_op_false e row edge op prob node curr_edge x anode :
  normalized_alphas e !! row = Some node ->
  node !! edge = Some curr_edge ->
  curr_edge !! op = Some x ->
  alpha_normal e !! row = Some anode ->
  (edge < length anode)%nat ->
  (increase_op row edge op prob e = Ok false e <-> x + prob = 1).
Proof.
  intros Hn He Ho Ha Hlt.
  rewrite (increase_op_run e row edge op prob node curr_edge x anode) by assumption.
  unfold clamp_increase. destruct (Rgt_dec (x + prob) 1) as [Hgt | Hngt]; simpl.
  - destruct (Rlt_dec _ _) as [_ | Hn']; [| exfalso; lra].
    split; [discriminate | lra].
  - destruct (Rlt_dec _ _) as [Hlt1 | Hnlt]; [split; [discriminate | lra] |].
    split; [lra | reflexivity].
Qed.

Lemma decrease_op_false e row edge op prob node curr_edge x anode :
  normalized_alphas e !! row = Some node ->
  node !! edge = Some curr_edge ->
  curr_edge !! op = Some x ->
  alpha_normal e !! row = Some anode ->
  (edge < length anode)%nat ->
  (decrease_op row edge op prob e = Ok false e <-> x - prob = 0).
Proof.
  intros Hn He Ho Ha Hlt.
  rewrite (decrease_op_run e row edge op prob node curr_edge x anode) by assumption.
  unfold clamp_decrease. destruct (Rlt_dec (x - prob) 0) as [Hlt0 | Hnlt]; simpl.
  - destruct (Rgt_dec _ _) as [_ | Hn']; [| exfalso; lra].
    split; [discriminate | lra].
  - destruct (Rgt_dec _ _) as [Hgt | Hngt]; [split; [discriminate | lra] |].
    split; [lra | reflexivity].
Qed.

End Clamping.

Lemma mutated_alpha_normal e row edge node anode new :
  alpha_normal (mutated e row edge node anode new)
  = <[row := <[edge := _inverse_softmax new C_log10]> anode]> (alpha_normal e).
Proof. destruct e; reflexivity. Qed.


Lemma mutated_cell_type e row edge node anode new :
  cell_type (mutated e row edge node anode new) = cell_type e.
Proof. destruct e; reflexivity. Qed.

Lemma mutated_raw_row e row edge node anode new :
  alpha_normal e !! row = Some anode -> edge < length anode ->
  alpha_normal (mutated e row edge node anode new) !! row
    = Some (<[edge := _inverse_softmax new C_log10]> anode) /\
  <[edge := _inverse_softmax new C_log10]> anode !! edge
    = Some (_inverse_softmax new C_log10).
Proof.
  intros Ha Hlt. rewrite mutated_alpha_normal. split.
  - apply list_lookup_insert_eq. eapply lookup_lt_Some; eauto.
  - now apply list_lookup_insert_eq.
Qed.

(** The row the next rebuild computes for a mutated edge. *)
Lemma rebuilt_row e row edge node anode new e2 :
  cell_type e = "normal"%string ->
  alpha_normal e !! row = Some anode -> edge < length anode ->
  update_states (mutated e row edge node anode new) = Ok tt e2 ->
  edge_at (normalized_alphas e2) row edge
    = Some (softmax (_inverse_softmax new C_log10)).
Proof.
  intros Hc Ha Hlt H.
  destruct (update_states_normalized _ _ H) as (Hn & _).
  rewrite Hn. unfold selected_alpha. rewrite mutated_cell_type, Hc. simpl.
  destruct (mutated_raw_row e row edge node anode new Ha Hlt) as [Hrow Hedge].
  unfold edge_at. rewrite list_lookup_fmap, Hrow. simpl.
  rewrite list_lookup_fmap, Hedge. reflexivity.
Qed.

(* ================================================================= *)
(** * The claims *)

Section Claims.
Local Open Scope R_scope.

(** C1, as the code behaves.  On a cached normalized weight of exactly 0.0,
    [decrease_op] with the default amount 0.3 is not a no-op: the amount is
    clamped to -0.01, the targeted value becomes 0.01, every entry of the
    row then receives the floor 0.01, the raw row is overwritten with
    [ln(row) + ln(10)] and the call returns [True]. *)
Theorem decrease_op_at_zero e row edge op node curr_edge anode :
  normalized_alphas e !! row = Some node ->
  node !! edge = Some curr_edge ->
  curr_edge !! op = Some 0 ->
  alpha_normal e !! row = Some anode ->
  (edge < length anode)%nat ->
  decrease_op row edge op 0.3 e =
    Ok true (mutated e row edge node anode (add_scalar 0.01 (<[op := 0.01]> curr_edge))).
Proof.
  intros Hn He Ho Ha Hlt.
  apply (decrease_op_clamped e row edge op 0.3 node curr_edge 0 anode); auto. lra.
Qed.

Lemma decrease_op_at_zero_witness :
  decrease_op 0 0 1 0.3 env_zero_weight =
    Ok true (mutated env_zero_weight 0 0
               [[1; 0; 0]; [1/3; 1/3; 1/3]] [[0; -200; -200]; [0; 0; 0]]
               (add_scalar 0.01 (<[1%nat := 0.01]> [1; 0; 0]))).
Proof.
  apply (decrease_op_at_zero env_zero_weight 0 0 1
           [[1; 0; 0]; [1/3; 1/3; 1/3]] [1; 0; 0] [[0; -200; -200]; [0; 0; 0]]);
    try reflexivity.
  simpl. lia.
Defined.

(** C1 as stated fails: at a weight of 0.0 the call returns [True] and both
    the cached view and the raw row change. *)
Lemma decrease_op_at_zero_counterexample :
  weight_at (normalized_alphas env_zero_weight) 0 0 1 = Some 0 /\
  exists e',
    decrease_op 0 0 1 0.3 env_zero_weight = Ok true e' /\
    normalized_alphas e' <> normalized_alphas env_zero_weight /\
    alpha_normal e' <> alpha_normal env_zero_weight.
Proof.
  split; [reflexivity |].
  eexists. split; [| split].
  - apply (decrease_op_clamped env_zero_weight 0 0 1 0.3
             [[1; 0; 0]; [1/3; 1/3; 1/3]] [1; 0; 0] 0 [[0; -200; -200]; [0; 0; 0]]);
      try reflexivity; [simpl; lia | lra].
  - simpl. intros H. injection H as H. lra.
  - simpl. intros H. injection H as H _ _.
    assert (0 < ln (1 + 0.01)) by (rewrite <- ln_1; apply ln_increasing; lra).
    assert (0 < ln 10) by (rewrite <- ln_1; apply ln_increasing; lra).
    unfold C_log10 in H. lra.
Qed.

(** C2, as the code behaves.  Whenever the targeted normalized weight plus
    the requested amount exceeds 1.0, [increase_op] clamps the amount to
    [0.99 - x]; the targeted value becomes 0.99, every entry of the row
    then receives the floor 0.01, the raw row is overwritten with
    [ln(row) + ln(10)] and the call returns [True].  At [x = 0.99] and
    amount 0.3 the clamped amount is 0 and the call still writes back and
    returns [True]. *)
Theorem increase_op_clamps e row edge op prob node curr_edge x anode :
  normalized_alphas e !! row = Some node ->
  node !! edge = Some curr_edge ->
  curr_edge !! op = Some x ->
  alpha_normal e !! row = Some anode ->
  (edge < length anode)%nat ->
  x + prob > 1 ->
  clamp_increase x prob = 0.99 - x /\
  (x = 0.99 -> clamp_increase x prob = 0) /\
  increase_op row edge op prob e =
    Ok true (mutated e row edge node anode (add_scalar 0.01 (<[op := 0.99]> curr_edge))).
Proof.
  intros Hn He Ho Ha Hlt Hover.
  pose proof (clamp_increase_cap x prob Hover) as Hcap.
  split; [lra | split; [intros ->; lra |]].
  now apply (increase_op_clamped e row edge op prob node curr_edge x anode).
Qed.

Lemma increase_op_clamps_witness :
  0.99 + 0.3 > 1 /\
  clamp_increase 0.99 0.3 = 0.99 - 0.99 /\
  (0.99 = 0.99 -> clamp_increase 0.99 0.3 = 0) /\
  increase_op 0 0 0 0.3 env_saturated =
    Ok true (mutated env_saturated 0 0
               [[0.99; 0.005; 0.005]; [1/3; 1/3; 1/3]]
               [[ln 0.99; ln 0.005; ln 0.005]; [0; 0; 0]]
               (add_scalar 0.01 (<[0%nat := 0.99]> [0.99; 0.005; 0.005]))).
Proof.
  split; [lra |].
  apply (increase_op_clamps env_saturated 0 0 0 0.3
           [[0.99; 0.005; 0.005]; [1/3; 1/3; 1/3]] [0.99; 0.005; 0.005] 0.99
           [[ln 0.99; ln 0.005; ln 0.005]; [0; 0; 0]]);
    try reflexivity; [simpl; lia | lra].
Defined.

(** C2 as stated fails: at a weight of 0.99 and amount 0.3 the fully
    clamped call does not return [False]; it returns [True], the cached
    targeted value reaches 1.0 and the raw row is rewritten. *)
Lemma increase_op_saturated_counterexample :
  weight_at (normalized_alphas env_saturated) 0 0 0 = Some 0.99 /\
  increase_op 0 0 0 0.3 env_saturated <> Ok false env_saturated /\
  exists e',
    increase_op 0 0 0 0.3 env_saturated = Ok true e' /\
    weight_at (normalized_alphas e') 0 0 0 = Some (0.99 + 0.01) /\
    alpha_normal e' <> alpha_normal env_saturated.
Proof.
  assert (Hrun : increase_op 0 0 0 0.3 env_saturated =
    Ok true (mutated env_saturated 0 0
               [[0.99; 0.005; 0.005]; [1/3; 1/3; 1/3]]
               [[ln 0.99; ln 0.005; ln 0.005]; [0; 0; 0]]
               (add_scalar 0.01 (<[0%nat := 0.99]> [0.99; 0.005; 0.005])))).
  { apply (increase_op_clamped env_saturated 0 0 0 0.3
             [[0.99; 0.005; 0.005]; [1/3; 1/3; 1/3]] [0.99; 0.005; 0.005] 0.99
             [[ln 0.99; ln 0.005; ln 0.005]; [0; 0; 0]]);
      try reflexivity; [simpl; lia | lra]. }
  split; [reflexivity |]. split; [rewrite Hrun; discriminate |].
  eexists. split; [exact Hrun |]. split; [reflexivity |].
  simpl. intros H. injection H as H _ _.
  assert (ln 0.99 < ln (0.99 + 0.01)) by (apply ln_increasing; lra).
  assert (0 < ln 10) by (rewrite <- ln_1; apply ln_increasing; lra).
  unfold C_log10 in H. lra.
Qed.

(** C3.  For a baseline [b] and an accuracy [a] in [0, 1], [scale_reward]
    returns exactly 0 when [a = b], [0 + (a - b) * (4 - 0) / (1 - b)], a
    value in (0, 4], when [a > b], and [-0.1 + (a - 0) * (0 - -0.1) / (b - 0)],
    a value in [-0.1, 0), when [a < b]; a baseline of 0.5 and an accuracy of
    0.75 give exactly 2. *)
Theorem scale_reward_segments (b a : R) :
  0 <= b <= 1 -> 0 <= a <= 1 ->
  (a = b -> scale_reward b a = 0) /\
  (a > b -> scale_reward b a = 0 + (a - b) * (4 - 0) / (1 - b)
            /\ 0 < scale_reward b a <= 4) /\
  (a < b -> scale_reward b a = -0.1 + (a - 0) * (0 - -0.1) / (b - 0)
            /\ -0.1 <= scale_reward b a < 0) /\
  scale_reward 0.5 0.75 = 2.
Proof.
  intros Hb Ha. split; [| split; [| split]].
  - intros ->. unfold scale_reward. destruct (Req_dec_T b b); [reflexivity | congruence].
  - intros Hgt. unfold scale_reward.
    destruct (Req_dec_T b a); [lra |]. destruct (Rle_dec b a); [| lra].
    split; [reflexivity |]. rewrite Rplus_0_l. unfold Rdiv. split.
    + apply Rmult_lt_0_compat; [lra | apply Rinv_0_lt_compat; lra].
    + apply (Rmult_le_reg_r (1 - b)); [lra |].
      rewrite Rmult_assoc, Rinv_l by lra. lra.
  - intros Hlt. unfold scale_reward.
    destruct (Req_dec_T b a); [lra |]. destruct (Rle_dec b a); [lra |].
    destruct (Rge_dec b a); [| lra].
    split; [reflexivity |]. unfold Rdiv. split.
    + assert (0 <= (a - 0) * (0 - -0.1) * / (b - 0)); [| lra].
      apply Rmult_le_pos; [| apply Rlt_le, Rinv_0_lt_compat; lra].
      apply Rmult_le_pos; lra.
    + assert ((a - 0) * (0 - -0.1) * / (b - 0) < 0.1); [| lra].
      apply (Rmult_lt_reg_r (b - 0)); [lra |].
      rewrite Rmult_assoc, Rinv_l by lra. lra.
  - unfold scale_reward.
    destruct (Req_dec_T 0.5 0.75); [lra |]. destruct (Rle_dec 0.5 0.75); [| lra].
    lra.
Qed.

Lemma scale_reward_segments_witness :
  (0.75 = 0.5 -> scale_reward 0.5 0.75 = 0) /\
  (0.75 > 0.5 -> scale_reward 0.5 0.75 = 0 + (0.75 - 0.5) * (4 - 0) / (1 - 0.5)
                 /\ 0 < scale_reward 0.5 0.75 <= 4) /\
  (0.75 < 0.5 -> scale_reward 0.5 0.75 = -0.1 + (0.75 - 0) * (0 - -0.1) / (0.5 - 0)
                 /\ -0.1 <= scale_reward 0.5 0.75 < 0) /\
  scale_reward 0.5 0.75 = 2.
Proof. apply (scale_reward_segments 0.5 0.75); lra. Defined.

(** In test mode [compute_reward] hands back the bare draw. *)
Lemma compute_reward_test_mode (o : oracle) (e : NasEnv) :
  test_env e <> PyNone ->
  compute_reward o e = Ok (RetScalar (uniform_draw o)) e.
Proof.
  intros Ht. unfold compute_reward. run_monad.
  destruct (test_env e); [congruence | reflexivity | reflexivity].
Qed.

(** Outside test mode, with a task set, a training-based estimator that
    runs through and no zero denominator, it hands back the pair of the
    scaled reward and the accuracy. *)
Lemma compute_reward_darts (o : oracle) (e : NasEnv) (task : nat) :
  test_env e = PyNone -> reward_estimation e = false ->
  current_task e = Some task -> estimator_raises o = None ->
  scale_reward_raises (baseline_acc e) (estimated_acc o) = false ->
  compute_reward o e
  = Ok (RetPair (scale_reward (baseline_acc e) (estimated_acc o)) (estimated_acc o)) e.
Proof.
  intros Ht Hr Hc Ho Hz.
  unfold compute_reward, _darts_estimation, run_estimator. run_monad.
  rewrite Ht, Hr, Hc, Ho. simpl. rewrite Hz. reflexivity.
Qed.

(** No denominator is zero for a baseline and an accuracy in [0, 1]. *)
Lemma scale_reward_raises_unit (b a : R) :
  0 <= b <= 1 -> 0 <= a <= 1 -> scale_reward_raises b a = false.
Proof.
  intros Hb Ha. unfold scale_reward_raises.
  destruct (Req_dec_T b a); [reflexivity |].
  destruct (Rle_dec b a).
  - destruct (Req_dec_T (1 - b) 0); [exfalso; lra | reflexivity].
  - destruct (Rge_dec b a); [| reflexivity].
    destruct (Req_dec_T (b - 0) 0); [exfalso; lra | reflexivity].
Qed.

(** C4, on the code.  With a test environment set, [compute_reward] returns
    the sampled number alone, not a pair [(reward, None)]: the unpacking
    [reward, acc = self.compute_reward()] of its callers raises
    [TypeError]. *)
Theorem compute_reward_test_mode_not_a_pair (o : oracle) :
  test_env env_test_mode = PyObject /\
  compute_reward o env_test_mode = Ok (RetScalar (uniform_draw o)) env_test_mode /\
  (v <- compute_reward o ;; unpack2 v) env_test_mode = Raise TypeError env_test_mode.
Proof. repeat split. Qed.

(** With [test_env=False] and no task the assertion of [reset] fires and
    nothing has been assigned. *)
Lemma reset_assertion (o : oracle) (e : NasEnv) :
  current_task e = None -> test_env e = PyBool false ->
  reset o e = Raise AssertionError e.
Proof.
  intros Hc Ht. unfold reset. run_monad. rewrite Hc, Ht. reflexivity.
Qed.

(** C5, on the code.  An environment constructed with the default
    [test_env=None] and never given a task passes the assertion of [reset]:
    the step counter and the termination flag are reset before the call
    fails on the missing [meta_state] attribute. *)
Theorem reset_without_task_default_test_env (o : oracle) :
  current_task env_no_task = None /\
  test_env env_no_task = PyNone /\
  step_count env_no_task = 3%nat /\
  reset o env_no_task
  = Raise AttributeError (set_terminate_episode false (set_step_count 0 env_no_task)) /\
  step_count (set_terminate_episode false (set_step_count 0 env_no_task)) = 0%nat.
Proof. repeat split. Qed.

Lemma in_arange_below (lo hi x : nat) : (x < lo)%nat -> in_arange lo hi x = false.
Proof.
  intros H. unfold in_arange. destruct (Nat.leb_spec lo x); [lia | reflexivity].
Qed.

(** C8.  With the termination flag unset, a traversal action whose target
    is not adjacent to the current edge's [to_node] raises nothing, yields
    the reward -0.1, leaves the current edge and observation (and every
    attribute but the step counter) as they were, and reports [done]
    exactly when the incremented step count equals [max_ep_len]. *)
Theorem step_illegal_traversal (o : oracle) (e : NasEnv) (action : nat)
    (A_next : list nat) :
  terminate_episode e = false ->
  (action < length (A e))%nat ->
  A e !! obs_to (current_state e) = Some A_next ->
  A_next !! action = Some 0%nat ->
  step o action e =
    Ok (current_state e, -0.1,
        (step_count e + 1 =? max_ep_len e)%nat,
        mkInfo (step_count e + 1) action
          (IllegalMove (obs_from (current_state e)) action) None (elapsed_seconds o))
       (set_step_count (step_count e + 1) e).
Proof.
  intros Hterm Hact Hrow Hzero.
  unfold step, _perform_action, traverse_branch, mutate_branch, terminate_branch,
    record_best.
  destruct e; simpl in *. run_monad.
  unfold in_arange at 1. simpl.
  destruct (Nat.ltb_spec action (length A0)) as [_ | Hge]; [| lia].
  rewrite Hrow. simpl. rewrite Hzero. simpl.
  rewrite !in_arange_below by lia. simpl.
  rewrite in_arange_below by lia. simpl.
  rewrite Hterm. destruct (step_count0 + 1 =? max_ep_len0)%nat; reflexivity.
Qed.

Lemma step_illegal_traversal_witness :
  terminate_episode env_balanced = false /\
  A env_balanced !! obs_to (current_state env_balanced) = Some [1; 1; 0]%nat /\
  step oracle0 2 env_balanced =
    Ok (current_state env_balanced, -0.1,
        (step_count env_balanced + 1 =? max_ep_len env_balanced)%nat,
        mkInfo (step_count env_balanced + 1) 2
          (IllegalMove (obs_from (current_state env_balanced)) 2) None
          (elapsed_seconds oracle0))
       (set_step_count (step_count env_balanced + 1) env_balanced).
Proof.
  split; [reflexivity |]. split; [reflexivity |].
  apply (step_illegal_traversal oracle0 env_balanced 2 [1; 1; 0]%nat);
    try reflexivity.
  simpl. lia.
Defined.

Lemma inverse_softmax_nonempty (x : list R) (C : R) :
  x <> [] -> _inverse_softmax x C <> [].
Proof. destruct x; [congruence | discriminate]. Qed.

Lemma mutation_row_nonempty (curr_edge : list R) (op : nat) (x y c : R) :
  curr_edge !! op = Some x -> add_scalar c (<[op := y]> curr_edge) <> [].
Proof.
  intros Ho Hnil. apply (f_equal (@length R)) in Hnil.
  unfold add_scalar in Hnil. rewrite length_map, length_insert in Hnil.
  apply lookup_lt_Some in Ho. simpl in Hnil. lia.
Qed.

(** What both operators leave behind when they report success. *)
Lemma mutation_succeeded e e1 row edge op prob :
  increase_op row edge op prob e = Ok true e1 \/
  decrease_op row edge op prob e = Ok true e1 ->
  exists node anode new,
    alpha_normal e !! row = Some anode /\ (edge < length anode)%nat /\
    new <> [] /\ e1 = mutated e row edge node anode new.
Proof.
  intros [H | H].
  - apply increase_op_inv in H as (node & curr_edge & x & anode & _ & _ & Ho & Ha & Hlt & _ & ->).
    exists node, anode, (add_scalar 0.01 (<[op := x + clamp_increase x prob]> curr_edge)).
    repeat split; try assumption. eapply mutation_row_nonempty; eauto.
  - apply decrease_op_inv in H as (node & curr_edge & x & anode & _ & _ & Ho & Ha & Hlt & _ & ->).
    exists node, anode, (add_scalar 0.01 (<[op := x - clamp_decrease x prob]> curr_edge)).
    repeat split; try assumption. eapply mutation_row_nonempty; eauto.
Qed.

(** C7.  After a rebuild, every directed edge [(a, b)] of [edge_to_index]
    between two different nodes has its reverse [(b, a)] in the mapping, and
    the two indices are distinct and differ by exactly 1; when every node
    takes its incoming edges from earlier nodes, as in a cell, every key of
    the mapping joins two different nodes, so this holds for every directed
    edge present in the mapping. *)
Theorem edge_to_index_adjacent e e' :
  update_states e = Ok tt e' ->
  (forall a b v, a <> b -> edge_to_index e' !! (a, b) = Some v ->
     exists w, edge_to_index e' !! (b, a) = Some w /\ v <> w /\
               (w = v + 1 \/ v = w + 1)%nat) /\
  (incoming_from_earlier (normalized_alphas e') ->
   forall a b v, edge_to_index e' !! (a, b) = Some v ->
     a <> b /\
     exists w, edge_to_index e' !! (b, a) = Some w /\ v <> w /\
               (w = v + 1 \/ v = w + 1)%nat).
Proof.
  intros H.
  assert (Hpair : forall a b v, a <> b -> edge_to_index e' !! (a, b) = Some v ->
     exists w, edge_to_index e' !! (b, a) = Some w /\ v <> w /\
               (w = v + 1 \/ v = w + 1)%nat).
  { intros a b v Hab Hv.
    destruct (update_states_paired e e' H a b v Hab Hv) as (w & Hw & Hadj).
    exists w. split; [exact Hw |]. split; [lia | exact Hadj]. }
  split; [exact Hpair |].
  intros Hshape a b v Hv.
  assert (Hab : a <> b).
  { intros ->. rewrite (update_states_loop_free e e' Hshape H b) in Hv. discriminate. }
  split; [exact Hab | now apply Hpair].
Qed.

(** C9.  A rebuild that follows a rebuild with no mutation in between
    succeeds and returns the very same environment: the state table,
    [edge_to_index] and [edge_to_alpha] are identical. *)
Theorem update_states_twice e e1 :
  update_states e = Ok tt e1 ->
  update_states e1 = Ok tt e1 /\
  forall e2, update_states e1 = Ok tt e2 ->
    states e2 = states e1 /\
    map obs_vector (states e2) = map obs_vector (states e1) /\
    edge_to_index e2 = edge_to_index e1 /\
    edge_to_alpha e2 = edge_to_alpha e1.
Proof.
  intros H. pose proof (update_states_idempotent e e1 H) as Hid.
  split; [exact Hid |].
  intros e2 H2. rewrite Hid in H2. injection H2 as <-. auto.
Qed.

Lemma in_insert {T} (l : list T) (i : nat) (y v : T) :
  In v (<[i := y]> l) -> v = y \/ In v l.
Proof.
  revert i. induction l as [|a l IH]; intros [|i] H; simpl in *; try tauto.
  - destruct H as [<- | H]; [now left | right; now right].
  - destruct H as [<- | H]; [right; now left |].
    destruct (IH i H); [now left | right; now right].
Qed.

(** The row a successful mutation leaves is strictly positive, so that its
    logarithms are defined, and sums to the old sum plus the amount plus
    the floors. *)
Lemma mutation_row (x_row : list R) (op : nat) (xk y : R) :
  x_row !! op = Some xk ->
  (forall v, In v x_row -> 0 <= v) ->
  0 <= y ->
  (forall v, In v (add_scalar 0.01 (<[op := y]> x_row)) -> 0 < v) /\
  rsum (add_scalar 0.01 (<[op := y]> x_row))
  = rsum x_row + (y - xk) + 0.01 * INR (length x_row).
Proof.
  intros Ho Hpos Hy. split.
  - intros v Hv. unfold add_scalar in Hv. apply in_map_iff in Hv as (u & <- & Hu).
    apply in_insert in Hu as [-> | Hu]; [lra |]. specialize (Hpos u Hu). lra.
  - rewrite rsum_add_scalar, length_insert, (rsum_insert x_row op xk y Ho). lra.
Qed.

Lemma clamp_increase_nonneg (xk prob : R) :
  0 <= xk -> 0 <= prob -> 0 <= xk + clamp_increase xk prob.
Proof.
  intros Hx Hp. unfold clamp_increase. destruct (Rgt_dec (xk + prob) 1); simpl; lra.
Qed.

Lemma mutated_well_shaped e row edge node anode new :
  alpha_normal e !! row = Some anode -> new <> [] ->
  well_shaped (length (A e)) (alpha_normal e) ->
  well_shaped (length (A (mutated e row edge node anode new)))
    (alpha_normal (mutated e row edge node anode new)).
Proof.
  intros Ha Hne Hshape.
  replace (A (mutated e row edge node anode new)) with (A e) by (destruct e; reflexivity).
  rewrite mutated_alpha_normal. intros i edges Hi.
  destruct (decide (i = row)) as [-> | Hir].
  - rewrite list_lookup_insert_eq in Hi by (eapply lookup_lt_Some; eauto).
    injection Hi as <-. destruct (Hshape row anode Ha) as (Hlen & Hrow & Hall).
    rewrite length_insert. repeat split; try lia.
    apply Forall_insert; [exact Hall |]. now apply inverse_softmax_nonempty.
  - rewrite list_lookup_insert_ne in Hi by congruence. now apply Hshape.
Qed.

(** A rebuild after a successful mutation of a well-shaped normal cell
    succeeds. *)
Lemma rebuild_after_mutation e row edge node anode new :
  cell_type e = "normal"%string ->
  alpha_normal e !! row = Some anode -> (edge < length anode)%nat -> new <> [] ->
  well_shaped (length (A e)) (alpha_normal e) ->
  exists e2,
    update_states (mutated e row edge node anode new) = Ok tt e2 /\
    edge_at (normalized_alphas e2) row edge = Some (softmax (_inverse_softmax new C_log10)).
Proof.
  intros Hc Ha Hlt Hne Hshape.
  destruct (update_states_total (mutated e row edge node anode new)) as [e2 H2].
  - left. now rewrite mutated_cell_type.
  - unfold selected_alpha. rewrite mutated_cell_type, Hc. simpl.
    now apply mutated_well_shaped.
  - exists e2. split; [exact H2 |]. now apply (rebuilt_row e row edge node anode new e2).
Qed.

Lemma increase_then_rebuild e e1 row edge op prob x_row :
  cell_type e = "normal"%string ->
  well_shaped (length (A e)) (alpha_normal e) ->
  edge_at (normalized_alphas e) row edge = Some x_row ->
  (forall v, In v x_row -> 0 < v) ->
  0 <= prob ->
  increase_op row edge op prob e = Ok true e1 ->
  exists xk e2,
    x_row !! op = Some xk /\
    update_states e1 = Ok tt e2 /\
    edge_at (normalized_alphas e2) row edge
    = Some (map (fun v => v / (rsum x_row + clamp_increase xk prob
                               + 0.01 * INR (length x_row)))
              (add_scalar 0.01 (<[op := xk + clamp_increase xk prob]> x_row))).
Proof.
  intros Hc Hshape Hx Hpos Hprob H.
  apply increase_op_inv in H as (node & curr_edge & xk & anode & Hn & He & Ho & Ha & Hlt & Hb & ->).
  unfold edge_at in Hx. rewrite Hn, He in Hx. injection Hx as <-.
  assert (Hnn : forall v, In v curr_edge -> 0 <= v) by (intros v Hv; apply Rlt_le; auto).
  assert (Hxk : 0 <= xk) by (apply Hnn; eapply list_elem_of_In, list_elem_of_lookup_2; eauto).
  destruct (mutation_row curr_edge op xk (xk + clamp_increase xk prob) Ho Hnn
              (clamp_increase_nonneg xk prob Hxk Hprob))
    as [Hnew Hsum].
  destruct (rebuild_after_mutation e row edge node anode
              (add_scalar 0.01 (<[op := xk + clamp_increase xk prob]> curr_edge)))
    as (e2 & H2 & Hrow); try assumption.
  { eapply mutation_row_nonempty; eauto. }
  exists xk, e2. split; [exact Ho |]. split; [exact H2 |].
  rewrite Hrow, softmax_inverse_softmax by exact Hnew.
  rewrite Hsum.
  replace (rsum curr_edge + (xk + clamp_increase xk prob - xk))
    with (rsum curr_edge + clamp_increase xk prob) by lra.
  reflexivity.
Qed.

Lemma decrease_then_rebuild e e1 row edge op prob x_row :
  cell_type e = "normal"%string ->
  well_shaped (length (A e)) (alpha_normal e) ->
  edge_at (normalized_alphas e) row edge = Some x_row ->
  (forall v, In v x_row -> 0 < v) ->
  decrease_op row edge op prob e = Ok true e1 ->
  exists xk e2,
    x_row !! op = Some xk /\
    update_states e1 = Ok tt e2 /\
    edge_at (normalized_alphas e2) row edge
    = Some (map (fun v => v / (rsum x_row - clamp_decrease xk prob
                               + 0.01 * INR (length x_row)))
              (add_scalar 0.01 (<[op := xk - clamp_decrease xk prob]> x_row))).
Proof.
  intros Hc Hshape Hx Hpos H.
  apply decrease_op_inv in H as (node & curr_edge & xk & anode & Hn & He & Ho & Ha & Hlt & Hb & ->).
  unfold edge_at in Hx. rewrite Hn, He in Hx. injection Hx as <-.
  assert (Hnn : forall v, In v curr_edge -> 0 <= v) by (intros v Hv; apply Rlt_le; auto).
  destruct (mutation_row curr_edge op xk (xk - clamp_decrease xk prob) Ho Hnn)
    as [Hnew Hsum]; [lra |].
  destruct (rebuild_after_mutation e row edge node anode
              (add_scalar 0.01 (<[op := xk - clamp_decrease xk prob]> curr_edge)))
    as (e2 & H2 & Hrow); try assumption.
  { eapply mutation_row_nonempty; eauto. }
  exists xk, e2. split; [exact Ho |]. split; [exact H2 |].
  rewrite Hrow, softmax_inverse_softmax by exact Hnew.
  rewrite Hsum.
  replace (rsum curr_edge + (xk - clamp_decrease xk prob - xk))
    with (rsum curr_edge - clamp_decrease xk prob) by lra.
  reflexivity.
Qed.

(** *** Concrete runs *)

Lemma better_same (v : R) (i j : nat) : better (v, i) (v, j) = (v, i).
Proof.
  unfold better. simpl.
  destruct (Rlt_dec v v) as [Hlt | _]; [exfalso; exact (Rlt_irrefl _ Hlt) | reflexivity].
Qed.

Lemma row_max_const3 (t : R) : row_max [t; t; t] = Some t.
Proof. unfold row_max, topk, enumerate. simpl. now rewrite !better_same. Qed.

Lemma topk_two_equal (t : R) : topk [t; t] 2 = Some ([t; t], [0; 1]%nat).
Proof.
  unfold topk, enumerate. cbn [length seq combine topk_pairs fold_left].
  rewrite !better_same. reflexivity.
Qed.

Lemma update_states_uniform : update_states env_no_task = Ok tt env_uniform_rebuilt.
Proof.
  rewrite update_states_unfold.
  change (cell_type env_no_task) with "normal"%string.
  cbn [String.eqb Ascii.eqb Bool.eqb].
  change (alpha_normal env_no_task) with raw_uniform.
  unfold raw_uniform, bind, softmax.
  cbn [map for_enumerate].
  unfold encode_node, bind, lift_opt.
  cbn [mapM]. rewrite !row_max_const3. cbn [mbind option_bind mret option_ret].
  unfold ret at 1. cbv beta iota.
  rewrite topk_two_equal. cbn [fmap option_fmap option_map snd].
  reflexivity.
Qed.

Lemma small_cell_well_shaped (r0 r1 : list R) :
  r0 <> [] -> r1 <> [] -> well_shaped 3 [[r0; r1]].
Proof.
  intros H0 H1 i edges Hi. destruct i as [|i]; [| destruct i; discriminate].
  injection Hi as <-. simpl. repeat split; try lia.
  repeat constructor; assumption.
Qed.

Lemma increase_op_balanced :
  increase_op 0 0 1 0.3 env_balanced =
    Ok true (mutated env_balanced 0 0
               [[0.5; 0.3; 0.2]; [1/3; 1/3; 1/3]]
               [[ln 0.5; ln 0.3; ln 0.2]; [0; 0; 0]]
               (add_scalar 0.01 (<[1%nat := 0.3 + clamp_increase 0.3 0.3]> [0.5; 0.3; 0.2]))).
Proof.
  rewrite (increase_op_run env_balanced 0 0 1 0.3
             [[0.5; 0.3; 0.2]; [1/3; 1/3; 1/3]] [0.5; 0.3; 0.2] 0.3
             [[ln 0.5; ln 0.3; ln 0.2]; [0; 0; 0]]);
    try reflexivity; [| simpl; lia].
  rewrite clamp_increase_id by lra.
  destruct (Rlt_dec (0.3 + 0.3) 1) as [_ | Hn]; [reflexivity | exfalso; lra].
Qed.

Lemma decrease_op_balanced :
  decrease_op 0 0 0 0.3 env_balanced =
    Ok true (mutated env_balanced 0 0
               [[0.5; 0.3; 0.2]; [1/3; 1/3; 1/3]]
               [[ln 0.5; ln 0.3; ln 0.2]; [0; 0; 0]]
               (add_scalar 0.01 (<[0%nat := 0.5 - clamp_decrease 0.5 0.3]> [0.5; 0.3; 0.2]))).
Proof.
  rewrite (decrease_op_run env_balanced 0 0 0 0.3
             [[0.5; 0.3; 0.2]; [1/3; 1/3; 1/3]] [0.5; 0.3; 0.2] 0.5
             [[ln 0.5; ln 0.3; ln 0.2]; [0; 0; 0]]);
    try reflexivity; [| simpl; lia].
  rewrite clamp_decrease_id by lra.
  destruct (Rgt_dec (0.5 - 0.3) 0) as [_ | Hn]; [reflexivity | exfalso; lra].
Qed.

Lemma balanced_row_positive (v : R) : In v [0.5; 0.3; 0.2] -> 0 < v.
Proof. simpl. intros [<- | [<- | [<- | []]]]; lra. Qed.






Lemma edge_to_index_adjacent_witness :
  update_states env_no_task = Ok tt env_uniform_rebuilt /\
  (forall a b v, a <> b -> edge_to_index env_uniform_rebuilt !! (a, b) = Some v ->
     exists w, edge_to_index env_uniform_rebuilt !! (b, a) = Some w /\ v <> w /\
               (w = v + 1 \/ v = w + 1)%nat) /\
  (incoming_from_earlier (normalized_alphas env_uniform_rebuilt) ->
   forall a b v, edge_to_index env_uniform_rebuilt !! (a, b) = Some v ->
     a <> b /\
     exists w, edge_to_index env_uniform_rebuilt !! (b, a) = Some w /\ v <> w /\
               (w = v + 1 \/ v = w + 1)%nat).
Proof.
  split; [exact update_states_uniform |].
  exact (edge_to_index_adjacent env_no_task env_uniform_rebuilt update_states_uniform).
Defined.

Lemma update_states_twice_witness :
  update_states env_no_task = Ok tt env_uniform_rebuilt /\
  update_states env_uniform_rebuilt = Ok tt env_uniform_rebuilt /\
  forall e2, update_states env_uniform_rebuilt = Ok tt e2 ->
    states e2 = states env_uniform_rebuilt /\
    map obs_vector (states e2) = map obs_vector (states env_uniform_rebuilt) /\
    edge_to_index e2 = edge_to_index env_uniform_rebuilt /\
    edge_to_alpha e2 = edge_to_alpha env_uniform_rebuilt.
Proof.
  split; [exact update_states_uniform |].
  apply (update_states_twice env_no_task env_uniform_rebuilt update_states_uniform).
Defined.

(** C10.  For a strictly positive row [x] and any constant [C],
    [softmax (ln x + C) = x / sum x]; hence, on a well-shaped normal cell, a
    successful increase (decrease) of operation [k] by the clamped amount
    [p] followed by the rebuild leaves the normalized row
    [(x + p e_k + 0.01) / (sum x + p + 0.01 n)] (with [-p] for a decrease),
    whatever the constant. *)
Theorem rebuilt_row_after_mutation :
  (forall (x : list R) (C : R),
     (forall v, In v x -> 0 < v) ->
     softmax (_inverse_softmax x C) = map (fun v => v / rsum x) x) /\
  (forall e e1 row edge op prob x_row,
     cell_type e = "normal"%string ->
     well_shaped (length (A e)) (alpha_normal e) ->
     edge_at (normalized_alphas e) row edge = Some x_row ->
     (forall v, In v x_row -> 0 < v) ->
     0 <= prob ->
     increase_op row edge op prob e = Ok true e1 ->
     exists xk e2,
       x_row !! op = Some xk /\
       update_states e1 = Ok tt e2 /\
       edge_at (normalized_alphas e2) row edge
       = Some (map (fun v => v / (rsum x_row + clamp_increase xk prob
                                  + 0.01 * INR (length x_row)))
                 (add_scalar 0.01 (<[op := xk + clamp_increase xk prob]> x_row)))) /\
  (forall e e1 row edge op prob x_row,
     cell_type e = "normal"%string ->
     well_shaped (length (A e)) (alpha_normal e) ->
     edge_at (normalized_alphas e) row edge = Some x_row ->
     (forall v, In v x_row -> 0 < v) ->
     decrease_op row edge op prob e = Ok true e1 ->
     exists xk e2,
       x_row !! op = Some xk /\
       update_states e1 = Ok tt e2 /\
       edge_at (normalized_alphas e2) row edge
       = Some (map (fun v => v / (rsum x_row - clamp_decrease xk prob
                                  + 0.01 * INR (length x_row)))
                 (add_scalar 0.01 (<[op := xk - clamp_decrease xk prob]> x_row)))).
Proof.
  split; [exact softmax_inverse_softmax |]. split.
  - intros e e1 row edge op prob x_row. apply increase_then_rebuild.
  - intros e e1 row edge op prob x_row. apply decrease_then_rebuild.
Qed.

Lemma rebuilt_row_after_mutation_witness :
  softmax (_inverse_softmax [0.5; 0.3; 0.2] 7) = map (fun v => v / rsum [0.5; 0.3; 0.2]) [0.5; 0.3; 0.2] /\
  (exists xk e2,
     [0.5; 0.3; 0.2] !! 1%nat = Some xk /\
     update_states (mutated env_balanced 0 0
               [[0.5; 0.3; 0.2]; [1/3; 1/3; 1/3]]
               [[ln 0.5; ln 0.3; ln 0.2]; [0; 0; 0]]
               (add_scalar 0.01 (<[1%nat := 0.3 + clamp_increase 0.3 0.3]> [0.5; 0.3; 0.2])))
       = Ok tt e2 /\
     edge_at (normalized_alphas e2) 0 0
     = Some (map (fun v => v / (rsum [0.5; 0.3; 0.2] + clamp_increase xk 0.3
                                + 0.01 * INR (length [0.5; 0.3; 0.2])))
               (add_scalar 0.01 (<[1%nat := xk + clamp_increase xk 0.3]> [0.5; 0.3; 0.2])))) /\
  (exists xk e2,
     [0.5; 0.3; 0.2] !! 0%nat = Some xk /\
     update_states (mutated env_balanced 0 0
               [[0.5; 0.3; 0.2]; [1/3; 1/3; 1/3]]
               [[ln 0.5; ln 0.3; ln 0.2]; [0; 0; 0]]
               (add_scalar 0.01 (<[0%nat := 0.5 - clamp_decrease 0.5 0.3]> [0.5; 0.3; 0.2])))
       = Ok tt e2 /\
     edge_at (normalized_alphas e2) 0 0
     = Some (map (fun v => v / (rsum [0.5; 0.3; 0.2] - clamp_decrease xk 0.3
                                + 0.01 * INR (length [0.5; 0.3; 0.2])))
               (add_scalar 0.01 (<[0%nat := xk - clamp_decrease xk 0.3]> [0.5; 0.3; 0.2])))).
Proof.
  destruct rebuilt_row_after_mutation as (Hsoft & Hinc & Hdec).
  split; [apply Hsoft; exact balanced_row_positive |]. split.
  - apply (Hinc env_balanced _ 0%nat 0%nat 1%nat 0.3 [0.5; 0.3; 0.2]).
    + reflexivity.
    + apply small_cell_well_shaped; discriminate.
    + reflexivity.
    + exact balanced_row_positive.
    + lra.
    + exact increase_op_balanced.
  - apply (Hdec env_balanced _ 0%nat 0%nat 0%nat 0.3 [0.5; 0.3; 0.2]).
    + reflexivity.
    + apply small_cell_well_shaped; discriminate.
    + reflexivity.
    + exact balanced_row_positive.
    + exact decrease_op_balanced.
Defined.

End Claims.

(* ================================================================= *)
(** * Further properties of the environment *)

Lemma bind_Ok {T U} (m : M T) (k : T -> M U) e b e' :
  bind m k e = Ok b e' -> exists a e1, m e = Ok a e1 /\ k a e1 = Ok b e'.
Proof.
  unfold bind. destruct (m e) as [a e1 | x e1]; [eauto | discriminate].
Qed.

Lemma keeps_dict_get {X V} (f : NasEnv -> X) (d : gmap (nat * nat) V) k :
  keeps f (dict_get d k).
Proof. unfold dict_get. destruct (d !! k); [apply keeps_ret | apply keeps_raise]. Qed.

(** Walks through a computation and shows that no assignment in it touches
    the part of the environment at hand. *)
Ltac keeps_auto :=
  repeat first
    [ apply keeps_ret | apply keeps_raise | apply keeps_get
    | apply keeps_index | apply keeps_lift_opt | apply keeps_dict_get
    | apply keeps_for_enumerate; intros
    | apply keeps_modify; intros []; reflexivity
    | apply keeps_bind; [| intros]
    | progress cbv zeta
    | match goal with
      | |- keeps _ (if ?c then _ else _) => destruct c
      | |- keeps _ (match ?c with _ => _ end) => destruct c
      end ].

Ltac unfold_env :=
  unfold step, reset, set_task, collect_max_alphas, load_meta_state, set_start_state,
    _perform_action, traverse_branch, mutate_branch, terminate_branch,
    record_best, update_meta_model, increase_op, decrease_op, store_normalized,
    store_alpha_normal, update_states, encode_node, encode_edge, compute_reward, unpack2,
    _meta_predictor_estimation, _darts_estimation, run_estimator, lift_result,
    collect_rows_on_device, update_edge_to_index, update_edge_to_alpha, update_states_attr.

(** ** The cell graph *)

Lemma ones_minus_eye_entry (n r c : nat) :
  r < n -> c < n ->
  adjacent (ones_minus_eye n) r c = Some (if decide (r = c) then 0 else 1).
Proof.
  intros Hr Hc. unfold adjacent, ones_minus_eye.
  rewrite list_lookup_fmap, lookup_seq_lt by exact Hr. simpl.
  rewrite list_lookup_fmap, lookup_seq_lt by exact Hc. simpl.
  destruct (Nat.eqb_spec r c), (decide (r = c)); try reflexivity; contradiction.
Qed.

Lemma set_entry_entry (A : list (list nat)) (r c v r' c' : nat) :
  adjacent (set_entry r c v A) r' c' =
    if decide (r' = r /\ c' = c /\ is_Some (adjacent A r c))
    then Some v else adjacent A r' c'.
Proof.
  unfold adjacent, set_entry. destruct (decide (r' = r)) as [-> | Hr].
  - rewrite list_lookup_alter_eq. destruct (A !! r) as [row|] eqn:Hrow; simpl.
    + destruct (decide (c' = c)) as [-> | Hc].
      * destruct (row !! c) as [x|] eqn:Hx.
        -- rewrite list_lookup_insert_eq by (eapply lookup_lt_Some; eauto).
           destruct (decide _) as [_ | Hn]; [reflexivity |].
           exfalso. apply Hn. eauto.
        -- rewrite list_insert_ge by (now apply lookup_ge_None). rewrite Hx.
           destruct (decide _) as [(_ & _ & [y Hy]) | _]; [discriminate | reflexivity].
      * rewrite list_lookup_insert_ne by congruence.
        destruct (decide _) as [(_ & Heq & _) | _]; [contradiction | reflexivity].
    + destruct (decide _) as [(_ & _ & [y Hy]) | _]; [discriminate | reflexivity].
  - rewrite list_lookup_alter_ne by congruence.
    destruct (decide _) as [(Heq & _) | _]; [contradiction | reflexivity].
Qed.

Lemma adjacency_entry (nodes r c : nat) :
  adjacent (adjacency (nodes + 2)) r c =
    (if decide (r < nodes + 2 /\ c < nodes + 2)
     then Some (if decide (r = c \/ (r < 2 /\ c < 2)) then 0 else 1)
     else None).
Proof.
  unfold adjacency.
  rewrite !set_entry_entry.
  rewrite (ones_minus_eye_entry (nodes + 2) 0 1) by lia.
  destruct (decide (r < nodes + 2 /\ c < nodes + 2)) as [[Hr Hc] | Hout].
  - rewrite (ones_minus_eye_entry (nodes + 2) r c) by assumption.
    destruct (decide (r = 1 /\ c = 0 /\ _)) as [(-> & -> & _) | H1].
    { destruct (decide (_ \/ _)) as [_ | Hn]; [reflexivity | exfalso; apply Hn; lia]. }
    destruct (decide (r = 0 /\ c = 1 /\ _)) as [(-> & -> & _) | H0].
    { destruct (decide (_ \/ _)) as [_ | Hn]; [reflexivity | exfalso; apply Hn; lia]. }
    f_equal. destruct (decide (r = c)) as [-> | Hrc].
    + destruct (decide (_ \/ _)) as [_ | Hn]; [reflexivity | exfalso; apply Hn; now left].
    + destruct (decide (_ \/ _)) as [[Heq | [Hr2 Hc2]] | _]; [contradiction | | reflexivity].
      exfalso.
      assert (Hcases : (r = 1 /\ c = 0) \/ (r = 0 /\ c = 1)) by lia.
      destruct Hcases as [[-> ->] | [-> ->]].
      * apply H1. repeat split.
        match goal with |- is_Some (if ?d then _ else _) => destruct d end;
          [eauto | rewrite (ones_minus_eye_entry (nodes + 2) 1 0) by lia; eauto].
      * apply H0. repeat split. eauto.
  - destruct (decide _) as [(-> & -> & _) | _]; [exfalso; apply Hout; lia |].
    destruct (decide _) as [(-> & -> & _) | _]; [exfalso; apply Hout; lia |].
    unfold adjacent, ones_minus_eye. rewrite list_lookup_fmap.
    destruct (decide (r < nodes + 2)) as [Hr | Hr].
    + rewrite lookup_seq_lt by exact Hr. simpl. rewrite list_lookup_fmap.
      rewrite lookup_seq_ge by lia. reflexivity.
    + rewrite lookup_seq_ge by lia. reflexivity.
Qed.

(** X1.  The adjacency matrix of a cell with [nodes] intermediate nodes is
    square of side [nodes + 2]; for two nodes of the cell the entry is 0 when
    they are the same node or the two input nodes 0 and 1, and 1 otherwise;
    outside the matrix there is no entry.  In particular the matrix is
    symmetric with a zero diagonal. *)
Theorem adjacency_entries (nodes r c : nat) :
  length (adjacency (nodes + 2)) = nodes + 2 /\
  adjacent (adjacency (nodes + 2)) r c =
    (if decide (r < nodes + 2 /\ c < nodes + 2)
     then Some (if decide (r = c \/ (r < 2 /\ c < 2)) then 0 else 1)
     else None) /\
  adjacent (adjacency (nodes + 2)) r c = adjacent (adjacency (nodes + 2)) c r /\
  adjacent (adjacency (nodes + 2)) r r <> Some 1.
Proof.
  split; [| split; [apply adjacency_entry | split]].
  - unfold adjacency, set_entry, ones_minus_eye.
    now rewrite !length_alter, length_map, length_seq.
  - rewrite !adjacency_entry.
    destruct (decide (r < nodes + 2 /\ c < nodes + 2)) as [[Hr Hc] | Hout];
      destruct (decide (c < nodes + 2 /\ r < nodes + 2)) as [[Hc' Hr'] | Hout'];
      try reflexivity; try (exfalso; tauto).
    f_equal. repeat destruct (decide _); try reflexivity; exfalso; intuition lia.
  - rewrite adjacency_entry. destruct (decide _); [| discriminate].
    destruct (decide _) as [_ | Hn]; [discriminate | exfalso; apply Hn; now left].
Qed.

(** ** When the rebuild returns *)

Lemma fold_better_in (l : list (R * nat)) (p : R * nat) :
  In (fold_left better l p) (p :: l).
Proof.
  revert p. induction l as [|x l IH]; intros p; simpl; [now left |].
  destruct (IH (better p x)) as [H | H]; [| right; now right].
  rewrite <- H. unfold better. destruct (Rlt_dec (fst p) (fst x)); [right |]; now left.
Qed.

Lemma topk_pairs_length (k : nat) :
  forall l ps, topk_pairs k l = Some ps -> length ps = k /\ k <= length l.
Proof.
  induction k as [|k IH]; intros l ps H; simpl in H.
  - injection H as <-. simpl. lia.
  - destruct l as [|p l]; [discriminate |].
    destruct (topk_pairs k _) as [rest|] eqn:Hrest; [| discriminate].
    injection H as <-. destruct (IH _ _ Hrest) as [Hlen Hk].
    split; [simpl; lia |].
    assert (Hlt : length (filter (fun x => negb (snd x =? snd (fold_left better l p)))
                            (p :: l)) < length (p :: l)).
    { apply (length_filter_lt _ _ (fold_left better l p)).
      - apply list_elem_of_In, fold_better_in.
      - rewrite Nat.eqb_refl. simpl. tauto. }
    lia.
Qed.

Lemma topk_Some_iff (v : list R) (k : nat) : is_Some (topk v k) <-> k <= length v.
Proof.
  split; [| apply topk_total].
  intros [r H]. unfold topk in H.
  destruct (topk_pairs k (enumerate v)) as [ps|] eqn:Hps; [| discriminate].
  apply topk_pairs_length in Hps as [_ Hk]. now rewrite length_enumerate in Hk.
Qed.

Lemma row_max_Some_iff (edge : list R) : is_Some (row_max edge) <-> edge <> [].
Proof.
  split; [| apply row_max_total].
  intros [v H] ->. discriminate.
Qed.

Lemma for_enumerate_ran {T St} (I : NasEnv -> Prop) (l : list T)
    (body : nat -> T -> St -> M St) :
  forall k0 s e s' e',
    (forall n x s e s' e',
        l !! n = Some x -> I e -> body (k0 + n) x s e = Ok s' e' -> I e') ->
    I e -> for_enumerate l k0 body s e = Ok s' e' ->
    forall n x, l !! n = Some x ->
      exists s1 e1 s2 e2, I e1 /\ body (k0 + n) x s1 e1 = Ok s2 e2.
Proof.
  induction l as [|y l IH]; intros k0 s e s' e' Hb HI H n x Hx; [discriminate |].
  simpl in H. apply bind_Ok in H as (s1 & e1 & Hy & Hrest).
  destruct n as [|n].
  - injection Hx as <-. exists s, e, s1, e1. rewrite Nat.add_0_r. auto.
  - simpl in Hx.
    destruct (IH (S k0) s1 e1 s' e') with (n := n) (x := x)
      as (t1 & f1 & t2 & f2 & HI1 & Hrun); try assumption.
    + intros m z t f t' f' Hz Hf Hrun.
      apply (Hb (S m) z t f t' f'); [exact Hz | exact Hf |].
      now replace (k0 + S m) with (S k0 + m) by lia.
    + apply (Hb 0 y s e s1 e1); [reflexivity | exact HI |]. now rewrite Nat.add_0_r.
    + exists t1, f1, t2, f2. split; [exact HI1 |].
      now replace (k0 + S n) with (S k0 + n) by lia.
Qed.

Lemma keeps_A_encode_edge i tk j edge s : keeps A (encode_edge i tk j edge s).
Proof. unfold_env. keeps_auto. Qed.

Lemma keeps_A_encode_node i edges s : keeps A (encode_node i edges s).
Proof. unfold_env. keeps_auto. Qed.

Lemma encode_node_returns n_nodes i edges s e :
  2 <= length edges <= n_nodes -> i + 2 < n_nodes ->
  Forall (fun edge => edge <> []) edges ->
  length (A e) = n_nodes ->
  exists s' e', encode_node i edges s e = Ok s' e' /\ length (A e') = n_nodes.
Proof.
  intros Hlen Hi Hne HA. unfold encode_node, bind, lift_opt.
  destruct (mapM_is_Some_2 row_max edges) as [edge_max Hmax].
  { eapply Forall_impl; [exact Hne |]. intros edge He. now apply row_max_total. }
  rewrite Hmax. simpl.
  destruct (topk_total edge_max 2) as [[vals tk] Htk].
  { rewrite (length_mapM _ _ _ Hmax). lia. }
  rewrite Htk. simpl.
  apply (for_enumerate_total (fun f => length (A f) = n_nodes)); [| exact HA].
  intros n x t f Hx Hf. apply lookup_lt_Some in Hx.
  destruct (encode_edge_total i tk (0 + n) x t f) as (t' & f' & Hrun & HA');
    [lia | simpl; lia |].
  exists t', f'. split; [exact Hrun | congruence].
Qed.

Lemma encode_node_needs i edges s e s' e' :
  encode_node i edges s e = Ok s' e' ->
  2 <= length edges <= length (A e) /\ i + 2 < length (A e) /\
  Forall (fun edge => edge <> []) edges.
Proof.
  intros H. unfold encode_node in H.
  apply bind_Ok in H as (edge_max & e1 & Hmax & H).
  apply bind_Ok in H as (tk & e2 & Htk & Hloop).
  unfold lift_opt in Hmax, Htk.
  destruct (mapM row_max edges) as [em|] eqn:Hem; [| discriminate].
  injection Hmax as Heq1 Heq2. subst edge_max e1.
  destruct (snd <$> topk em 2) as [tk'|] eqn:Htk'; [| discriminate].
  injection Htk as Heq1 Heq2. subst tk' e2.
  assert (Hsome : is_Some (topk em 2)) by (destruct (topk em 2); [eauto | discriminate]).
  apply topk_Some_iff in Hsome. rewrite (length_mapM _ _ _ Hem) in Hsome.
  assert (Hall : Forall (fun edge => edge <> []) edges).
  { assert (Hs : is_Some (mapM row_max edges)) by eauto.
    apply mapM_is_Some_1 in Hs. eapply Forall_impl; [exact Hs |].
    intros edge He. now apply row_max_Some_iff. }
  assert (Heach : forall n x, edges !! n = Some x ->
            i + 2 < length (A e) /\ n < length (A e)).
  { intros n x Hx.
    destruct (for_enumerate_ran (fun f => A f = A e) edges (encode_edge i tk) 0 s e s' e')
      with (n := n) (x := x) as (s1 & e1 & s2 & e2 & HA1 & Hrun); auto.
    - intros m z t f t' f' _ Hf Hrun. rewrite <- Hf. eapply keeps_A_encode_edge; eauto.
    - apply encode_edge_run in Hrun as (A_to & A_from & Hto & Hfrom & _).
      rewrite HA1 in Hto, Hfrom. apply lookup_lt_Some in Hto, Hfrom. simpl in Hfrom. lia. }
  destruct edges as [|x0 edges0] eqn:Hedges; [simpl in Hsome; lia |].
  destruct (Heach 0 x0 eq_refl) as [Hi _].
  split; [| split; [exact Hi | exact Hall]].
  split; [exact Hsome |].
  destruct (decide (length (x0 :: edges0) <= length (A e))) as [Hle | Hgt]; [exact Hle |].
  destruct (lookup_lt_is_Some_2 (x0 :: edges0) (length (A e))) as [x Hx]; [lia |].
  destruct (Heach _ x Hx) as [_ Habs]. lia.
Qed.

(** X2.  [update_states] returns exactly when the cell type is "normal" or
    "reduce" and, in the rows it selects, every node [i + 2] is a node of the
    cell graph with at least two incoming edges, no more edges than the
    graph has nodes, and at least one operation weight on every edge; in
    every other case it raises. *)
Theorem update_states_returns_iff e :
  (exists e', update_states e = Ok tt e') <->
  (cell_type e = "normal" \/ cell_type e = "reduce")%string /\
  encodable (length (A e)) (selected_alpha e).
Proof.
  split.
  - intros [e' H]. pose proof (update_states_inv e e' H) as (Hc & s & Hloop).
    split; [exact Hc |].
    intros i edges Hi.
    destruct (for_enumerate_ran (fun f => A f = A e)
                (map (map softmax) (selected_alpha e)) encode_node 0 0
                (encoder_start (selected_alpha e) e) s e')
      with (n := i) (x := map softmax edges) as (s1 & e1 & s2 & e2 & HA1 & Hrun).
    + intros m z t f t' f' _ Hf Hrun. rewrite <- Hf. eapply keeps_A_encode_node; eauto.
    + unfold encoder_start, clear_tables. destruct e; reflexivity.
    + exact Hloop.
    + now rewrite list_lookup_fmap, Hi.
    + apply encode_node_needs in Hrun as (Hlen & Hnode & Hall).
      rewrite HA1, length_map in *. simpl in Hnode.
      split; [exact Hlen | split; [exact Hnode |]].
      apply Forall_forall. intros edge Hin ->.
      rewrite Forall_forall in Hall. apply (Hall (softmax [])); [| reflexivity].
      now apply (list_elem_of_fmap_2 softmax) in Hin.
  - intros [Hc Hshape].
    assert (Hloop : exists s e',
      for_enumerate (map (map softmax) (selected_alpha e)) 0 encode_node 0
        (encoder_start (selected_alpha e) e) = Ok s e' /\ length (A e') = length (A e)).
    { apply (for_enumerate_total (fun f => length (A f) = length (A e))).
      - intros n x s f Hx Hf. simpl.
        rewrite list_lookup_fmap in Hx.
        destruct (selected_alpha e !! n) as [edges|] eqn:Hn; [| discriminate].
        injection Hx as <-.
        destruct (Hshape n edges Hn) as (Hlen & Hi & Hne).
        apply encode_node_returns; [now rewrite length_map | exact Hi | | exact Hf].
        apply Forall_fmap. eapply Forall_impl; [exact Hne |].
        intros edge He. simpl. unfold softmax. destruct edge; [congruence | discriminate].
      - unfold encoder_start, clear_tables. destruct e; reflexivity. }
    destruct Hloop as (s & e' & Hloop & _). exists e'.
    rewrite update_states_unfold. unfold selected_alpha in Hloop.
    destruct Hc as [Hc | Hc]; rewrite Hc in *; simpl in *;
      unfold bind; rewrite Hloop; reflexivity.
Qed.

(** ** The tables of a rebuild agree *)

Lemma for_enumerate_inv_local {T St} (I : St -> NasEnv -> Prop) (l : list T)
    (body : nat -> T -> St -> M St) :
  forall k0 s e s' e',
    (forall n x s e s' e',
        l !! n = Some x -> I s e -> body (k0 + n) x s e = Ok s' e' -> I s' e') ->
    I s e -> for_enumerate l k0 body s e = Ok s' e' -> I s' e'.
Proof.
  induction l as [|x l IH]; intros k0 s e s' e' Hb HI H; simpl in H.
  - injection H as <- <-. exact HI.
  - apply bind_Ok in H as (s1 & e1 & Hx & H).
    apply (IH (S k0) s1 e1 s' e'); [| | exact H].
    + intros n y t f t' f' Hy HIf Hrun.
      apply (Hb (S n) y t f t' f'); [exact Hy | exact HIf |].
      now replace (k0 + S n) with (S k0 + n) by lia.
    + apply (Hb 0 x s e s1 e1); [reflexivity | exact HI |].
      now rewrite Nat.add_0_r.
Qed.

Lemma encode_edge_inv N G i tk j edge s f s' f' :
  edge_at N i j = Some edge ->
  encoder_inv N G s f ->
  encode_edge i tk j edge s f = Ok s' f' ->
  encoder_inv N G s' f'.
Proof.
  intros Hedge (Hs & Hagree & Hkeys & HN & HG) H.
  apply encode_edge_run in H as (A_to & A_from & Hto & Hfrom & -> & ->).
  unfold encoder_inv, tables_agree.
  destruct f; simpl in *. subst s normalized_alphas0 A0.
  split; [rewrite length_app; simpl; lia |].
  split; [| split; [| split; reflexivity]].
  - intros a b v Hv.
    destruct (decide ((a, b) = (i + 2, j))) as [Heq | Hne1].
    + injection Heq as -> ->. rewrite lookup_insert_eq in Hv. injection Hv as <-.
      exists i, j, (mkObs (i + 2) j (bool_decide (j ∈ tk)) A_from edge), edge.
      rewrite lookup_insert_eq.
      split; [reflexivity |]. split; [now right |].
      split; [| auto 10].
      rewrite lookup_app_r by lia.
      now replace (length states0 + 1 - length states0) with 1 by lia.
    + rewrite lookup_insert_ne in Hv by congruence.
      rewrite (lookup_insert_ne _ (i + 2, j)) by congruence.
      destruct (decide ((a, b) = (j, i + 2))) as [Heq | Hne2].
      * injection Heq as -> ->. rewrite lookup_insert_eq in Hv. injection Hv as <-.
        exists i, j, (mkObs j (i + 2) (bool_decide (j ∈ tk)) A_to edge), edge.
        rewrite lookup_insert_eq.
        split; [reflexivity |]. split; [now left |].
        split; [| auto 10].
        rewrite lookup_app_r by lia. now rewrite Nat.sub_diag.
      * rewrite lookup_insert_ne in Hv by congruence.
        rewrite lookup_insert_ne by congruence.
        destruct (Hagree a b v Hv) as (i0 & j0 & o & ed & Ha & Hk & Hst & Hrest).
        exists i0, j0, o, ed. split; [exact Ha |]. split; [exact Hk |].
        split; [| exact Hrest].
        rewrite lookup_app_l by (eapply lookup_lt_Some; eauto). exact Hst.
  - intros k.
    destruct (decide (k = (i + 2, j))) as [-> | Hne1];
      [rewrite !lookup_insert_eq; split; eauto |].
    rewrite (lookup_insert_ne _ (i + 2, j)) by congruence.
    rewrite (lookup_insert_ne _ (i + 2, j)) by congruence.
    destruct (decide (k = (j, i + 2))) as [-> | Hne2];
      [rewrite !lookup_insert_eq; split; eauto |].
    rewrite !lookup_insert_ne by congruence. apply Hkeys.
Qed.

Lemma encode_node_inv N G i edges s f s' f' :
  N !! i = Some edges ->
  encoder_inv N G s f ->
  encode_node i edges s f = Ok s' f' ->
  encoder_inv N G s' f'.
Proof.
  intros Hrow Hinv H. unfold encode_node in H.
  apply bind_Ok in H as (edge_max & e1 & Hmax & H).
  apply bind_Ok in H as (tk & e2 & Htk & Hloop).
  unfold lift_opt in Hmax, Htk.
  destruct (mapM row_max edges); [| discriminate]. injection Hmax as _ <-.
  destruct (snd <$> topk edge_max 2); [| discriminate]. injection Htk as _ <-.
  revert Hloop. apply (for_enumerate_inv_local (encoder_inv N G)); [| exact Hinv].
  intros n x t g t' g' Hx Hg Hrun.
  apply (encode_edge_inv N G i tk (0 + n) x t g t' g'); [| exact Hg | exact Hrun].
  unfold edge_at. now rewrite Hrow.
Qed.

Lemma rebuild_encoder_inv e e' :
  update_states e = Ok tt e' ->
  exists s, encoder_inv (normalized_alphas e') (A e') s e'.
Proof.
  intros H.
  destruct (update_states_normalized e e' H) as (Hn & _ & _ & _ & _ & HA).
  apply update_states_inv in H as (_ & s & Hloop).
  exists s. revert Hloop. rewrite Hn, HA.
  apply (for_enumerate_inv_local
           (encoder_inv (map (map softmax) (selected_alpha e)) (A e))).
  - intros n x t f t' f' Hx Hf Hrun.
    exact (encode_node_inv _ _ (0 + n) x t f t' f' Hx Hf Hrun).
  - unfold encoder_inv, tables_agree, encoder_start, clear_tables.
    destruct e; simpl. split; [reflexivity |].
    split; [intros a b v Hv; rewrite lookup_empty in Hv; discriminate |].
    split; [| split; reflexivity].
    intros k. rewrite !lookup_empty. split; intros [? ?]; discriminate.
Qed.

Lemma rebuild_tables_agree e e' : update_states e = Ok tt e' -> tables_agree e'.
Proof. intros H. destruct (rebuild_encoder_inv e e' H) as (s & _ & Hagree & _). exact Hagree. Qed.

(** X3.  After a rebuild the tables agree: whatever key [(a, b)]
    [edge_to_index] holds, the table row it points to exists and is the
    observation of the edge from [a] to [b], with the adjacency row of [b]
    and the normalized weights of the row [edge_to_alpha] gives for the same
    key, a row of the undirected edge between [a] and [b]; and both
    dictionaries have the same keys. *)
Theorem update_states_tables_agree e e' :
  update_states e = Ok tt e' ->
  tables_agree e' /\
  (forall k, is_Some (edge_to_index e' !! k) <-> is_Some (edge_to_alpha e' !! k)).
Proof.
  intros H. destruct (rebuild_encoder_inv e e' H) as (s & _ & Hagree & Hkeys & _). auto.
Qed.

Lemma update_states_tables_agree_witness :
  update_states env_no_task = Ok tt env_uniform_rebuilt /\
  tables_agree env_uniform_rebuilt /\
  (forall k, is_Some (edge_to_index env_uniform_rebuilt !! k)
             <-> is_Some (edge_to_alpha env_uniform_rebuilt !! k)).
Proof.
  split; [exact update_states_uniform |].
  exact (update_states_tables_agree env_no_task env_uniform_rebuilt update_states_uniform).
Defined.

(** ** The keys of [edge_to_index] are the edges of the cell graph *)

Lemma for_enumerate_all {T St} (Q : nat -> NasEnv -> Prop) (l : list T)
    (body : nat -> T -> St -> M St) :
  forall k0,
    (forall n x s e s' e', l !! n = Some x -> body (k0 + n) x s e = Ok s' e' -> Q n e') ->
    (forall m n x s e s' e',
        l !! n = Some x -> Q m e -> body (k0 + n) x s e = Ok s' e' -> Q m e') ->
    forall s e s' e', for_enumerate l k0 body s e = Ok s' e' ->
    forall n, n < length l -> Q n e'.
Proof.
  revert Q. induction l as [|x l IH]; intros Q k0 Hest Hpres s e s' e' H n Hn;
    [simpl in Hn; lia |].
  simpl in H. apply bind_Ok in H as (s1 & e1 & Hx & H).
  destruct n as [|n].
  - revert H. apply (for_enumerate_inv (Q 0)).
    + intros m y t f t' f' Hy Hf Hrun.
      apply (Hpres 0 (S m) y t f t' f'); [exact Hy | exact Hf |].
      now replace (k0 + S m) with (S k0 + m) by lia.
    + apply (Hest 0 x s e s1 e1); [reflexivity |]. now rewrite Nat.add_0_r.
  - apply (IH (fun m => Q (S m)) (S k0)) with (s := s1) (e := e1) (s' := s').
    + intros m y t f t' f' Hy Hrun. apply (Hest (S m) y t f t' f'); [exact Hy |].
      now replace (k0 + S m) with (S k0 + m) by lia.
    + intros m m' y t f t' f' Hy Hf Hrun.
      apply (Hpres (S m) (S m') y t f t' f'); [exact Hy | exact Hf |].
      now replace (k0 + S m') with (S k0 + m') by lia.
    + exact H.
    + simpl in Hn. lia.
Qed.

Lemma encode_edge_keys i tk j edge s f s' f' :
  encode_edge i tk j edge s f = Ok s' f' ->
  is_Some (edge_to_index f' !! (j, i + 2)) /\
  is_Some (edge_to_index f' !! (i + 2, j)) /\
  forall k, is_Some (edge_to_index f !! k) -> is_Some (edge_to_index f' !! k).
Proof.
  intros H. apply encode_edge_run in H as (A_to & A_from & _ & _ & _ & ->).
  destruct f; simpl. split; [| split].
  - destruct (decide ((j, i + 2) = (i + 2, j))) as [Heq | Hne].
    + rewrite Heq, lookup_insert_eq. eauto.
    + rewrite lookup_insert_ne, lookup_insert_eq by congruence. eauto.
  - rewrite lookup_insert_eq. eauto.
  - intros k Hk.
    destruct (decide (k = (i + 2, j))) as [-> | Hne1]; [rewrite lookup_insert_eq; eauto |].
    rewrite lookup_insert_ne by congruence.
    destruct (decide (k = (j, i + 2))) as [-> | Hne2]; [rewrite lookup_insert_eq; eauto |].
    now rewrite lookup_insert_ne by congruence.
Qed.

Lemma encode_node_keys i edges s f s' f' :
  encode_node i edges s f = Ok s' f' ->
  (forall j, j < length edges ->
     is_Some (edge_to_index f' !! (j, i + 2)) /\
     is_Some (edge_to_index f' !! (i + 2, j))) /\
  forall k, is_Some (edge_to_index f !! k) -> is_Some (edge_to_index f' !! k).
Proof.
  intros H. unfold encode_node in H.
  apply bind_Ok in H as (edge_max & e1 & Hmax & H).
  apply bind_Ok in H as (tk & e2 & Htk & Hloop).
  unfold lift_opt in Hmax, Htk.
  destruct (mapM row_max edges); [| discriminate]. injection Hmax as _ <-.
  destruct (snd <$> topk edge_max 2); [| discriminate]. injection Htk as _ <-.
  split.
  - apply (for_enumerate_all
             (fun j g => is_Some (edge_to_index g !! (j, i + 2)) /\
                         is_Some (edge_to_index g !! (i + 2, j)))
             edges (encode_edge i tk) 0) with (s := s) (e := f) (s' := s'); [| | exact Hloop].
    + intros n x t g t' g' _ Hrun. apply encode_edge_keys in Hrun as (H1 & H2 & _). auto.
    + intros m n x t g t' g' _ [H1 H2] Hrun.
      apply encode_edge_keys in Hrun as (_ & _ & Hmono). auto.
  - intros k Hk. revert Hloop.
    apply (for_enumerate_inv (fun g => is_Some (edge_to_index g !! k))); [| exact Hk].
    intros n x t g t' g' _ Hg Hrun.
    apply encode_edge_keys in Hrun as (_ & _ & Hmono). auto.
Qed.

Lemma update_states_keys e e' :
  update_states e = Ok tt e' ->
  forall i edges j, selected_alpha e !! i = Some edges -> j < length edges ->
    is_Some (edge_to_index e' !! (j, i + 2)) /\
    is_Some (edge_to_index e' !! (i + 2, j)).
Proof.
  intros H i edges j Hi Hj.
  apply update_states_inv in H as (_ & s & Hloop).
  refine (for_enumerate_all
           (fun i g => forall edges j, selected_alpha e !! i = Some edges -> j < length edges ->
              is_Some (edge_to_index g !! (j, i + 2)) /\
              is_Some (edge_to_index g !! (i + 2, j)))
           _ encode_node 0 _ _ 0 _ s e' Hloop i _ edges j Hi Hj).
  - intros n x t g t' g' Hx Hrun edges0 j0 Hn Hj0.
    rewrite list_lookup_fmap, Hn in Hx. injection Hx as <-.
    apply encode_node_keys in Hrun as [Hnew _]. apply Hnew. now rewrite length_map.
  - intros m n x t g t' g' _ Hg Hrun edges0 j0 Hm Hj0.
    apply encode_node_keys in Hrun as [_ Hmono].
    destruct (Hg edges0 j0 Hm Hj0). auto.
  - rewrite length_map. eapply lookup_lt_Some; eauto.
Qed.

(** X4.  In a full cell, whose graph is the adjacency matrix of its node
    count, the keys of [edge_to_index] after a rebuild are exactly the pairs
    of nodes the adjacency matrix joins: a traversal the matrix allows
    always finds its key. *)
Theorem edge_to_index_keys_are_edges e e' :
  update_states e = Ok tt e' ->
  full_cell (selected_alpha e) ->
  A e = adjacency (length (selected_alpha e) + 2) ->
  forall a b, is_Some (edge_to_index e' !! (a, b)) <-> adjacent (A e') a b = Some 1.
Proof.
  intros H Hfull HA a b.
  destruct (update_states_normalized e e' H) as (Hn & _ & _ & _ & _ & HA').
  destruct (rebuild_encoder_inv e e' H) as (s0 & _ & Hagree & _).
  rewrite HA', HA, adjacency_entry.
  set (n := length (selected_alpha e)).
  assert (Hkey : forall i j, i < n -> j < i + 2 ->
            is_Some (edge_to_index e' !! (j, i + 2)) /\
            is_Some (edge_to_index e' !! (i + 2, j))).
  { intros i j Hi Hj.
    destruct (lookup_lt_is_Some_2 (selected_alpha e) i Hi) as [edges Hedges].
    apply (update_states_keys e e' H i edges j Hedges).
    now rewrite (Hfull i edges Hedges). }
  split.
  - intros [v Hv].
    destruct (Hagree a b v Hv) as (i & j & o & edge & _ & Hk & _ & _ & _ & _ & Hedge & _).
    rewrite Hn in Hedge. unfold edge_at in Hedge. rewrite list_lookup_fmap in Hedge.
    destruct (selected_alpha e !! i) as [edges|] eqn:Hi; [| discriminate].
    simpl in Hedge. rewrite list_lookup_fmap in Hedge.
    assert (Hj : j < length edges).
    { destruct (edges !! j) eqn:Hj; [eapply lookup_lt_Some; eauto | discriminate]. }
    rewrite (Hfull i edges Hi) in Hj. apply lookup_lt_Some in Hi. fold n in Hi.
    destruct Hk as [Heq | Heq]; injection Heq as -> ->.
    + destruct (decide _) as [_ | Hout]; [| exfalso; apply Hout; lia].
      destruct (decide _) as [Hbad | _]; [exfalso; lia | reflexivity].
    + destruct (decide _) as [_ | Hout]; [| exfalso; apply Hout; lia].
      destruct (decide _) as [Hbad | _]; [exfalso; lia | reflexivity].
  - destruct (decide _) as [[Ha Hb] | _]; [| discriminate].
    destruct (decide _) as [_ | Hok]; [discriminate |]. intros _.
    destruct (decide (a < b)) as [Hab | Hba].
    + replace b with (b - 2 + 2) by lia. apply (Hkey (b - 2) a); lia.
    + replace a with (a - 2 + 2) by lia. apply (Hkey (a - 2) b); lia.
Qed.

Lemma edge_to_index_keys_are_edges_witness :
  update_states env_no_task = Ok tt env_uniform_rebuilt /\
  full_cell (selected_alpha env_no_task) /\
  forall a b, is_Some (edge_to_index env_uniform_rebuilt !! (a, b))
              <-> adjacent (A env_uniform_rebuilt) a b = Some 1.
Proof.
  assert (Hfull : full_cell (selected_alpha env_no_task)).
  { intros i edges Hi. destruct i as [|i]; [| destruct i; discriminate].
    injection Hi as <-. reflexivity. }
  split; [exact update_states_uniform |]. split; [exact Hfull |].
  apply (edge_to_index_keys_are_edges env_no_task env_uniform_rebuilt
           update_states_uniform Hfull).
  reflexivity.
Defined.

(** ** The action dispatcher *)

Lemma in_arange_above (lo hi x : nat) : hi <= x -> in_arange lo hi x = false.
Proof.
  intros H. unfold in_arange. destruct (Nat.ltb_spec x hi); [lia |].
  apply andb_false_r.
Qed.

Lemma in_arange_true (lo hi x : nat) : lo <= x < hi -> in_arange lo hi x = true.
Proof.
  intros [H1 H2]. unfold in_arange.
  destruct (Nat.leb_spec lo x); [| lia]. destruct (Nat.ltb_spec x hi); [reflexivity | lia].
Qed.

(** X5.  When the tables agree, a traversal action the adjacency matrix
    allows and whose key is in [edge_to_index] moves the agent onto the edge
    from the old [to_node] to the target: [step] returns that edge's table
    row as the observation, with reward 0 and no accuracy, and changes
    nothing but the current state and the step counter. *)
Theorem step_legal_traversal (o : oracle) (e : NasEnv) (action v s : nat) :
  tables_agree e ->
  action < length (A e) ->
  adjacent (A e) (obs_to (current_state e)) action = Some v ->
  0 < v ->
  edge_to_index e !! (obs_to (current_state e), action) = Some s ->
  exists st,
    states e !! s = Some st /\
    obs_from st = obs_to (current_state e) /\ obs_to st = action /\
    step o action e =
      Ok (st, 0%R,
          (step_count e + 1 =? max_ep_len e) || terminate_episode e,
          mkInfo (step_count e + 1) action
            (LegalMove (obs_to (current_state e)) action) None (elapsed_seconds o))
         (set_step_count (step_count e + 1) (set_current_state st e)).
Proof.
  intros Hagree Hact Hadj Hv Hkey.
  destruct (Hagree _ _ _ Hkey) as (i & j & st & edge & _ & _ & Hst & Hfrom & Hto & _).
  exists st. split; [exact Hst |]. split; [exact Hfrom |]. split; [exact Hto |].
  unfold adjacent in Hadj.
  destruct (A e !! obs_to (current_state e)) as [A_next|] eqn:Hrow; [| discriminate].
  unfold step, _perform_action, traverse_branch, mutate_branch, terminate_branch,
    record_best.
  destruct e; simpl in *. run_monad.
  rewrite (in_arange_true 0 (length A0) action) by lia.
  rewrite Hrow. simpl. rewrite Hadj. simpl.
  destruct (Nat.ltb_spec 0 v) as [_ | Hle]; [| lia].
  rewrite Hkey. simpl. rewrite Hst. simpl.
  rewrite !in_arange_below by lia. simpl.
  rewrite in_arange_below by lia. reflexivity.
Qed.

Lemma step_legal_traversal_witness :
  tables_agree env_uniform_rebuilt /\
  adjacent (A env_uniform_rebuilt) (obs_to (current_state env_uniform_rebuilt)) 1 = Some 1 /\
  edge_to_index env_uniform_rebuilt !! (obs_to (current_state env_uniform_rebuilt), 1) = Some 3 /\
  exists st,
    states env_uniform_rebuilt !! 3 = Some st /\
    obs_from st = obs_to (current_state env_uniform_rebuilt) /\ obs_to st = 1 /\
    step oracle0 1 env_uniform_rebuilt =
      Ok (st, 0%R,
          (step_count env_uniform_rebuilt + 1 =? max_ep_len env_uniform_rebuilt)
          || terminate_episode env_uniform_rebuilt,
          mkInfo (step_count env_uniform_rebuilt + 1) 1
            (LegalMove (obs_to (current_state env_uniform_rebuilt)) 1) None
            (elapsed_seconds oracle0))
         (set_step_count (step_count env_uniform_rebuilt + 1)
            (set_current_state st env_uniform_rebuilt)).
Proof.
  assert (Hagree : tables_agree env_uniform_rebuilt)
    by apply (rebuild_tables_agree env_no_task _ update_states_uniform).
  split; [exact Hagree |]. split; [reflexivity |]. split; [reflexivity |].
  apply (step_legal_traversal oracle0 env_uniform_rebuilt 1 1 3 Hagree);
    try reflexivity; simpl; lia.
Defined.

(** X6.  A traversal action the adjacency matrix allows but whose key is
    missing from [edge_to_index] makes [step] raise [KeyError]; nothing has
    been assigned, not even the step counter. *)
Theorem step_traversal_missing_key (o : oracle) (e : NasEnv) (action v : nat) :
  action < length (A e) ->
  adjacent (A e) (obs_to (current_state e)) action = Some v ->
  0 < v ->
  edge_to_index e !! (obs_to (current_state e), action) = None ->
  step o action e = Raise KeyError e.
Proof.
  intros Hact Hadj Hv Hkey.
  unfold adjacent in Hadj.
  destruct (A e !! obs_to (current_state e)) as [A_next|] eqn:Hrow; [| discriminate].
  unfold step, _perform_action, traverse_branch.
  destruct e; simpl in *. run_monad.
  rewrite (in_arange_true 0 (length A0) action) by lia.
  rewrite Hrow. simpl. rewrite Hadj. simpl.
  destruct (Nat.ltb_spec 0 v) as [_ | Hle]; [| lia].
  rewrite Hkey. reflexivity.
Qed.

Lemma step_traversal_missing_key_witness :
  adjacent (A (clear_tables env_balanced))
    (obs_to (current_state (clear_tables env_balanced))) 1 = Some 1 /\
  edge_to_index (clear_tables env_balanced)
    !! (obs_to (current_state (clear_tables env_balanced)), 1) = None /\
  step oracle0 1 (clear_tables env_balanced) = Raise KeyError (clear_tables env_balanced).
Proof.
  split; [reflexivity |]. split; [reflexivity |].
  apply (step_traversal_missing_key oracle0 (clear_tables env_balanced) 1 1);
    try reflexivity; simpl; lia.
Defined.

(** X7.  The terminal action, [len(A) + 2 * len(primitives)], sets the
    termination flag and nothing else but the step counter: [step] returns
    the unchanged current state with reward 0, no accuracy and [done] true,
    whatever the step budget. *)
Theorem step_terminal_action (o : oracle) (e : NasEnv) :
  step o (length (A e) + 2 * n_ops e) e =
    Ok (current_state e, 0%R, true,
        mkInfo (step_count e + 1) (length (A e) + 2 * n_ops e)
          (Terminate (step_count e)) None (elapsed_seconds o))
       (set_step_count (step_count e + 1) (set_terminate_episode true e)).
Proof.
  unfold step, _perform_action, traverse_branch, mutate_branch, terminate_branch,
    record_best.
  destruct e; simpl in *. run_monad.
  rewrite (in_arange_above 0 (length A0)) by lia. simpl.
  rewrite (in_arange_above (length A0) (length A0 + n_ops0)) by lia. simpl.
  rewrite (in_arange_above (length A0 + n_ops0) (length A0 + n_ops0 + n_ops0)) by lia. simpl.
  rewrite in_arange_true by lia. simpl.
  rewrite orb_true_r. reflexivity.
Qed.

(** X8.  An action id at or beyond the size of the action space fires no
    branch: [step] returns the unchanged current state with reward 0, an
    empty description and no accuracy, and only the step counter moves. *)
Theorem step_action_out_of_range (o : oracle) (e : NasEnv) (action : nat) :
  action_size e <= action ->
  step o action e =
    Ok (current_state e, 0%R,
        (step_count e + 1 =? max_ep_len e) || terminate_episode e,
        mkInfo (step_count e + 1) action NoInfo None (elapsed_seconds o))
       (set_step_count (step_count e + 1) e).
Proof.
  unfold action_size. intros Hact.
  unfold step, _perform_action, traverse_branch, mutate_branch, terminate_branch,
    record_best.
  destruct e; simpl in *. run_monad.
  rewrite (in_arange_above 0 (length A0)) by lia. simpl.
  rewrite (in_arange_above (length A0) (length A0 + n_ops0)) by lia. simpl.
  rewrite (in_arange_above (length A0 + n_ops0) (length A0 + n_ops0 + n_ops0)) by lia. simpl.
  rewrite in_arange_above by lia. reflexivity.
Qed.

Lemma step_action_out_of_range_witness :
  action_size env_balanced <= 10 /\
  step oracle0 10 env_balanced =
    Ok (current_state env_balanced, 0%R,
        (step_count env_balanced + 1 =? max_ep_len env_balanced)
        || terminate_episode env_balanced,
        mkInfo (step_count env_balanced + 1) 10 NoInfo None (elapsed_seconds oracle0))
       (set_step_count (step_count env_balanced + 1) env_balanced).
Proof.
  split; [vm_compute; lia |].
  apply (step_action_out_of_range oracle0 env_balanced 10). vm_compute. lia.
Defined.

(** ** What a step keeps *)

Lemma preserves_of_keeps {X T} (f : NasEnv -> X) (c : X) (m : M T) :
  keeps f m -> preserves (fun e => f e = c) m.
Proof. intros Hk e a e' He H. rewrite (Hk e a e' H). exact He. Qed.

Lemma preserves_bind {T U} (P : NasEnv -> Prop) (m : M T) (k : T -> M U) :
  preserves P m -> (forall a, preserves P (k a)) -> preserves P (bind m k).
Proof.
  intros Hm Hk e b e' HP H. apply bind_Ok in H as (a & e1 & Hme & Hke).
  eapply Hk; [| exact Hke]. eapply Hm; eauto.
Qed.

Lemma keeps_config_perform_action o action : keeps config_of (_perform_action o action).
Proof. unfold_env. keeps_auto. Qed.

Lemma keeps_episode_perform_action o action : keeps episode_of (_perform_action o action).
Proof. unfold_env. keeps_auto. Qed.

Lemma keeps_terminate_traverse l : keeps terminate_episode (traverse_branch l).
Proof. unfold_env. keeps_auto. Qed.

Lemma keeps_terminate_mutate o b lo d l : keeps terminate_episode (mutate_branch o b lo d l).
Proof. unfold_env. keeps_auto. Qed.

Lemma perform_action_stays_terminated o action :
  preserves (fun e => terminate_episode e = true) (_perform_action o action).
Proof.
  unfold _perform_action.
  apply preserves_bind; [apply (preserves_of_keeps terminate_episode), keeps_get | intros e0].
  apply preserves_bind;
    [apply (preserves_of_keeps terminate_episode), keeps_terminate_traverse | intros l1].
  apply preserves_bind;
    [apply (preserves_of_keeps terminate_episode), keeps_terminate_mutate | intros l2].
  apply preserves_bind;
    [apply (preserves_of_keeps terminate_episode), keeps_terminate_mutate | intros l3].
  apply preserves_bind; [| intros l4 e a e' He H; injection H as _ <-; exact He].
  intros e l e' He H. unfold terminate_branch in H. revert H. run_monad.
  destruct l3. destruct (in_arange _ _ _); intros H; injection H as _ <-;
    [destruct e; reflexivity | exact He].
Qed.

Lemma set_max_alphas_twice v w e :
  set_max_alphas v (set_max_alphas w e) = set_max_alphas v e.
Proof. destruct e; reflexivity. Qed.

Lemma max_alphas_set v e : max_alphas (set_max_alphas v e) = v.
Proof. destruct e; reflexivity. Qed.

Lemma append_rows_on_device_run (d : bool) (l : alpha) :
  forall k e, params_on_device e = d ->
    for_enumerate l k
      (fun i row _ =>
         modify (fun e => set_max_alphas (max_alphas e ++ [to_device e i row]) e)) tt e
    = Ok tt (set_max_alphas
               (max_alphas e ++ imap (fun i row => if d then Param (k + i) else Copy row) l)
               e).
Proof.
  induction l as [|row l IH]; intros k e Hd; simpl.
  - rewrite app_nil_r. destruct e; reflexivity.
  - unfold bind, modify. rewrite IH by (destruct e; exact Hd).
    rewrite set_max_alphas_twice, max_alphas_set, <- app_assoc. simpl.
    unfold to_device. rewrite Hd, Nat.add_0_r. do 4 f_equal.
    apply imap_ext. intros i x _. simpl.
    now replace (k + S i) with (S (k + i)) by lia.
Qed.

Lemma collect_rows_on_device_run (e : NasEnv) :
  collect_rows_on_device e = Ok tt (set_max_alphas (max_alphas e ++ rows_on_device e) e).
Proof.
  unfold collect_rows_on_device, bind, get.
  rewrite (append_rows_on_device_run (params_on_device e)) by reflexivity.
  unfold rows_on_device, to_device. reflexivity.
Qed.

(** What [record_best] does with the accuracy of the step. *)
Lemma record_best_run (acc : option R) (e : NasEnv) :
  record_best acc e =
    Ok tt (match acc with
           | Some a =>
               if Rgt_dec a 0 then
                 if Rlt_dec (max_acc e) a
                 then set_max_alphas (rows_on_device e)
                        (set_max_acc a (set_baseline_acc a e))
                 else set_baseline_acc a e
               else e
           | None => e
           end).
Proof.
  unfold record_best. destruct acc as [a|]; [| reflexivity].
  destruct (Rgt_dec a 0); [| reflexivity].
  unfold bind at 1. unfold modify at 1. cbv beta iota.
  unfold bind at 1. unfold get at 1. cbv beta iota.
  replace (max_acc (set_baseline_acc a e)) with (max_acc e) by (destruct e; reflexivity).
  destruct (Rlt_dec (max_acc e) a); [| reflexivity].
  unfold bind at 1. unfold modify at 1. cbv beta iota.
  unfold bind at 1. unfold modify at 1. cbv beta iota.
  rewrite collect_rows_on_device_run. destruct e; reflexivity.
Qed.

Lemma step_inv o action e st r done info e' :
  step o action e = Ok (st, r, done, info) e' ->
  exists ai acc e1 e2,
    _perform_action o action e = Ok (ai, r, acc) e1 /\
    record_best acc e1 = Ok tt e2 /\
    e' = set_step_count (step_count e2 + 1) e2 /\
    st = current_state e' /\
    done = (step_count e' =? max_ep_len e') || terminate_episode e' /\
    info = mkInfo (step_count e') action ai acc (elapsed_seconds o).
Proof.
  intros H. unfold step in H.
  apply bind_Ok in H as ([[ai r'] acc] & e1 & Hp & H).
  apply bind_Ok in H as ([] & e2 & Hb & H).
  revert H. run_monad. intros H. injection H as <- <- <- <- <-.
  exists ai, acc, e1, e2. auto 10.
Qed.

Lemma record_best_frame acc e e2 :
  record_best acc e = Ok tt e2 ->
  config_of e2 = config_of e /\ step_count e2 = step_count e /\
  terminate_episode e2 = terminate_episode e.
Proof.
  rewrite record_best_run. intros H. injection H as <-.
  destruct acc as [a|]; [destruct (Rgt_dec a 0); [destruct (Rlt_dec _ a) |] |];
    destruct e; auto.
Qed.

(** X9.  Whenever [step] returns, the step counter has grown by exactly
    one and is the count the info dictionary reports, the observation
    returned is the new current state, [done] is true exactly when the new
    count equals [max_ep_len] or the termination flag is set, and the
    configuration of the environment (cell type, primitives, graph, test
    environment, step budget, task) is untouched; once the termination flag
    is set it stays set, and every later step reports [done]. *)
Theorem step_bookkeeping o action e st r done info e' :
  step o action e = Ok (st, r, done, info) e' ->
  step_count e' = step_count e + 1 /\
  info_step_count info = step_count e + 1 /\
  info_action_id info = action /\
  st = current_state e' /\
  done = (step_count e + 1 =? max_ep_len e) || terminate_episode e' /\
  config_of e' = config_of e /\
  (terminate_episode e = true -> terminate_episode e' = true /\ done = true).
Proof.
  intros H. apply step_inv in H as (ai & acc & e1 & e2 & Hp & Hb & -> & -> & -> & ->).
  pose proof (keeps_config_perform_action o action e _ e1 Hp) as Hc.
  pose proof (keeps_episode_perform_action o action e _ e1 Hp) as He.
  pose proof (perform_action_stays_terminated o action e (ai, r, acc) e1) as Ht.
  apply record_best_frame in Hb as (Hc2 & Hs2 & Ht2).
  assert (Hs1 : step_count e1 = step_count e)
    by (unfold episode_of in He; congruence).
  assert (Hm : max_ep_len e2 = max_ep_len e)
    by (unfold config_of in Hc, Hc2; congruence).
  assert (Hcount : step_count (set_step_count (step_count e2 + 1) e2) = step_count e + 1)
    by (rewrite <- Hs1, <- Hs2; destruct e2; reflexivity).
  assert (Hlen : max_ep_len (set_step_count (step_count e2 + 1) e2) = max_ep_len e)
    by (rewrite <- Hm; destruct e2; reflexivity).
  assert (Hflag : terminate_episode (set_step_count (step_count e2 + 1) e2)
                  = terminate_episode e1)
    by (rewrite <- Ht2; destruct e2; reflexivity).
  assert (Hconf : config_of (set_step_count (step_count e2 + 1) e2) = config_of e)
    by (rewrite <- Hc, <- Hc2; destruct e2; reflexivity).
  simpl. rewrite Hcount, Hlen, Hflag.
  split; [reflexivity |]. split; [reflexivity |]. split; [reflexivity |].
  split; [reflexivity |]. split; [reflexivity |]. split; [exact Hconf |].
  intros Hterm. rewrite (Ht Hterm Hp). split; [reflexivity | apply orb_true_r].
Qed.

Lemma env_balanced_last_action :
  step oracle0 9 env_balanced =
    Ok (current_state env_balanced, 0%R, true,
        mkInfo 4 9 (Terminate 3) None 0)
       (set_step_count 4 (set_terminate_episode true env_balanced)).
Proof. reflexivity. Qed.

Lemma step_bookkeeping_witness :
  step oracle0 9 env_balanced =
    Ok (current_state env_balanced, 0%R, true, mkInfo 4 9 (Terminate 3) None 0)
       (set_step_count 4 (set_terminate_episode true env_balanced)) /\
  step_count (set_step_count 4 (set_terminate_episode true env_balanced))
    = step_count env_balanced + 1 /\
  config_of (set_step_count 4 (set_terminate_episode true env_balanced))
    = config_of env_balanced.
Proof.
  split; [reflexivity |].
  destruct (step_bookkeeping oracle0 9 env_balanced _ _ _ _ _ env_balanced_last_action)
    as (H1 & _ & _ & _ & _ & H2 & _).
  split; [exact H1 | exact H2].
Defined.

(** ** Mutations outside the normal cell *)

Lemma update_meta_model_other_cell (increase : bool) (row_idx edge_idx op_idx : nat)
    (e : NasEnv) :
  cell_type e <> "normal"%string ->
  update_meta_model increase row_idx edge_idx op_idx e =
    Raise (if String.eqb (cell_type e) "reduce" then NotImplementedError else RuntimeError) e.
Proof.
  intros Hcell. apply String.eqb_neq in Hcell.
  unfold update_meta_model, bind, get. rewrite Hcell.
  destruct (String.eqb (cell_type e) "reduce"); reflexivity.
Qed.

(** X10.  The two mutation ranges work in the normal cell only: with any
    other cell type, an increase or decrease action on an edge of the
    tables raises [NotImplementedError] (reduction cell) or [RuntimeError]
    (any other name) out of [step], and the environment is as it was: no
    weight is written, no table rebuilt, no step counted. *)
Theorem step_mutation_other_cell (o : oracle) (e : NasEnv) (action : nat)
    (ra : nat * nat) (s : nat) :
  cell_type e <> "normal"%string ->
  length (A e) <= action < length (A e) + 2 * n_ops e ->
  edge_to_alpha e !! (obs_from (current_state e), obs_to (current_state e)) = Some ra ->
  edge_to_index e !! (obs_from (current_state e), obs_to (current_state e)) = Some s ->
  step o action e =
    Raise (if String.eqb (cell_type e) "reduce" then NotImplementedError else RuntimeError) e.
Proof.
  intros Hcell Hrange Ha Hs.
  unfold step, _perform_action, traverse_branch, mutate_branch.
  unfold bind at 1 2 3. unfold get at 1.
  unfold bind at 1. unfold get at 1. cbv beta iota.
  rewrite (in_arange_above 0 (length (A e))) by lia.
  unfold ret at 1. cbv beta iota.
  unfold bind at 1 2. unfold get at 1. cbv beta iota.
  destruct (in_arange (length (A e)) (length (A e) + n_ops e) action) eqn:Hin.
  - unfold bind at 1. unfold dict_get at 1. rewrite Ha. unfold ret at 1.
    destruct ra as [row_idx edge_idx]. cbv beta iota.
    unfold bind at 1. unfold dict_get at 1. rewrite Hs. unfold ret at 1. cbv beta iota.
    unfold bind at 1. rewrite update_meta_model_other_cell by exact Hcell. reflexivity.
  - unfold ret at 1. cbv beta iota.
    unfold bind at 1 2. unfold get at 1. cbv beta iota.
    rewrite in_arange_true.
    + unfold bind at 1. unfold dict_get at 1. rewrite Ha. unfold ret at 1.
      destruct ra as [row_idx edge_idx]. cbv beta iota.
      unfold bind at 1. unfold dict_get at 1. rewrite Hs. unfold ret at 1. cbv beta iota.
      unfold bind at 1. rewrite update_meta_model_other_cell by exact Hcell. reflexivity.
    + unfold in_arange in Hin. apply andb_false_iff in Hin as [Hin | Hin].
      * apply Nat.leb_gt in Hin. lia.
      * apply Nat.ltb_ge in Hin. lia.
Qed.

Lemma step_mutation_other_cell_witness :
  step oracle0 3 env_reduce = Raise NotImplementedError env_reduce.
Proof.
  apply (step_mutation_other_cell oracle0 env_reduce 3 (0, 0) 0); try reflexivity.
  - discriminate.
  - simpl. lia.
Defined.

(** ** Starting an episode *)

Lemma lift_result_Ok {T} (r : result T) e a e' :
  lift_result r e = Ok a e' -> r = Return a /\ e' = e.
Proof.
  destruct r as [b | x]; simpl; [| discriminate].
  intros H. injection H as <- <-. auto.
Qed.

Lemma run_estimator_Ok o task e acc e' :
  run_estimator o task e = Ok acc e' ->
  e' = e /\ acc = estimated_acc o /\ task <> None /\ estimator_raises o = None.
Proof.
  unfold run_estimator. destruct task as [t|]; [| discriminate].
  destruct (estimator_raises o); [discriminate |].
  intros H. injection H as <- <-. auto.
Qed.

(** An estimator that returns has left the environment alone, had a task,
    and ran through; the predictor was handed a graph. *)
Lemma estimator_Ok o e acc e' :
  (if reward_estimation e then _meta_predictor_estimation o (current_task e)
   else _darts_estimation o (current_task e)) e = Ok acc e' ->
  e' = e /\ acc = estimated_acc o /\ current_task e <> None /\
  estimator_raises o = None /\
  (reward_estimation e = true ->
   exists geno edges g,
     parse (normalized_alphas e) 2 (PRIMITIVES_NAS_BENCH_201 o) = Return geno /\
     predictor_rows (primitives e) geno = Return edges /\
     decode_metad2a_to_igraph edges = Return g).
Proof.
  destruct (reward_estimation e) eqn:Hre.
  - unfold _meta_predictor_estimation. unfold bind at 1. unfold get at 1. cbv beta iota.
    intros H.
    apply bind_Ok in H as (geno & e1 & H1 & H). apply lift_result_Ok in H1 as [H1 ->].
    apply bind_Ok in H as (edges & e1 & H2 & H). apply lift_result_Ok in H2 as [H2 ->].
    apply bind_Ok in H as (g & e1 & H3 & H). apply lift_result_Ok in H3 as [H3 ->].
    apply run_estimator_Ok in H as (-> & -> & Ht & Ho).
    repeat split; try assumption. intros _. exists geno, edges, g. auto.
  - unfold _darts_estimation. intros H.
    apply run_estimator_Ok in H as (-> & -> & Ht & Ho).
    repeat split; try assumption. discriminate.
Qed.

(** What [compute_reward] has done when it returns. *)
Lemma compute_reward_Ok o e v e' :
  compute_reward o e = Ok v e' ->
  e' = e /\
  v = if negb (is_none (test_env e)) then RetScalar (uniform_draw o)
      else RetPair (scale_reward (baseline_acc e) (estimated_acc o)) (estimated_acc o).
Proof.
  unfold compute_reward. unfold bind at 1. unfold get at 1. cbv beta iota.
  destruct (negb (is_none (test_env e))); [intros H; injection H as <- <-; auto |].
  intros H. apply bind_Ok in H as (acc & e1 & Hest & H).
  apply estimator_Ok in Hest as (-> & -> & _).
  destruct (scale_reward_raises _ _); [discriminate |].
  injection H as <- <-. auto.
Qed.

(** Outside test mode it returns only with a task set, an estimator that
    ran through and no zero denominator. *)
Lemma compute_reward_pair o e v e' :
  compute_reward o e = Ok v e' -> test_env e = PyNone ->
  current_task e <> None /\ estimator_raises o = None /\
  scale_reward_raises (baseline_acc e) (estimated_acc o) = false.
Proof.
  unfold compute_reward. unfold bind at 1. unfold get at 1. cbv beta iota.
  intros H Ht. rewrite Ht in H. simpl in H.
  apply bind_Ok in H as (acc & e1 & Hest & H).
  apply estimator_Ok in Hest as (-> & -> & Htask & Ho & _).
  destruct (scale_reward_raises _ _); [discriminate | auto].
Qed.

(** The environment [reset] hands to the state encoder. *)
Lemma reset_inv (o : oracle) (e : NasEnv) (st : observation) (e' : NasEnv) :
  reset o e = Ok st e' ->
  exists an ar e1,
    meta_state e = Some (an, ar) /\
    test_env e = PyNone /\
    update_states
      (set_alpha_reduce ar (set_alpha_normal an
         (set_terminate_episode false (set_step_count 0 e)))) = Ok tt e1 /\
    states e1 !! 0 = Some st /\
    e' = set_baseline_acc (estimated_acc o)
           (set_current_state st (set_current_state_index 0 e1)) /\
    current_task e <> None /\ estimator_raises o = None.
Proof.
  unfold reset. unfold bind at 1. unfold get at 1. cbv beta iota.
  destruct (bool_decide (current_task e = None) && is_false (test_env e));
    [discriminate |].
  intros H.
  apply bind_Ok in H as ([] & e1 & H1 & H). injection H1 as <-.
  apply bind_Ok in H as ([] & e2 & H2 & H). injection H2 as <-.
  apply bind_Ok in H as ([] & e3 & H3 & H).
  apply bind_Ok in H as ([] & e4 & H4 & H).
  apply bind_Ok in H as ([] & e5 & H5 & H).
  apply bind_Ok in H as (v & e6 & H6 & H).
  apply bind_Ok in H as (ra & e7 & H7 & H).
  apply bind_Ok in H as ([] & e8 & H8 & H). injection H8 as <-.
  unfold bind, get, ret in H. injection H as <- <-.
  (* load_state_dict *)
  unfold load_meta_state in H3. unfold bind at 1 in H3. unfold get at 1 in H3.
  cbv beta iota in H3.
  assert (Hms : meta_state (set_terminate_episode false (set_step_count 0 e))
                = meta_state e) by (destruct e; reflexivity).
  rewrite Hms in H3.
  destruct (meta_state e) as [[an ar]|]; [| discriminate].
  unfold bind, modify in H3. injection H3 as <-.
  (* the start state *)
  unfold set_start_state in H5.
  apply bind_Ok in H5 as ([] & e5' & H5a & H5). injection H5a as <-.
  unfold bind at 1 in H5. unfold get at 1 in H5. cbv beta iota in H5.
  unfold bind, index in H5.
  assert (Hidx : current_state_index (set_current_state_index 0 e4) = 0)
    by (destruct e4; reflexivity).
  assert (Hst : states (set_current_state_index 0 e4) = states e4)
    by (destruct e4; reflexivity).
  rewrite Hidx, Hst in H5.
  destruct (states e4 !! 0) as [st0|] eqn:Hfirst; [| discriminate].
  unfold ret, modify in H5. injection H5 as <-.
  (* the reward *)
  assert (Htest : test_env (set_current_state st0 (set_current_state_index 0 e4))
                  = test_env e).
  { transitivity (test_env e4); [destruct e4; reflexivity |].
    pose proof (update_states_frame _ _ H4) as Hf.
    apply (f_equal test_env) in Hf.
    transitivity (test_env (clear_tables e4)); [destruct e4; reflexivity |].
    rewrite Hf. unfold encoder_start, clear_tables. destruct e; reflexivity. }
  assert (Htask : current_task (set_current_state st0 (set_current_state_index 0 e4))
                  = current_task e).
  { transitivity (current_task e4); [destruct e4; reflexivity |].
    pose proof (update_states_frame _ _ H4) as Hf.
    apply (f_equal current_task) in Hf.
    transitivity (current_task (clear_tables e4)); [destruct e4; reflexivity |].
    rewrite Hf. unfold encoder_start, clear_tables. destruct e; reflexivity. }
  pose proof (compute_reward_pair _ _ _ _ H6) as Hpair.
  rewrite Htest, Htask in Hpair.
  apply compute_reward_Ok in H6 as [-> ->]. rewrite Htest in H7.
  destruct (test_env e) eqn:Hte; simpl in H7;
    try (unfold unpack2, raise in H7; discriminate).
  unfold unpack2, ret in H7. injection H7 as <- <-.
  destruct (Hpair eq_refl) as (Hct & Hest & _).
  exists an, ar, e4.
  split; [reflexivity |]. split; [reflexivity |]. split; [exact H4 |].
  split; [rewrite Hfirst; destruct e4; reflexivity |].
  split; [simpl; destruct e4; reflexivity | auto].
Qed.

(** What a rebuild leaves alone. *)
Lemma update_states_keeps_rest (e e' : NasEnv) :
  update_states e = Ok tt e' ->
  config_of e' = config_of e /\ episode_of e' = episode_of e /\
  alpha_normal e' = alpha_normal e /\ alpha_reduce e' = alpha_reduce e /\
  terminate_episode e' = terminate_episode e /\
  current_state_index e' = current_state_index e /\
  current_state e' = current_state e.
Proof.
  intros H. apply update_states_frame in H.
  unfold encoder_start, clear_tables, config_of, episode_of in *.
  destruct e, e'; simpl in *. injection H as -> -> -> -> -> -> -> -> -> -> -> -> -> -> -> -> -> ->.
  subst. auto 10.
Qed.

Lemma encode_edge_first (x : observation) i tk j edge s :
  preserves (fun e => states e !! 0 = Some x) (encode_edge i tk j edge s).
Proof.
  intros e s' e' He H. apply encode_edge_run in H as (A_to & A_from & _ & _ & _ & ->).
  destruct e; simpl in *. apply lookup_app_l_Some. exact He.
Qed.

Lemma encode_node_first (x : observation) i edges s :
  preserves (fun e => states e !! 0 = Some x) (encode_node i edges s).
Proof.
  unfold encode_node.
  apply preserves_bind;
    [apply (preserves_of_keeps (fun e => states e !! 0) (Some x)), keeps_lift_opt
    | intros edge_max].
  apply preserves_bind;
    [apply (preserves_of_keeps (fun e => states e !! 0) (Some x)), keeps_lift_opt
    | intros tk].
  intros e s' e' He H.
  apply (for_enumerate_inv (fun e => states e !! 0 = Some x)) in H; [exact H | | exact He].
  intros n edge t f t' f' _ Hf Hrun. exact (encode_edge_first x _ _ _ _ _ f t' f' Hf Hrun).
Qed.

(** The table starts with the edge from the first input node to the first
    intermediate node. *)
Lemma update_states_first (e e' : NasEnv) (st : observation) :
  update_states e = Ok tt e' ->
  states e' !! 0 = Some st ->
  obs_from st = 0 /\ obs_to st = 2 /\
  exists raw, edge_at (selected_alpha e) 0 0 = Some raw /\ obs_ops st = softmax raw.
Proof.
  intros H Hst. apply update_states_inv in H as (_ & s & Hloop).
  destruct (selected_alpha e) as [|edges rest] eqn:Hsel.
  { simpl in Hloop. injection Hloop as _ <-.
    unfold encoder_start, clear_tables in Hst. destruct e; discriminate. }
  simpl in Hloop. apply bind_Ok in Hloop as (s1 & e1 & Hnode & Hrest).
  assert (Hfirst : exists raw, edge_at (edges :: rest) 0 0 = Some raw /\
            states e1 !! 0 = Some (mkObs 0 2 (obs_topk st) (obs_adj st) (softmax raw)) /\
            obs_from st = 0 /\ obs_to st = 2 /\ obs_ops st = softmax raw);
    [| destruct Hfirst as (raw & Hraw & _ & Hf & Ht & Ho); eauto].
  unfold encode_node in Hnode.
  apply bind_Ok in Hnode as (edge_max & e2 & Hmax & Hnode).
  apply bind_Ok in Hnode as (tk & e3 & Htk & Hnode).
  assert (e2 = encoder_start (edges :: rest) e) as ->.
  { unfold lift_opt in Hmax. destruct (mapM _ _); [injection Hmax as _ <- | discriminate].
    reflexivity. }
  assert (e3 = encoder_start (edges :: rest) e /\ edges <> []) as [-> Hne].
  { unfold lift_opt in Htk.
    destruct (snd <$> topk edge_max 2) eqn:Htop; [injection Htk as _ <- | discriminate].
    split; [reflexivity |]. intros ->. simpl in Hmax.
    unfold lift_opt, ret in Hmax. simpl in Hmax. injection Hmax as <-. discriminate. }
  destruct edges as [|raw more]; [congruence |].
  simpl in Hnode. apply bind_Ok in Hnode as (s2 & e4 & Hedge & Hmore).
  apply encode_edge_run in Hedge as (A_to & A_from & _ & _ & _ & ->).
  set (o1 := mkObs 0 (0 + 2) (bool_decide (0 ∈ tk)) A_to (softmax raw)) in *.
  assert (H1 : states e1 !! 0 = Some o1).
  { apply (for_enumerate_inv (fun e => states e !! 0 = Some o1)) in Hmore;
      [exact Hmore | |].
    - intros n edge t f t' f' _ Hf Hrun.
      exact (encode_edge_first o1 _ _ _ _ _ f t' f' Hf Hrun).
    - unfold encoder_start, clear_tables. destruct e; reflexivity. }
  assert (H2 : states e' !! 0 = Some o1).
  { apply (for_enumerate_inv (fun e => states e !! 0 = Some o1)) in Hrest;
      [exact Hrest | | exact H1].
    intros n edge t f t' f' _ Hf Hrun.
    exact (encode_node_first o1 _ _ _ f t' f' Hf Hrun). }
  rewrite Hst in H2. injection H2 as ->.
  exists raw. split; [reflexivity |]. split; [exact H1 |]. auto.
Qed.

(** X11.  What a [reset] that returns has done: it ran outside test mode,
    on an environment whose task and [meta_state] were set, with an
    estimator that ran through; the raw rows of the model are those of
    [meta_state], the step counter is 0 and the termination flag cleared,
    the agent stands on row 0 of the freshly built state table, which is the
    edge from input node 0 to the first intermediate node 2 and is the
    observation returned; the baseline is the accuracy just estimated; the
    configuration and the best accuracy are as before.  The list
    [max_alphas] holds the objects it held; those that are Parameters of
    the model now show the rows loaded from [meta_state]. *)
Theorem reset_returns (o : oracle) (e : NasEnv) (st : observation) (e' : NasEnv) :
  reset o e = Ok st e' ->
  test_env e = PyNone /\ current_task e <> None /\ estimator_raises o = None /\
  meta_state e = Some (alpha_normal e', alpha_reduce e') /\
  step_count e' = 0 /\ terminate_episode e' = false /\
  current_state_index e' = 0 /\ current_state e' = st /\
  states e' !! 0 = Some st /\ obs_from st = 0 /\ obs_to st = 2 /\
  baseline_acc e' = estimated_acc o /\
  config_of e' = config_of e /\ max_acc e' = max_acc e /\
  max_alphas e' = max_alphas e /\
  (forall n i ms, max_alphas e !! n = Some (Param i) -> meta_state e = Some ms ->
     row_value e' (Param i) = fst ms !! i).
Proof.
  intros H.
  apply reset_inv in H as (an & ar & e1 & Hms & Htest & Hup & Hst & -> & Htask & Hest).
  pose proof (update_states_first _ _ _ Hup Hst) as (Hfrom & Hto & _).
  apply update_states_keeps_rest in Hup as (Hc & He & Han & Har & Hterm & _ & _).
  unfold config_of, episode_of in *.
  destruct e1, e; simpl in *.
  injection Hc as -> -> -> -> -> -> -> ->. injection He as -> -> -> ->.
  subst.
  split; [reflexivity |]. split; [exact Htask |]. split; [exact Hest |].
  split; [reflexivity |]. split; [reflexivity |]. split; [reflexivity |].
  split; [reflexivity |]. split; [reflexivity |]. split; [exact Hst |].
  split; [exact Hfrom |]. split; [exact Hto |]. split; [reflexivity |].
  split; [reflexivity |]. split; [reflexivity |]. split; [reflexivity |].
  intros n i ms _ Hms'. injection Hms' as <-. reflexivity.
Qed.

Lemma update_states_small_uniform (e : NasEnv) :
  cell_type e = "normal"%string -> alpha_normal e = raw_uniform -> A e = adjacency 3 ->
  update_states e =
    Ok tt (set_edge_to_alpha (edge_to_alpha env_uniform_rebuilt)
             (set_edge_to_index (edge_to_index env_uniform_rebuilt)
                (set_states (states env_uniform_rebuilt)
                   (set_alphas raw_uniform
                      (set_normalized_alphas (map (map softmax) raw_uniform) e))))).
Proof.
  intros Hc Ha HA. rewrite update_states_unfold. rewrite Hc, Ha.
  cbn [String.eqb Ascii.eqb Bool.eqb].
  unfold raw_uniform, bind, softmax.
  cbn [map for_enumerate].
  unfold encode_node, bind, lift_opt.
  cbn [mapM]. rewrite !row_max_const3. cbn [mbind option_bind mret option_ret].
  unfold ret at 1. cbv beta iota.
  rewrite topk_two_equal. cbn [fmap option_fmap option_map snd].
  destruct e; simpl in *; subst. reflexivity.
Qed.

Lemma reset_env_task : reset oracle0 env_task = Ok obs_uniform_first env_task_reset.
Proof.
  unfold reset. unfold bind at 1. unfold get at 1. cbv beta.
  replace (bool_decide (current_task env_task = None) && is_false (test_env env_task))
    with false by reflexivity.
  unfold bind at 1. unfold modify at 1. cbv beta iota.
  unfold bind at 1. unfold modify at 1. cbv beta iota.
  unfold bind at 1. unfold load_meta_state at 1.
  unfold bind at 1. unfold get at 1. cbv beta iota.
  change (meta_state (set_terminate_episode false (set_step_count 0 env_task)))
    with (Some (raw_uniform, raw_uniform)).
  cbv beta iota. unfold bind at 1. unfold modify at 1 2. cbv beta iota.
  unfold bind at 1.
  rewrite update_states_small_uniform by reflexivity.
  unfold bind at 1.
  match goal with
  | |- context [set_start_state ?x] =>
      assert (Hs : set_start_state x
                   = Ok tt (set_current_state obs_uniform_first
                              (set_current_state_index 0 x))) by reflexivity;
      rewrite Hs
  end.
  unfold bind at 1.
  rewrite (compute_reward_darts oracle0 _ 0); try reflexivity.
  apply scale_reward_raises_unit; simpl; lra.
Qed.

Lemma reset_returns_witness :
  reset oracle0 env_task = Ok obs_uniform_first env_task_reset /\
  step_count env_task_reset = 0 /\
  obs_from obs_uniform_first = 0 /\ obs_to obs_uniform_first = 2 /\
  baseline_acc env_task_reset = estimated_acc oracle0.
Proof.
  split; [exact reset_env_task |].
  destruct (reset_returns oracle0 env_task _ _ reset_env_task)
    as (_ & _ & _ & _ & H1 & _ & _ & _ & _ & H2 & H3 & H4 & _).
  auto.
Defined.

(** ** Receiving a task *)

Lemma append_params_run (l : alpha) :
  forall k e,
    for_enumerate l k
      (fun i _ _ => modify (fun e => set_max_alphas (max_alphas e ++ [Param i]) e)) tt e
    = Ok tt (set_max_alphas (max_alphas e ++ imap (fun i _ => Param (k + i)) l) e).
Proof.
  induction l as [|row l IH]; intros k e; simpl.
  - rewrite app_nil_r. destruct e; reflexivity.
  - unfold bind, modify. rewrite IH.
    rewrite set_max_alphas_twice, max_alphas_set, <- app_assoc. simpl.
    rewrite Nat.add_0_r. do 4 f_equal.
    apply imap_ext. intros i x _. simpl.
    now replace (k + S i) with (S (k + i)) by lia.
Qed.

Lemma collect_max_alphas_run (e : NasEnv) :
  collect_max_alphas e
  = Ok tt (set_max_alphas (max_alphas e ++ params_of (alpha_normal e)) e).
Proof. unfold collect_max_alphas, bind, get. rewrite append_params_run. reflexivity. Qed.

(** Read through Parameters, the best rows are the rows of the model. *)
Lemma params_values (e : NasEnv) :
  max_alphas e = params_of (alpha_normal e) ->
  max_alphas_values e = Some (alpha_normal e).
Proof.
  intros H. unfold max_alphas_values. rewrite H. apply mapM_Some.
  apply Forall2_same_length_lookup_2.
  - unfold params_of. now rewrite length_imap.
  - intros i r v Hr Hv. unfold params_of in Hr. rewrite list_lookup_imap, Hv in Hr.
    injection Hr as <-. exact Hv.
Qed.

(** X12.  What a [set_task] that returns has done: the task and the
    meta-state are stored, the model carries the rows of the meta-state, the
    episode is reset (counter 0, flag cleared, agent on the edge from node 0
    to node 2, baseline the accuracy just estimated), the best accuracy of
    the trial is 0 and the best rows are the Parameters of the normal cell
    themselves, which show the raw rows as loaded. *)
Theorem set_task_returns (o : oracle) (task : nat) (ms : alpha * alpha) (e e' : NasEnv) :
  set_task o task ms e = Ok tt e' ->
  current_task e' = Some task /\ meta_state e' = Some ms /\
  alpha_normal e' = fst ms /\ alpha_reduce e' = snd ms /\
  max_acc e' = 0%R /\
  max_alphas e' = params_of (alpha_normal e') /\
  max_alphas_values e' = Some (alpha_normal e') /\
  step_count e' = 0 /\ terminate_episode e' = false /\
  baseline_acc e' = estimated_acc o /\
  states e' !! 0 = Some (current_state e') /\
  obs_from (current_state e') = 0 /\ obs_to (current_state e') = 2.
Proof.
  unfold set_task. intros H.
  apply bind_Ok in H as ([] & e1 & H1 & H). injection H1 as <-.
  apply bind_Ok in H as ([] & e2 & H2 & H). injection H2 as <-.
  apply bind_Ok in H as (st & e3 & Hreset & H).
  apply bind_Ok in H as ([] & e4 & H4 & H). injection H4 as <-.
  apply bind_Ok in H as ([] & e5 & H5 & H). injection H5 as <-.
  rewrite collect_max_alphas_run in H. injection H as <-.
  apply reset_inv in Hreset as (an & ar & e6 & Hms & _ & Hup & Hst & -> & _).
  pose proof (update_states_first _ _ _ Hup Hst) as (Hfrom & Hto & _).
  apply update_states_keeps_rest in Hup as (Hc & He & Han & Har & Hterm & _ & _).
  assert (Hms' : Some ms = Some (an, ar)) by (rewrite <- Hms; destruct e; reflexivity).
  injection Hms' as ->.
  assert (Hmax : forall f : NasEnv,
            max_alphas (set_max_alphas ([] ++ params_of (alpha_normal f)) f)
            = params_of (alpha_normal (set_max_alphas ([] ++ params_of (alpha_normal f)) f)))
    by (intros f; destruct f; reflexivity).
  split; [| split; [| split; [| split; [| split; [| split; [| split]]]]]];
    try (unfold config_of, episode_of in *; destruct e6, e; simpl in *;
         injection Hc as -> -> -> -> -> -> -> ->; injection He as -> -> -> ->;
         subst; reflexivity).
  - apply params_values.
    unfold config_of, episode_of in *; destruct e6, e; simpl in *.
    injection Hc as -> -> -> -> -> -> -> ->. injection He as -> -> -> ->.
    subst. reflexivity.
  - unfold config_of, episode_of in *; destruct e6, e; simpl in *.
    injection Hc as -> -> -> -> -> -> -> ->. injection He as -> -> -> ->.
    subst. auto 10.
Qed.

Lemma set_task_returns_witness :
  set_task oracle0 0 (raw_uniform, raw_uniform) env_no_task
    = Ok tt (set_max_alphas (params_of raw_uniform) (set_max_acc 0%R env_task_reset)) /\
  max_alphas_values
    (set_max_alphas (params_of raw_uniform) (set_max_acc 0%R env_task_reset))
    = Some raw_uniform /\
  step_count (set_max_alphas (params_of raw_uniform) (set_max_acc 0%R env_task_reset)) = 0.
Proof.
  assert (Hrun : set_task oracle0 0 (raw_uniform, raw_uniform) env_no_task
                 = Ok tt (set_max_alphas (params_of raw_uniform)
                            (set_max_acc 0%R env_task_reset))).
  { unfold set_task. unfold bind at 1. unfold modify at 1. cbv beta iota.
    unfold bind at 1. unfold modify at 1. cbv beta iota.
    unfold bind at 1.
    change (set_meta_state (Some (raw_uniform, raw_uniform))
              (set_current_task (Some 0) env_no_task)) with env_task.
    rewrite reset_env_task.
    unfold bind at 1. unfold modify at 1. cbv beta iota.
    unfold bind at 1. unfold modify at 1. cbv beta iota.
    rewrite collect_max_alphas_run. reflexivity. }
  split; [exact Hrun |].
  destruct (set_task_returns _ _ _ _ _ Hrun) as (_ & _ & _ & _ & _ & _ & Hm & Hs & _).
  split; [exact Hm | exact Hs].
Defined.

(** ** Test mode *)

Lemma keeps_test_env_update_meta_model b r ed op :
  keeps test_env (update_meta_model b r ed op).
Proof. unfold_env. unfold write_edge, edge_at, weight_at. keeps_auto. Qed.

Lemma keeps_test_env_update_states : keeps test_env update_states.
Proof. unfold_env. keeps_auto. Qed.

(** In test mode the reward cannot be unpacked. *)
Lemma reward_unpack_test_mode {T} (o : oracle) (k : R * R -> M T) (e : NasEnv) a e' :
  test_env e <> PyNone ->
  (v <- compute_reward o ;; ra <- unpack2 v ;; k ra) e <> Ok a e'.
Proof.
  intros Htest H. apply bind_Ok in H as (v & e1 & Hv & H).
  apply bind_Ok in H as (ra & e2 & Hra & _).
  unfold compute_reward, bind, get in Hv.
  destruct (test_env e); [congruence | |]; simpl in Hv;
    injection Hv as <- <-; discriminate.
Qed.

Lemma mutate_branch_test_mode o b lo d l e l' e' :
  test_env e <> PyNone ->
  in_arange lo (lo + n_ops e) (l_action l) = true ->
  mutate_branch o b lo d l e <> Ok l' e'.
Proof.
  intros Htest Hin H. unfold mutate_branch in H.
  unfold bind at 1 in H. unfold get at 1 in H. cbv beta iota in H.
  destruct l as [action ai reward acc cur next]. simpl in Hin. rewrite Hin in H.
  apply bind_Ok in H as ([row_idx edge_idx] & e1 & H1 & H).
  apply (keeps_dict_get test_env) in H1.
  apply bind_Ok in H as (s_idx & e2 & H2 & H).
  apply (keeps_dict_get test_env) in H2.
  apply bind_Ok in H as (update & e3 & H3 & H).
  apply keeps_test_env_update_meta_model in H3.
  apply bind_Ok in H as ([] & e4 & H4 & H).
  assert (Hu : test_env e4 = test_env e3).
  { destruct update; [exact (keeps_test_env_update_states _ _ _ H4) |].
    injection H4 as <-. reflexivity. }
  unfold bind at 1 in H. unfold get at 1 in H. cbv beta iota in H.
  apply bind_Ok in H as (st & e5 & H5 & H).
  apply (keeps_index test_env) in H5.
  apply bind_Ok in H as ([] & e6 & H6 & H). injection H6 as <-.
  revert H. apply reward_unpack_test_mode.
  replace (test_env (set_current_state st e5)) with (test_env e5)
    by (destruct e5; reflexivity).
  congruence.
Qed.

(** X13.  With a test environment set, no increase or decrease action ever
    comes back from [step]: whatever the tables and the rows, the call ends
    in an exception (at the latest the [TypeError] of unpacking the bare
    number [compute_reward] returns in test mode). *)
Theorem step_mutation_test_mode (o : oracle) (e : NasEnv) (action : nat) :
  test_env e <> PyNone ->
  length (A e) <= action < length (A e) + 2 * n_ops e ->
  exists x e', step o action e = Raise x e'.
Proof.
  intros Htest Hrange.
  destruct (step o action e) as [[[[st r] done] info] e' | x e'] eqn:Hstep; [| eauto].
  exfalso. apply step_inv in Hstep as (ai & acc & e1 & _ & Hp & _).
  unfold _perform_action in Hp.
  unfold bind at 1 in Hp. unfold get at 1 in Hp. cbv beta iota zeta in Hp.
  unfold bind at 1 in Hp. unfold traverse_branch at 1 in Hp.
  unfold bind at 1 in Hp. unfold get at 1 in Hp. cbv beta iota in Hp.
  rewrite (in_arange_above 0 (length (A e))) in Hp by lia.
  unfold ret at 1 in Hp. cbv beta iota in Hp.
  apply bind_Ok in Hp as (l2 & e2 & Hinc & Hp).
  destruct (in_arange (length (A e)) (length (A e) + n_ops e) action) eqn:Hin.
  { revert Hinc. apply mutate_branch_test_mode; assumption. }
  assert (l2 = mkLocals action NoInfo 0%R None (obs_from (current_state e))
                 (obs_to (current_state e)) /\ e2 = e) as [-> ->].
  { unfold mutate_branch, bind, get in Hinc. rewrite Hin in Hinc.
    injection Hinc as <- <-. auto. }
  apply bind_Ok in Hp as (l3 & e3 & Hdec & _).
  revert Hdec. apply mutate_branch_test_mode; [assumption |].
  apply in_arange_true. simpl.
  unfold in_arange in Hin. apply andb_false_iff in Hin as [Hin | Hin].
  - apply Nat.leb_gt in Hin. lia.
  - apply Nat.ltb_ge in Hin. lia.
Qed.

Lemma step_mutation_test_mode_witness :
  exists x e', step oracle0 4 env_test_mode = Raise x e'.
Proof.
  apply (step_mutation_test_mode oracle0 env_test_mode 4).
  - discriminate.
  - simpl. lia.
Defined.

(** ** The tables between two steps *)

Lemma encode_edge_transfer i tk j edge s e s' e' e2 :
  encode_edge i tk j edge s e = Ok s' e' -> A e2 = A e ->
  encode_edge i tk j edge s (with_tables e e2) = Ok s' (with_tables e' e2).
Proof.
  intros H HA. apply encode_edge_run in H as (A_to & A_from & Hto & Hfrom & -> & ->).
  unfold encode_edge, update_edge_to_index, update_edge_to_alpha, update_states_attr,
    with_tables.
  destruct e, e2; simpl in *; subst. run_monad.
  rewrite Hto. simpl. rewrite Hfrom. simpl. rewrite <- app_assoc. reflexivity.
Qed.

Lemma for_enumerate_transfer {T} (body : nat -> T -> nat -> M nat) (e2 : NasEnv) :
  (forall k x s, keeps A (body k x s)) ->
  (forall k x s e s' e', body k x s e = Ok s' e' -> A e2 = A e ->
     body k x s (with_tables e e2) = Ok s' (with_tables e' e2)) ->
  forall l k s e s' e',
    for_enumerate l k body s e = Ok s' e' -> A e2 = A e ->
    for_enumerate l k body s (with_tables e e2) = Ok s' (with_tables e' e2).
Proof.
  intros HkA Hb. induction l as [|x l IH]; intros k s e s' e' H HA; simpl in *.
  - injection H as <- <-. reflexivity.
  - apply bind_Ok in H as (s1 & e1 & Hx & H).
    unfold bind. rewrite (Hb _ _ _ _ _ _ Hx HA).
    apply IH; [exact H |]. rewrite HA. symmetry. exact (HkA _ _ _ _ _ _ Hx).
Qed.

Lemma encode_node_transfer i edges s e s' e' e2 :
  encode_node i edges s e = Ok s' e' -> A e2 = A e ->
  encode_node i edges s (with_tables e e2) = Ok s' (with_tables e' e2).
Proof.
  intros H HA. unfold encode_node in *. unfold bind, lift_opt in *.
  destruct (mapM row_max edges) as [edge_max|]; [| discriminate].
  unfold ret at 1 in H. unfold ret at 1. cbv beta iota in *.
  destruct (snd <$> topk edge_max 2) as [tk|]; [| discriminate].
  unfold ret at 1 in H. unfold ret at 1. cbv beta iota in *.
  apply (for_enumerate_transfer (encode_edge i tk) e2); try assumption.
  - intros; apply keeps_A_encode_edge.
  - intros; now apply encode_edge_transfer.
Qed.

(** The tables a rebuild computes depend on the cell type, the raw rows
    and the graph only. *)
Lemma update_states_transfer e e' e2 :
  update_states e = Ok tt e' ->
  cell_type e2 = cell_type e -> alpha_normal e2 = alpha_normal e ->
  alpha_reduce e2 = alpha_reduce e -> A e2 = A e ->
  update_states e2 =
    Ok tt (with_tables e'
             (set_alphas (alphas e') (set_normalized_alphas (normalized_alphas e') e2))).
Proof.
  intros H Hc Han Har HA.
  destruct (update_states_normalized e e' H) as (Hn & Hal & _).
  assert (Hsel : selected_alpha e2 = selected_alpha e)
    by (unfold selected_alpha; now rewrite Hc, Han, Har).
  apply update_states_inv in H as (Hcell & s & Hloop).
  apply (for_enumerate_transfer encode_node
           (set_alphas (selected_alpha e)
              (set_normalized_alphas (map (map softmax) (selected_alpha e)) e2))) in Hloop.
  - rewrite update_states_unfold.
    assert (Hstart : forall a, encoder_start a e2 =
              with_tables (encoder_start a e)
                (set_alphas a (set_normalized_alphas (map (map softmax) a) e2))).
    { intros a. unfold encoder_start, clear_tables, with_tables.
      destruct e, e2; reflexivity. }
    rewrite Hn, Hal.
    unfold selected_alpha in *. rewrite Hc, Han, Har.
    destruct Hcell as [Hcn | Hcr].
    + rewrite Hcn in *. simpl in *. unfold bind.
      rewrite Hstart, Hloop. reflexivity.
    + rewrite Hcr in *. simpl in *. unfold bind.
      rewrite Hstart, Hloop. reflexivity.
  - intros; apply keeps_A_encode_node.
  - intros; now apply encode_node_transfer.
  - unfold encoder_start, clear_tables. destruct e, e2; simpl in *. congruence.
Qed.

Lemma up_to_date_ext (e e2 : NasEnv) :
  tables_of e2 = tables_of e -> up_to_date e -> up_to_date e2.
Proof.
  unfold up_to_date, tables_of. intros Heq H.
  injection Heq as Hc Han Har HA Hst Hi Ha Hn Hal.
  rewrite (update_states_transfer e e e2 H Hc Han Har HA). f_equal.
  unfold with_tables. destruct e, e2; simpl in *. subst. reflexivity.
Qed.

Lemma preserves_up_to_date {T} (m : M T) : keeps tables_of m -> preserves up_to_date m.
Proof. intros Hk e a e' He H. apply (up_to_date_ext e); [exact (Hk e a e' H) | exact He]. Qed.

Lemma index_Ok {T} (l : list T) (i : nat) e x e' :
  index l i e = Ok x e' -> l !! i = Some x /\ e' = e.
Proof.
  unfold index. destruct (l !! i); [| discriminate].
  intros H. injection H as <- <-. auto.
Qed.

Lemma increase_op_unchanged row edge op prob e e' :
  increase_op row edge op prob e = Ok false e' -> e' = e.
Proof.
  unfold increase_op. intros H.
  unfold bind at 1 in H. unfold get at 1 in H. cbv beta iota in H.
  apply bind_Ok in H as (node & e1 & H1 & H). apply index_Ok in H1 as [_ ->].
  apply bind_Ok in H as (curr_edge & e2 & H2 & H). apply index_Ok in H2 as [_ ->].
  apply bind_Ok in H as (curr_op & e3 & H3 & H). apply index_Ok in H3 as [_ ->].
  destruct (Rlt_dec _ _); [| injection H as <-; reflexivity].
  apply bind_Ok in H as ([] & e4 & _ & H).
  apply bind_Ok in H as ([] & e5 & _ & H).
  apply bind_Ok in H as ([] & e6 & _ & H). discriminate.
Qed.

Lemma decrease_op_unchanged row edge op prob e e' :
  decrease_op row edge op prob e = Ok false e' -> e' = e.
Proof.
  unfold decrease_op. intros H.
  unfold bind at 1 in H. unfold get at 1 in H. cbv beta iota in H.
  apply bind_Ok in H as (node & e1 & H1 & H). apply index_Ok in H1 as [_ ->].
  apply bind_Ok in H as (curr_edge & e2 & H2 & H). apply index_Ok in H2 as [_ ->].
  apply bind_Ok in H as (curr_op & e3 & H3 & H). apply index_Ok in H3 as [_ ->].
  destruct (Rgt_dec _ _); [| injection H as <-; reflexivity].
  apply bind_Ok in H as ([] & e4 & _ & H).
  apply bind_Ok in H as ([] & e5 & _ & H).
  apply bind_Ok in H as ([] & e6 & _ & H). discriminate.
Qed.

Lemma update_meta_model_inv b row edge op e u e' :
  update_meta_model b row edge op e = Ok u e' ->
  cell_type e = "normal"%string /\
  (if b then increase_op row edge op 0.3 e else decrease_op row edge op 0.3 e) = Ok u e'.
Proof.
  unfold update_meta_model, bind, get. 
  destruct (String.eqb (cell_type e) "normal") eqn:Hc.
  - apply String.eqb_eq in Hc. destruct b; auto.
  - destruct (String.eqb (cell_type e) "reduce"); discriminate.
Qed.

Lemma update_meta_model_unchanged b row edge op e e' :
  update_meta_model b row edge op e = Ok false e' -> e' = e.
Proof.
  intros H. apply update_meta_model_inv in H as [_ H].
  destruct b; [eapply increase_op_unchanged | eapply decrease_op_unchanged]; eauto.
Qed.

Lemma dict_get_Ok {V} (d : gmap (nat * nat) V) k e v e' :
  dict_get d k e = Ok v e' -> d !! k = Some v /\ e' = e.
Proof.
  unfold dict_get. destruct (d !! k); [| discriminate].
  intros H. injection H as <- <-. auto.
Qed.

(** What a mutation branch that fires and returns has done. *)
Lemma mutate_branch_inv o b lo d l e l' e' :
  mutate_branch o b lo d l e = Ok l' e' ->
  in_arange lo (lo + n_ops e) (l_action l) = true ->
  exists row_idx edge_idx s_idx update e1 e2 st,
    edge_to_alpha e !! (l_cur_node l, l_next_node l) = Some (row_idx, edge_idx) /\
    edge_to_index e !! (l_cur_node l, l_next_node l) = Some s_idx /\
    update_meta_model b row_idx edge_idx (l_action l - lo) e = Ok update e1 /\
    (if update then update_states e1 = Ok tt e2 else e2 = e1) /\
    states e2 !! s_idx = Some st /\
    e' = set_current_state st e2 /\
    test_env e2 = PyNone /\
    l' = mkLocals (l_action l - lo) (d row_idx edge_idx (l_action l - lo))
           (scale_reward (baseline_acc e2) (estimated_acc o)) (Some (estimated_acc o))
           (l_cur_node l) (l_next_node l).
Proof.
  intros H Hin. unfold mutate_branch in H.
  unfold bind at 1 in H. unfold get at 1 in H. cbv beta iota in H.
  destruct l as [action ai reward acc cur next]. simpl in *. rewrite Hin in H.
  apply bind_Ok in H as ([row_idx edge_idx] & e0 & H1 & H).
  apply dict_get_Ok in H1 as [H1 ->].
  apply bind_Ok in H as (s_idx & e0 & H2 & H). apply dict_get_Ok in H2 as [H2 ->].
  apply bind_Ok in H as (update & e1 & H3 & H).
  apply bind_Ok in H as ([] & e2 & H4 & H).
  unfold bind at 1 in H. unfold get at 1 in H. cbv beta iota in H.
  apply bind_Ok in H as (st & e0 & H5 & H). apply index_Ok in H5 as [H5 ->].
  apply bind_Ok in H as ([] & e0 & H6 & H). injection H6 as <-.
  apply bind_Ok in H as (v & e0 & H7 & H). apply compute_reward_Ok in H7 as [-> ->].
  apply bind_Ok in H as ([r a] & e0 & H8 & H).
  assert (Hte : test_env (set_current_state st e2) = test_env e2)
    by (destruct e2; reflexivity).
  assert (Hba : baseline_acc (set_current_state st e2) = baseline_acc e2)
    by (destruct e2; reflexivity).
  rewrite Hte, Hba in H8.
  destruct (test_env e2) eqn:Htest; simpl in H8; try discriminate.
  injection H8 as <- <- <-. injection H as <- <-.
  exists row_idx, edge_idx, s_idx, update, e1, e2, st.
  split; [exact H1 |]. split; [exact H2 |]. split; [exact H3 |].
  split; [destruct update; [exact H4 | injection H4 as <-; reflexivity] |].
  auto.
Qed.

Lemma mutate_branch_up_to_date o b lo d l :
  preserves up_to_date (mutate_branch o b lo d l).
Proof.
  intros e l' e' He H.
  destruct (in_arange lo (lo + n_ops e) (l_action l)) eqn:Hin.
  - apply mutate_branch_inv in H
      as (row & edge & s & update & e1 & e2 & st & _ & _ & Hu & Hre & _ & -> & _);
      [| exact Hin].
    assert (H2 : up_to_date e2).
    { destruct update.
      - exact (update_states_idempotent _ _ Hre).
      - subst e2. apply update_meta_model_unchanged in Hu. now subst e1. }
    apply (up_to_date_ext e2); [destruct e2; reflexivity | exact H2].
  - unfold mutate_branch, bind, get in H. destruct l. simpl in Hin.
    rewrite Hin in H. injection H as _ <-. exact He.
Qed.

Lemma perform_action_up_to_date o action :
  preserves up_to_date (_perform_action o action).
Proof.
  unfold _perform_action.
  apply preserves_bind; [apply preserves_up_to_date, keeps_get | intros e0].
  apply preserves_bind;
    [apply preserves_up_to_date; unfold_env; keeps_auto | intros l1].
  apply preserves_bind; [apply mutate_branch_up_to_date | intros l2].
  apply preserves_bind; [apply mutate_branch_up_to_date | intros l3].
  apply preserves_bind;
    [apply preserves_up_to_date; unfold_env; keeps_auto | intros l4].
  apply preserves_up_to_date, keeps_ret.
Qed.

(** X14.  [reset] and [set_task] leave the tables up to date: when they
    return, the state table, both dictionaries and both views are exactly
    what a rebuild computes from the rows the model now carries. *)
Theorem reset_tables_up_to_date (o : oracle) (e : NasEnv) :
  (forall st e', reset o e = Ok st e' -> up_to_date e') /\
  (forall task ms e', set_task o task ms e = Ok tt e' -> up_to_date e').
Proof.
  assert (Hreset : forall e st e', reset o e = Ok st e' -> up_to_date e').
  { clear e. intros e st e' H.
    apply reset_inv in H as (an & ar & e1 & _ & _ & Hup & _ & -> & _).
    apply update_states_idempotent in Hup.
    apply (up_to_date_ext e1); [destruct e1; reflexivity | exact Hup]. }
  split; [apply Hreset |].
  intros task ms e' H. unfold set_task in H.
  apply bind_Ok in H as ([] & e1 & H1 & H). injection H1 as <-.
  apply bind_Ok in H as ([] & e2 & H2 & H). injection H2 as <-.
  apply bind_Ok in H as (st & e3 & Hr & H). apply Hreset in Hr.
  apply bind_Ok in H as ([] & e4 & H4 & H). injection H4 as <-.
  apply bind_Ok in H as ([] & e5 & H5 & H). injection H5 as <-.
  rewrite collect_max_alphas_run in H. injection H as <-.
  apply (up_to_date_ext e3); [destruct e3; reflexivity | exact Hr].
Qed.

Lemma reset_tables_up_to_date_witness :
  reset oracle0 env_task = Ok obs_uniform_first env_task_reset /\
  up_to_date env_task_reset.
Proof.
  split; [exact reset_env_task |].
  exact (proj1 (reset_tables_up_to_date oracle0 env_task) _ _ reset_env_task).
Defined.

(** X15.  [step] keeps the tables up to date: on an environment whose
    tables are those of a rebuild, whatever the action, a step that returns
    leaves tables that are again those of a rebuild of the rows the model
    then carries.  The tables are never stale between two steps. *)
Theorem step_keeps_tables_up_to_date (o : oracle) (action : nat) (e : NasEnv)
    (r : observation * R * bool * info_dict) (e' : NasEnv) :
  up_to_date e -> step o action e = Ok r e' -> up_to_date e'.
Proof.
  revert e r e'. change (preserves up_to_date (step o action)).
  unfold step.
  apply preserves_bind; [apply perform_action_up_to_date | intros [[ai reward] acc]].
  apply preserves_up_to_date. unfold record_best. keeps_auto.
Qed.

Lemma env_task_reset_last_action :
  step oracle0 9 env_task_reset =
    Ok (obs_uniform_first, 0%R, true, mkInfo 1 9 (Terminate 0) None 0)
       (set_step_count 1 (set_terminate_episode true env_task_reset)).
Proof. reflexivity. Qed.

Lemma step_keeps_tables_up_to_date_witness :
  up_to_date env_task_reset /\
  step oracle0 9 env_task_reset =
    Ok (obs_uniform_first, 0%R, true, mkInfo 1 9 (Terminate 0) None 0)
       (set_step_count 1 (set_terminate_episode true env_task_reset)) /\
  up_to_date (set_step_count 1 (set_terminate_episode true env_task_reset)).
Proof.
  assert (Hup : up_to_date env_task_reset).
  { unfold up_to_date. rewrite update_states_small_uniform by reflexivity. reflexivity. }
  split; [exact Hup |]. split; [exact env_task_reset_last_action |].
  exact (step_keeps_tables_up_to_date oracle0 9 env_task_reset _ _ Hup
           env_task_reset_last_action).
Defined.

(** ** The tables and the shape of the cell *)

Lemma encode_edges_tables i tk edges :
  forall j s e s' e',
    for_enumerate edges j (encode_edge i tk) s e = Ok s' e' ->
    s' = s + 2 * length edges /\
    edge_to_index e' = index_edges i (length edges) j s (edge_to_index e) /\
    edge_to_alpha e' = alpha_edges i (length edges) j (edge_to_alpha e).
Proof.
  induction edges as [|edge edges IH]; intros j s e s' e' H; simpl in H.
  - injection H as <- <-. simpl. auto with lia.
  - apply bind_Ok in H as (s1 & e1 & Hx & H).
    apply encode_edge_run in Hx as (A_to & A_from & _ & _ & -> & ->).
    apply IH in H as (-> & -> & ->). simpl.
    split; [lia |]. destruct e; auto.
Qed.

Lemma encode_node_tables i edges s e s' e' :
  encode_node i edges s e = Ok s' e' ->
  s' = s + 2 * length edges /\
  edge_to_index e' = index_edges i (length edges) 0 s (edge_to_index e) /\
  edge_to_alpha e' = alpha_edges i (length edges) 0 (edge_to_alpha e).
Proof.
  intros H. unfold encode_node in H.
  apply bind_Ok in H as (edge_max & e1 & Hmax & H).
  apply bind_Ok in H as (tk & e2 & Htk & Hloop).
  unfold lift_opt in Hmax, Htk.
  destruct (mapM row_max edges); [| discriminate]. injection Hmax as _ <-.
  destruct (snd <$> topk edge_max 2); [| discriminate]. injection Htk as _ <-.
  exact (encode_edges_tables i tk edges 0 s e s' e' Hloop).
Qed.

Lemma encode_nodes_tables nodes :
  forall i s e s' e',
    for_enumerate nodes i encode_node s e = Ok s' e' ->
    edge_to_index e' = index_nodes (map length nodes) i s (edge_to_index e) /\
    edge_to_alpha e' = alpha_nodes (map length nodes) i (edge_to_alpha e).
Proof.
  induction nodes as [|edges nodes IH]; intros i s e s' e' H; simpl in H.
  - injection H as _ <-. auto.
  - apply bind_Ok in H as (s1 & e1 & Hx & H).
    apply encode_node_tables in Hx as (-> & Hi & Ha).
    apply IH in H as (-> & ->). simpl. now rewrite Hi, Ha.
Qed.

Lemma rebuild_tables_of_shape e e' :
  update_states e = Ok tt e' ->
  edge_to_index e' = index_nodes (map length (selected_alpha e)) 0 0 ∅ /\
  edge_to_alpha e' = alpha_nodes (map length (selected_alpha e)) 0 ∅.
Proof.
  intros H. apply update_states_inv in H as (_ & s & Hloop).
  apply encode_nodes_tables in Hloop as (-> & ->).
  rewrite map_map.
  rewrite (map_ext (fun x => length (map softmax x)) length)
    by (intros; apply length_map).
  unfold encoder_start, clear_tables. destruct e; auto.
Qed.

(** X16.  The two dictionaries a rebuild computes depend on the shape of
    the cell only, the number of incoming edges of each node, and not on any
    weight: two rebuilds of cells of the same shape give the same
    [edge_to_index] and the same [edge_to_alpha].  A mutation, which
    rewrites one row of weights in place, never moves an edge to another
    table row. *)
Theorem tables_depend_on_shape (e1 e1' e2 e2' : NasEnv) :
  update_states e1 = Ok tt e1' ->
  update_states e2 = Ok tt e2' ->
  map length (selected_alpha e1) = map length (selected_alpha e2) ->
  edge_to_index e1' = edge_to_index e2' /\ edge_to_alpha e1' = edge_to_alpha e2'.
Proof.
  intros H1 H2 Hshape.
  apply rebuild_tables_of_shape in H1 as (-> & ->).
  apply rebuild_tables_of_shape in H2 as (-> & ->).
  now rewrite Hshape.
Qed.

Lemma update_states_env_const (c : R) : update_states (env_const c) = Ok tt (env_const c).
Proof.
  rewrite update_states_unfold.
  change (cell_type (env_const c)) with "normal"%string.
  cbn [String.eqb Ascii.eqb Bool.eqb].
  change (alpha_normal (env_const c)) with (raw_const c).
  unfold raw_const, bind, softmax.
  cbn [map for_enumerate].
  unfold encode_node, bind, lift_opt.
  cbn [mapM]. rewrite !row_max_const3. cbn [mbind option_bind mret option_ret].
  unfold ret at 1. cbv beta iota.
  rewrite topk_two_equal. cbn [fmap option_fmap option_map snd].
  reflexivity.
Qed.

Lemma tables_depend_on_shape_witness :
  update_states (env_const 0) = Ok tt (env_const 0) /\
  update_states (env_const 1) = Ok tt (env_const 1) /\
  edge_to_index (env_const 0) = edge_to_index (env_const 1) /\
  edge_to_alpha (env_const 0) = edge_to_alpha (env_const 1).
Proof.
  split; [apply update_states_env_const |]. split; [apply update_states_env_const |].
  apply (tables_depend_on_shape (env_const 0) (env_const 0) (env_const 1) (env_const 1)).
  - apply update_states_env_const.
  - apply update_states_env_const.
  - reflexivity.
Defined.

(** ** A mutation step *)

Lemma keeps_config_mutate_branch o b lo d l : keeps config_of (mutate_branch o b lo d l).
Proof. unfold_env. keeps_auto. Qed.

Lemma mutate_branch_skip o b lo d l e :
  in_arange lo (lo + n_ops e) (l_action l) = false ->
  mutate_branch o b lo d l e = Ok l e.
Proof.
  intros Hin. unfold mutate_branch, bind, get. destruct l. simpl in Hin.
  now rewrite Hin.
Qed.

Lemma terminate_branch_skip l e :
  l_action l < length (A e) + 2 * n_ops e ->
  terminate_branch l e = Ok l e.
Proof.
  intros Hlt. unfold terminate_branch, bind, get. destruct l. simpl in Hlt.
  now rewrite in_arange_below by exact Hlt.
Qed.

(** What [_perform_action] has done when an increase or decrease action
    returns: [b] tells which of the two branches fired and [lo] is its
    offset. *)
Lemma perform_mutation_inv o action e ai r acc e' :
  _perform_action o action e = Ok (ai, r, acc) e' ->
  length (A e) <= action < length (A e) + 2 * n_ops e ->
  let b := action <? length (A e) + n_ops e in
  let lo := if b then length (A e) else length (A e) + n_ops e in
  exists row_idx edge_idx s_idx update e1 e2 st,
    edge_to_alpha e !! (obs_from (current_state e), obs_to (current_state e))
      = Some (row_idx, edge_idx) /\
    edge_to_index e !! (obs_from (current_state e), obs_to (current_state e))
      = Some s_idx /\
    update_meta_model b row_idx edge_idx (action - lo) e = Ok update e1 /\
    (if update then update_states e1 = Ok tt e2 else e2 = e1) /\
    states e2 !! s_idx = Some st /\
    e' = set_current_state st e2 /\
    test_env e2 = PyNone /\
    ai = (if b then IncreaseAlpha else DecreaseAlpha) row_idx edge_idx (action - lo) /\
    r = scale_reward (baseline_acc e2) (estimated_acc o) /\
    acc = Some (estimated_acc o).
Proof.
  intros H Hrange. unfold _perform_action in H.
  unfold bind at 1 in H. unfold get at 1 in H. cbv beta iota zeta in H.
  unfold bind at 1 in H. unfold traverse_branch at 1 in H.
  unfold bind at 1 in H. unfold get at 1 in H. cbv beta iota in H.
  rewrite (in_arange_above 0 (length (A e))) in H by lia.
  unfold ret at 1 in H. cbv beta iota in H.
  apply bind_Ok in H as (l2 & e2 & Hinc & H).
  apply bind_Ok in H as (l3 & e3 & Hdec & H).
  apply bind_Ok in H as (l4 & e4 & Hterm & H).
  injection H as <- <- <- <-.
  destruct (Nat.ltb_spec action (length (A e) + n_ops e)) as [Hlt | Hge]; cbv zeta.
  - (* the increase branch fires *)
    pose proof (keeps_config_mutate_branch _ _ _ _ _ _ _ _ Hinc) as Hc.
    apply mutate_branch_inv in Hinc
      as (row & edge & s & update & f1 & f2 & st & Ha & Hs & Hu & Hre & Hst & -> & Hte & ->);
      [| apply in_arange_true; simpl; lia].
    assert (HA : A (set_current_state st f2) = A e /\ n_ops (set_current_state st f2) = n_ops e)
      by (unfold config_of in Hc; split; congruence).
    destruct HA as [HA Hn].
    rewrite mutate_branch_skip in Hdec
      by (apply in_arange_below; simpl; lia).
    injection Hdec as <- <-.
    rewrite terminate_branch_skip in Hterm by (rewrite HA, Hn; simpl; lia).
    injection Hterm as <- <-. simpl in *.
    exists row, edge, s, update, f1, f2, st. auto 12.
  - (* the decrease branch fires *)
    rewrite mutate_branch_skip in Hinc by (apply in_arange_above; simpl; lia).
    injection Hinc as <- <-.
    pose proof (keeps_config_mutate_branch _ _ _ _ _ _ _ _ Hdec) as Hc.
    apply mutate_branch_inv in Hdec
      as (row & edge & s & update & f1 & f2 & st & Ha & Hs & Hu & Hre & Hst & -> & Hte & ->);
      [| apply in_arange_true; simpl; lia].
    assert (HA : A (set_current_state st f2) = A e /\ n_ops (set_current_state st f2) = n_ops e)
      by (unfold config_of in Hc; split; congruence).
    destruct HA as [HA Hn].
    rewrite terminate_branch_skip in Hterm by (rewrite HA, Hn; simpl; lia).
    injection Hterm as <- <-. simpl in *.
    exists row, edge, s, update, f1, f2, st. auto 12.
Qed.

Lemma keeps_record_best acc :
  keeps (fun e => (current_state e, tables_of e, test_env e)) (record_best acc).
Proof. unfold record_best. keeps_auto. Qed.

Lemma keeps_update_meta_model b r ed op :
  keeps (fun e => (config_of e, episode_of e)) (update_meta_model b r ed op).
Proof. unfold_env. unfold write_edge, edge_at, weight_at. keeps_auto. Qed.

(** A mutation that went through leaves the shape of the cell as it was. *)
Lemma update_meta_model_shape b row edge op e e1 :
  update_meta_model b row edge op e = Ok true e1 ->
  map length (selected_alpha e1) = map length (selected_alpha e).
Proof.
  intros H. apply update_meta_model_inv in H as [Hc H].
  assert (Hmut : exists node anode new,
            alpha_normal e !! row = Some anode /\
            e1 = mutated e row edge node anode new).
  { destruct b.
    - apply increase_op_inv in H as (node & ce & x & anode & _ & _ & _ & Ha & _ & _ & ->).
      eauto.
    - apply decrease_op_inv in H as (node & ce & x & anode & _ & _ & _ & Ha & _ & _ & ->).
      eauto. }
  destruct Hmut as (node & anode & new & Ha & ->).
  unfold selected_alpha. rewrite mutated_cell_type, Hc. simpl.
  rewrite mutated_alpha_normal.
  change (map length) with (fmap (M := list) (length (A := list R))).
  rewrite list_fmap_insert, length_insert.
  apply list_insert_id. now rewrite list_lookup_fmap, Ha.
Qed.

(** X17.  On up-to-date tables, an increase or decrease action that comes
    back from [step] leaves the agent on the edge it stood on: the
    observation returned is the row of the rebuilt state table at the index
    the edge had before the mutation, and that row is still the edge between
    the same two nodes; both dictionaries are unchanged.  The reward is the
    estimated accuracy scaled against the baseline of before the step, and
    the accuracy is reported.  Such a step only returns in the normal cell
    and outside test mode. *)
Theorem step_mutation_stays_on_edge (o : oracle) (e : NasEnv) (action : nat)
    (st : observation) (r : R) (done : bool) (info : info_dict) (e' : NasEnv) :
  up_to_date e ->
  length (A e) <= action < length (A e) + 2 * n_ops e ->
  step o action e = Ok (st, r, done, info) e' ->
  obs_from st = obs_from (current_state e) /\
  obs_to st = obs_to (current_state e) /\
  edge_to_index e' = edge_to_index e /\ edge_to_alpha e' = edge_to_alpha e /\
  (exists s,
     edge_to_index e !! (obs_from (current_state e), obs_to (current_state e)) = Some s /\
     states e' !! s = Some st) /\
  r = scale_reward (baseline_acc e) (estimated_acc o) /\
  info_acc info = Some (estimated_acc o) /\
  cell_type e = "normal"%string /\ test_env e = PyNone.
Proof.
  intros He Hrange H.
  apply step_inv in H as (ai & acc & e1 & e2 & Hp & Hb & -> & -> & _ & ->).
  apply keeps_record_best in Hb.
  apply perform_mutation_inv in Hp; [| exact Hrange]. cbv zeta in Hp.
  destruct Hp as (row & edge & s & update & f1 & f2 & st & Ha & Hs & Hu & Hre & Hst
                  & -> & Hte & _ & -> & ->).
  pose proof (keeps_update_meta_model _ _ _ _ _ _ _ Hu) as Hk.
  pose proof (update_meta_model_inv _ _ _ _ _ _ _ Hu) as [Hcell _].
  assert (Hf2 : tables_agree f2 /\ edge_to_index f2 = edge_to_index e /\
                edge_to_alpha f2 = edge_to_alpha e /\
                baseline_acc f2 = baseline_acc e /\ test_env f2 = test_env e).
  { destruct update.
    - pose proof (update_meta_model_shape _ _ _ _ _ _ Hu) as Hshape.
      pose proof (rebuild_tables_of_shape _ _ Hre) as [Hi2 Ha2].
      pose proof (rebuild_tables_of_shape _ _ He) as [Hi Hal].
      pose proof (update_states_keeps_rest _ _ Hre) as (Hc2 & He2 & _).
      split; [exact (rebuild_tables_agree _ _ Hre) |].
      rewrite Hi2, Ha2, Hi, Hal, Hshape.
      split; [reflexivity |]. split; [reflexivity |].
      unfold config_of, episode_of in *. split; congruence.
    - subst f2. apply update_meta_model_unchanged in Hu. subst f1.
      split; [exact (rebuild_tables_agree _ _ He) | auto]. }
  destruct Hf2 as (Hagree & Hidx & Halpha & Hbase & Htest).
  rewrite <- Hidx in Hs.
  destruct (Hagree _ _ _ Hs) as (i & j & ob & w & _ & _ & Hob & Hfrom & Hto & _).
  rewrite Hst in Hob. injection Hob as <-.
  unfold tables_of in Hb.
  assert (Hcur : current_state (set_step_count (step_count e2 + 1) e2) = st).
  { transitivity (current_state e2); [destruct e2; reflexivity |].
    transitivity (current_state (set_current_state st f2)); [congruence |].
    destruct f2; reflexivity. }
  assert (Hi' : edge_to_index (set_step_count (step_count e2 + 1) e2) = edge_to_index f2).
  { transitivity (edge_to_index e2); [destruct e2; reflexivity |].
    transitivity (edge_to_index (set_current_state st f2)); [congruence |].
    destruct f2; reflexivity. }
  assert (Ha' : edge_to_alpha (set_step_count (step_count e2 + 1) e2) = edge_to_alpha f2).
  { transitivity (edge_to_alpha e2); [destruct e2; reflexivity |].
    transitivity (edge_to_alpha (set_current_state st f2)); [congruence |].
    destruct f2; reflexivity. }
  assert (Hs' : states (set_step_count (step_count e2 + 1) e2) = states f2).
  { transitivity (states e2); [destruct e2; reflexivity |].
    transitivity (states (set_current_state st f2)); [congruence |].
    destruct f2; reflexivity. }
  rewrite Hcur, Hi', Ha', Hs', Hidx, Halpha, Hbase.
  split; [exact Hfrom |]. split; [exact Hto |]. split; [reflexivity |].
  split; [reflexivity |]. split; [exists s; rewrite <- Hidx; auto |].
  split; [reflexivity |]. split; [reflexivity |]. split; [exact Hcell |].
  now rewrite <- Htest.
Qed.

(** ** Mutation steps return *)

Lemma update_meta_model_normal b row edge op e :
  cell_type e = "normal"%string ->
  update_meta_model b row edge op e =
    if b then increase_op row edge op 0.3 e else decrease_op row edge op 0.3 e.
Proof.
  intros Hc. unfold update_meta_model, bind, get. rewrite Hc. simpl.
  destruct b; reflexivity.
Qed.

Lemma mutate_branch_run o b lo d l e row edge s u e1 e2 st :
  in_arange lo (lo + n_ops e) (l_action l) = true ->
  edge_to_alpha e !! (l_cur_node l, l_next_node l) = Some (row, edge) ->
  edge_to_index e !! (l_cur_node l, l_next_node l) = Some s ->
  update_meta_model b row edge (l_action l - lo) e = Ok u e1 ->
  (if u then update_states e1 = Ok tt e2 else e2 = e1) ->
  states e2 !! s = Some st ->
  compute_reward o (set_current_state st e2)
    = Ok (RetPair (scale_reward (baseline_acc e2) (estimated_acc o)) (estimated_acc o))
         (set_current_state st e2) ->
  mutate_branch o b lo d l e =
    Ok (mkLocals (l_action l - lo) (d row edge (l_action l - lo))
          (scale_reward (baseline_acc e2) (estimated_acc o)) (Some (estimated_acc o))
          (l_cur_node l) (l_next_node l))
       (set_current_state st e2).
Proof.
  intros Hin Ha Hs Hu Hre Hst Hrew. unfold mutate_branch.
  unfold bind at 1. unfold get at 1. cbv beta iota.
  destruct l as [action ai reward acc cur next]. simpl in *. rewrite Hin.
  unfold bind at 1. unfold dict_get at 1. rewrite Ha. unfold ret at 1. cbv beta iota.
  unfold bind at 1. unfold dict_get at 1. rewrite Hs. unfold ret at 1. cbv beta iota.
  unfold bind at 1. rewrite Hu.
  unfold bind at 1.
  replace ((if u then update_states else ret tt) e1) with (Ok tt e2)
    by (destruct u; [now rewrite Hre | now subst e2]).
  unfold bind at 1. unfold get at 1. cbv beta iota.
  unfold bind at 1. unfold index at 1. rewrite Hst. unfold ret at 1. cbv beta iota.
  unfold bind at 1. unfold modify at 1. cbv beta iota.
  unfold bind at 1. rewrite Hrew. reflexivity.
Qed.

(** The estimate after a mutation, on the environment the branch has
    reached. *)
Lemma compute_reward_after (o : oracle) (e e2 : NasEnv) (st : observation) :
  reward_ready o e ->
  config_of e2 = config_of e -> baseline_acc e2 = baseline_acc e ->
  compute_reward o (set_current_state st e2)
    = Ok (RetPair (scale_reward (baseline_acc e2) (estimated_acc o)) (estimated_acc o))
         (set_current_state st e2).
Proof.
  intros (Hte & Hre & [task Hct] & Hest & Hz) Hc Hb. unfold config_of in Hc.
  injection Hc as _ _ Hte2 Hre2 _ _ Hct2 _.
  rewrite (compute_reward_darts o (set_current_state st e2) task);
    destruct e2; simpl in *; congruence.
Qed.

(** On up-to-date tables of a well-shaped normal cell, outside test mode,
    the branch that serves the action runs to its end. *)
Lemma mutate_branch_total o (b : bool) lo d l e s :
  up_to_date e ->
  cell_type e = "normal"%string -> reward_ready o e ->
  well_shaped (length (A e)) (alpha_normal e) -> rows_of_ops e ->
  edge_to_index e !! (l_cur_node l, l_next_node l) = Some s ->
  lo <= l_action l < lo + n_ops e ->
  exists l' e', mutate_branch o b lo d l e = Ok l' e'.
Proof.
  intros He Hc Hready Hshape Hrows Hs Hrange.
  destruct (rebuild_encoder_inv e e He) as (s0 & _ & Hagree & _).
  destruct (Hagree _ _ _ Hs) as (i & j & ob & w & Ha & _ & Hob & _ & _ & _ & Hw & _).
  destruct (update_states_normalized e e He) as (Hn & _).
  assert (Hsel : selected_alpha e = alpha_normal e)
    by (unfold selected_alpha; now rewrite Hc).
  rewrite Hsel in Hn.
  unfold edge_at in Hw.
  destruct (normalized_alphas e !! i) as [node|] eqn:Hnode; [| discriminate].
  assert (Hraw : exists anode raw,
            alpha_normal e !! i = Some anode /\ node = map softmax anode /\
            anode !! j = Some raw /\ w = softmax raw).
  { rewrite Hn in Hnode. rewrite list_lookup_fmap in Hnode.
    destruct (alpha_normal e !! i) as [anode|]; [| discriminate].
    simpl in Hnode. injection Hnode as <-. rewrite list_lookup_fmap in Hw.
    destruct (anode !! j) as [raw|] eqn:Hj; [| discriminate].
    simpl in Hw. injection Hw as <-. exists anode, raw. auto. }
  destruct Hraw as (anode & raw & Hanode & -> & Hj & ->).
  assert (Hlen : length (softmax raw) = n_ops e).
  { rewrite length_softmax.
    pose proof (Hrows i anode Hanode) as Hall. rewrite Forall_forall in Hall.
    apply Hall. eapply list_elem_of_lookup_2; eauto. }
  destruct (lookup_lt_is_Some_2 (softmax raw) (l_action l - lo)) as [x Hx]; [lia |].
  assert (Hjlt : j < length anode) by (eapply lookup_lt_Some; eauto).
  assert (Hrun : exists u e1,
            update_meta_model b i j (l_action l - lo) e = Ok u e1 /\
            (u = false -> e1 = e) /\
            (u = true -> exists new, new <> [] /\
               e1 = mutated e i j (map softmax anode) anode new)).
  { rewrite update_meta_model_normal by exact Hc. destruct b.
    - rewrite (increase_op_run e i j _ 0.3 (map softmax anode) (softmax raw) x anode)
        by assumption.
      destruct (Rlt_dec _ _).
      + eexists true, _. split; [reflexivity |]. split; [discriminate |]. intros _.
        eexists. split; [| reflexivity]. eapply mutation_row_nonempty; eauto.
      + exists false, e. split; [reflexivity |]. split; [reflexivity | discriminate].
    - rewrite (decrease_op_run e i j _ 0.3 (map softmax anode) (softmax raw) x anode)
        by assumption.
      destruct (Rgt_dec _ _).
      + eexists true, _. split; [reflexivity |]. split; [discriminate |]. intros _.
        eexists. split; [| reflexivity]. eapply mutation_row_nonempty; eauto.
      + exists false, e. split; [reflexivity |]. split; [reflexivity | discriminate]. }
  destruct Hrun as (u & e1 & Hu & Hfalse & Htrue).
  assert (Hin : in_arange lo (lo + n_ops e) (l_action l) = true)
    by (apply in_arange_true; exact Hrange).
  destruct u.
  - destruct (Htrue eq_refl) as (new & Hne & ->).
    destruct (rebuild_after_mutation e i j (map softmax anode) anode new)
      as (e2 & Hre & _); try assumption.
    pose proof (update_meta_model_shape _ _ _ _ _ _ Hu) as Hsh.
    pose proof (rebuild_tables_of_shape _ _ Hre) as [Hi2 _].
    pose proof (rebuild_tables_of_shape _ _ He) as [Hi _].
    assert (Hidx : edge_to_index e2 = edge_to_index e) by (rewrite Hi2, Hi, Hsh; reflexivity).
    pose proof (rebuild_tables_agree _ _ Hre) as Hagree2.
    rewrite <- Hidx in Hs.
    destruct (Hagree2 _ _ _ Hs) as (i' & j' & st & w' & _ & _ & Hst & _).
    rewrite Hidx in Hs.
    assert (Hrew : compute_reward o (set_current_state st e2)
                   = Ok (RetPair (scale_reward (baseline_acc e2) (estimated_acc o))
                           (estimated_acc o)) (set_current_state st e2)).
    { pose proof (update_states_keeps_rest _ _ Hre) as (Hc2 & He2 & _).
      pose proof (keeps_update_meta_model _ _ _ _ _ _ _ Hu) as Hk.
      pose proof (f_equal fst Hk) as Hc1. pose proof (f_equal snd Hk) as He1.
      cbn [fst snd] in Hc1, He1.
      apply (compute_reward_after o e e2 st Hready); [now rewrite Hc2 |].
      apply (f_equal (fun t => snd (fst (fst t)))) in He1, He2.
      unfold episode_of in He1, He2. cbn [fst snd] in He1, He2. now rewrite He2. }
    eexists _, _.
    exact (mutate_branch_run o b lo d l e i j s true _ e2 st Hin Ha Hs Hu Hre Hst Hrew).
  - rewrite (Hfalse eq_refl) in Hu.
    eexists _, _.
    exact (mutate_branch_run o b lo d l e i j s false e e ob Hin Ha Hs Hu eq_refl Hob
             (compute_reward_after o e e ob Hready eq_refl eq_refl)).
Qed.

Lemma perform_mutation_total o e action s :
  up_to_date e ->
  cell_type e = "normal"%string -> reward_ready o e ->
  well_shaped (length (A e)) (alpha_normal e) -> rows_of_ops e ->
  edge_to_index e !! (obs_from (current_state e), obs_to (current_state e)) = Some s ->
  length (A e) <= action < length (A e) + 2 * n_ops e ->
  exists res e1, _perform_action o action e = Ok res e1.
Proof.
  intros He Hc Hte Hshape Hrows Hs Hrange. unfold _perform_action.
  unfold bind at 1. unfold get at 1. cbv beta iota zeta.
  unfold bind at 1. unfold traverse_branch at 1.
  unfold bind at 1. unfold get at 1. cbv beta iota.
  rewrite (in_arange_above 0 (length (A e))) by lia.
  unfold ret at 1. cbv beta iota.
  set (l0 := mkLocals action NoInfo 0%R None (obs_from (current_state e))
               (obs_to (current_state e))).
  destruct (Nat.lt_ge_cases action (length (A e) + n_ops e)) as [Hlt | Hge].
  - destruct (mutate_branch_total o true (length (A e)) IncreaseAlpha l0 e s)
      as (l' & e' & Hinc); try assumption; [simpl; lia |].
    pose proof (keeps_config_mutate_branch _ _ _ _ _ _ _ _ Hinc) as Hk.
    pose proof Hinc as Hinv.
    apply mutate_branch_inv in Hinv
      as (row & edge & s' & u & f1 & f2 & st & _ & _ & _ & _ & _ & _ & _ & Hl');
      [| apply in_arange_true; simpl; lia].
    assert (HA : A e' = A e /\ n_ops e' = n_ops e)
      by (unfold config_of in Hk; split; congruence).
    destruct HA as [HA Hn].
    unfold bind at 1. rewrite Hinc.
    unfold bind at 1.
    rewrite mutate_branch_skip by (apply in_arange_below; rewrite Hl'; simpl; lia).
    unfold bind at 1.
    rewrite terminate_branch_skip by (rewrite HA, Hn, Hl'; simpl; lia).
    eexists _, _. reflexivity.
  - unfold bind at 1.
    rewrite mutate_branch_skip by (apply in_arange_above; simpl; lia).
    destruct (mutate_branch_total o false (length (A e) + n_ops e) DecreaseAlpha l0 e s)
      as (l' & e' & Hdec); try assumption; [simpl; lia |].
    pose proof (keeps_config_mutate_branch _ _ _ _ _ _ _ _ Hdec) as Hk.
    pose proof Hdec as Hinv.
    apply mutate_branch_inv in Hinv
      as (row & edge & s' & u & f1 & f2 & st & _ & _ & _ & _ & _ & _ & _ & Hl');
      [| apply in_arange_true; simpl; lia].
    assert (HA : A e' = A e /\ n_ops e' = n_ops e)
      by (unfold config_of in Hk; split; congruence).
    destruct HA as [HA Hn].
    unfold bind at 1. rewrite Hdec.
    unfold bind at 1.
    rewrite terminate_branch_skip by (rewrite HA, Hn, Hl'; simpl; lia).
    eexists _, _. reflexivity.
Qed.

Lemma step_of_perform o action e res e1 :
  _perform_action o action e = Ok res e1 ->
  exists st r done info e', step o action e = Ok (st, r, done, info) e'.
Proof.
  intros H. unfold step. unfold bind at 1. rewrite H.
  destruct res as [[ai r] acc]. unfold bind at 1. rewrite record_best_run.
  unfold bind, modify, get, ret. eexists _, _, _, _, _. reflexivity.
Qed.

(** X18.  In the normal cell, on up-to-date tables of a well-shaped cell
    whose edges carry one weight per primitive, with the agent standing on
    an edge of the table, every increase and every decrease action comes
    back from [step], provided the reward can be computed: no test
    environment, the training-based estimator, a task set, an estimator
    that runs through, and an accuracy and baseline that give no zero
    denominator.  No index is out of range, the rebuild after the mutation
    goes through, and the row the agent stood on is found again. *)
Theorem step_mutation_returns (o : oracle) (e : NasEnv) (action s : nat) :
  up_to_date e ->
  cell_type e = "normal"%string -> reward_ready o e ->
  well_shaped (length (A e)) (alpha_normal e) -> rows_of_ops e ->
  edge_to_index e !! (obs_from (current_state e), obs_to (current_state e)) = Some s ->
  length (A e) <= action < length (A e) + 2 * n_ops e ->
  exists st r done info e', step o action e = Ok (st, r, done, info) e'.
Proof.
  intros He Hc Hready Hshape Hrows Hs Hrange.
  destruct (perform_mutation_total o e action s) as (res & e1 & H); try assumption.
  exact (step_of_perform o action e res e1 H).
Qed.

Lemma env_const_ready (c : R) :
  up_to_date (env_const_task c) /\
  well_shaped (length (A (env_const_task c))) (alpha_normal (env_const_task c)) /\
  rows_of_ops (env_const_task c) /\
  reward_ready oracle0 (env_const_task c).
Proof.
  split; [| split; [| split]].
  - apply (up_to_date_ext (env_const c)); [reflexivity | apply update_states_env_const].
  - apply small_cell_well_shaped; discriminate.
  - intros i edges Hi. destruct i as [|i]; [| destruct i; discriminate].
    injection Hi as <-. repeat constructor.
  - split; [reflexivity |]. split; [reflexivity |]. split; [exists 0; reflexivity |].
    split; [reflexivity |].
    apply scale_reward_raises_unit; simpl; lra.
Qed.

Lemma step_mutation_returns_witness :
  exists st r done info e', step oracle0 4 (env_const_task 0) = Ok (st, r, done, info) e'.
Proof.
  destruct (env_const_ready 0) as (Hup & Hshape & Hrows & Hready).
  apply (step_mutation_returns oracle0 (env_const_task 0) 4 0 Hup); try reflexivity;
    try assumption.
  simpl. lia.
Defined.

Lemma step_mutation_stays_on_edge_witness :
  exists st r done info e',
    step oracle0 7 (env_const_task 0) = Ok (st, r, done, info) e' /\
    obs_from st = 0 /\ obs_to st = 2 /\
    edge_to_index e' = edge_to_index (env_const_task 0).
Proof.
  destruct (env_const_ready 0) as (Hup & Hshape & Hrows & Hready).
  destruct (perform_mutation_total oracle0 (env_const_task 0) 7 0 Hup eq_refl Hready
              Hshape Hrows eq_refl) as (res & e1 & Hp); [simpl; lia |].
  destruct (step_of_perform _ _ _ _ _ Hp) as (st & r & done & info & e' & Hrun).
  exists st, r, done, info, e'. split; [exact Hrun |].
  destruct (step_mutation_stays_on_edge oracle0 (env_const_task 0) 7 st r done info e' Hup)
    as (H1 & H2 & H3 & _); [simpl; lia | exact Hrun |].
  auto.
Defined.

(** ** The reward *)

Section Reward.
Local Open Scope R_scope.

Lemma scale_reward_above (b a : R) :
  b < a -> scale_reward b a = 4 * (a - b) * / (1 - b).
Proof.
  intros H. unfold scale_reward.
  destruct (Req_dec_T b a); [lra |]. destruct (Rle_dec b a); [| lra].
  unfold Rdiv. lra.
Qed.

Lemma scale_reward_below (b a : R) :
  a < b -> scale_reward b a = -0.1 + 0.1 * a * / b.
Proof.
  intros H. unfold scale_reward.
  destruct (Req_dec_T b a); [lra |]. destruct (Rle_dec b a); [lra |].
  destruct (Rge_dec b a); [| lra].
  unfold Rdiv. rewrite !Rminus_0_r. lra.
Qed.

Lemma scale_reward_at (b : R) : scale_reward b b = 0.
Proof. unfold scale_reward. destruct (Req_dec_T b b); [reflexivity | congruence]. Qed.

Lemma scale_reward_above_pos (b a : R) : b < a -> a <= 1 -> 0 < scale_reward b a.
Proof.
  intros H H1. rewrite scale_reward_above by exact H.
  apply Rmult_lt_0_compat; [lra | apply Rinv_0_lt_compat; lra].
Qed.

Lemma scale_reward_below_neg (b a : R) : 0 <= a -> a < b -> scale_reward b a < 0.
Proof.
  intros H0 H. rewrite scale_reward_below by exact H.
  assert (0.1 * a * / b < 0.1); [| lra].
  apply (Rmult_lt_reg_r b); [lra |].
  rewrite Rmult_assoc, Rinv_l by lra. lra.
Qed.

(** X19.  For a baseline and accuracies in [0, 1], no division of
    [scale_reward] is by zero and the reward is strictly increasing in the
    accuracy: a better network never earns less, across the baseline as well
    as within each of the two segments; the extreme accuracies earn the ends
    of the reward range, 4 for accuracy 1 above the baseline and -0.1 for
    accuracy 0 below it. *)
Theorem scale_reward_increasing (b a1 a2 : R) :
  0 <= b <= 1 -> 0 <= a1 -> a1 < a2 -> a2 <= 1 ->
  scale_reward_raises b a1 = false /\ scale_reward_raises b a2 = false /\
  scale_reward b a1 < scale_reward b a2 /\
  (b < 1 -> scale_reward b 1 = 4) /\
  (0 < b -> scale_reward b 0 = -0.1).
Proof.
  intros Hb H0 Hlt H1.
  split; [apply scale_reward_raises_unit; lra |].
  split; [apply scale_reward_raises_unit; lra |].
  split; [| split].
  - destruct (Rtotal_order a1 b) as [Ha1 | [-> | Ha1]].
    + destruct (Rtotal_order a2 b) as [Ha2 | [-> | Ha2]].
      * rewrite !scale_reward_below by assumption.
        assert (0.1 * a1 * / b < 0.1 * a2 * / b); [| lra].
        apply Rmult_lt_compat_r; [apply Rinv_0_lt_compat; lra | lra].
      * rewrite scale_reward_at. now apply scale_reward_below_neg.
      * pose proof (scale_reward_below_neg b a1 H0 Ha1).
        pose proof (scale_reward_above_pos b a2 Ha2 H1). lra.
    + rewrite scale_reward_at. now apply scale_reward_above_pos.
    + rewrite !scale_reward_above by lra.
      apply Rmult_lt_compat_r; [apply Rinv_0_lt_compat; lra | lra].
  - intros Hb1. rewrite scale_reward_above by exact Hb1.
    rewrite Rmult_assoc, Rinv_r by lra. lra.
  - intros Hb0. rewrite scale_reward_below by exact Hb0. lra.
Qed.

Lemma scale_reward_increasing_witness :
  scale_reward_raises 0.5 0.25 = false /\ scale_reward_raises 0.5 0.75 = false /\
  scale_reward 0.5 0.25 < scale_reward 0.5 0.75 /\
  (0.5 < 1 -> scale_reward 0.5 1 = 4) /\
  (0 < 0.5 -> scale_reward 0.5 0 = -0.1).
Proof. apply (scale_reward_increasing 0.5 0.25 0.75); lra. Defined.

End Reward.

(** ** The best accuracy of the trial *)

Lemma rows_on_device_values (e : NasEnv) :
  max_alphas e = rows_on_device e ->
  max_alphas_values e = Some (alpha_normal e).
Proof.
  intros H. unfold max_alphas_values. rewrite H. apply mapM_Some.
  apply Forall2_same_length_lookup_2.
  - unfold rows_on_device. now rewrite length_imap.
  - intros i r v Hr Hv. unfold rows_on_device in Hr. rewrite list_lookup_imap, Hv in Hr.
    injection Hr as <-. unfold to_device. destruct (params_on_device e); [exact Hv |].
    reflexivity.
Qed.

(** X20.  What a step that returns does to the best accuracy: it never
    decreases; when the step reports no accuracy, or one that is not
    positive, baseline, best accuracy and the list of best rows are
    untouched; when it reports a positive accuracy, that accuracy is the new
    baseline and the best accuracy is the larger of the old one and it; and
    whenever the best accuracy has grown, the list of best rows has been
    rebuilt from the rows of the normal cell (the Parameters themselves when
    the model lives on the configured device, copies otherwise), which at
    the return of the step show the raw rows the model carries. *)
Theorem step_best_accuracy (o : oracle) (action : nat) (e : NasEnv)
    (st : observation) (r : R) (done : bool) (info : info_dict) (e' : NasEnv) :
  step o action e = Ok (st, r, done, info) e' ->
  (max_acc e <= max_acc e')%R /\
  (forall a, info_acc info = Some a -> (a > 0)%R ->
     baseline_acc e' = a /\ max_acc e' = Rmax (max_acc e) a) /\
  ((info_acc info = None \/ exists a, info_acc info = Some a /\ ~ (a > 0)%R) ->
     baseline_acc e' = baseline_acc e /\ max_acc e' = max_acc e /\
     max_alphas e' = max_alphas e) /\
  ((max_acc e < max_acc e')%R ->
     max_alphas e' = rows_on_device e' /\
     max_alphas_values e' = Some (alpha_normal e')).
Proof.
  intros H. apply step_inv in H as (ai & acc & e1 & e2 & Hp & Hb & -> & _ & _ & ->).
  apply keeps_episode_perform_action in Hp. unfold episode_of in Hp.
  injection Hp as Hs Hba Hm Hma.
  rewrite record_best_run in Hb. injection Hb as <-. simpl.
  destruct acc as [a|].
  - destruct (Rgt_dec a 0) as [Hpos | Hnpos].
    + destruct (Rlt_dec (max_acc e1) a) as [Hlt | Hnlt].
      * split; [destruct e1; simpl in *; subst; lra |]. split.
        { intros a' Ha' _. injection Ha' as <-.
          destruct e1; simpl in *; subst. split; [reflexivity |].
          rewrite Rmax_right by lra. reflexivity. }
        split.
        { intros [Hn | (a' & Ha' & Hn)]; [discriminate |].
          injection Ha' as <-. contradiction. }
        intros _.
        assert (Heq : max_alphas (set_step_count (step_count (set_max_alphas
                        (rows_on_device e1) (set_max_acc a (set_baseline_acc a e1))) + 1)
                        (set_max_alphas (rows_on_device e1)
                           (set_max_acc a (set_baseline_acc a e1))))
                      = rows_on_device (set_step_count (step_count (set_max_alphas
                        (rows_on_device e1) (set_max_acc a (set_baseline_acc a e1))) + 1)
                        (set_max_alphas (rows_on_device e1)
                           (set_max_acc a (set_baseline_acc a e1)))))
          by (destruct e1; reflexivity).
        split; [exact Heq | exact (rows_on_device_values _ Heq)].
      * destruct e1; simpl in *. subst.
        split; [lra |]. split.
        { intros a' Ha' _. injection Ha' as <-. split; [reflexivity |].
          rewrite Rmax_left by lra. reflexivity. }
        split; [| intros Hbad; lra].
        intros [Hn | (a' & Ha' & Hn)]; [discriminate |].
        injection Ha' as <-. contradiction.
    + destruct e1; simpl in *. subst.
      split; [lra |]. split.
      { intros a' Ha' Hpos. injection Ha' as <-. contradiction. }
      split; [auto | intros Hbad; lra].
  - destruct e1; simpl in *. subst.
    split; [lra |]. split; [intros a' Ha'; discriminate |].
    split; [auto | intros Hbad; lra].
Qed.

Lemma step_best_accuracy_witness :
  (max_acc env_task_reset
   <= max_acc (set_step_count 1 (set_terminate_episode true env_task_reset)))%R /\
  max_alphas (set_step_count 1 (set_terminate_episode true env_task_reset))
  = max_alphas env_task_reset.
Proof.
  destruct (step_best_accuracy oracle0 9 env_task_reset _ _ _ _ _
              env_task_reset_last_action) as (H1 & _ & H2 & _).
  split; [exact H1 |]. apply H2. left. reflexivity.
Defined.

(** ** The rows of the state table *)

(** Invariants of the rebuild are invariants of the body of its inner
    loop. *)
Lemma rebuild_invariant (I : NasEnv -> Prop) (e e' : NasEnv) :
  update_states e = Ok tt e' ->
  I (encoder_start (selected_alpha e) e) ->
  (forall i edges em tk j edge s f s' f',
      map (map softmax) (selected_alpha e) !! i = Some edges ->
      mapM row_max edges = Some em -> snd <$> topk em 2 = Some tk ->
      edges !! j = Some edge ->
      A f = A e -> I f -> encode_edge i tk j edge s f = Ok s' f' -> I f') ->
  I e'.
Proof.
  intros H Hstart Hstep.
  apply update_states_inv in H as (_ & s & Hloop).
  assert (Hgoal : A e' = A e /\ I e'); [| apply Hgoal].
  revert Hloop. apply (for_enumerate_inv (fun f => A f = A e /\ I f)).
  - intros i edges t f t' f' Hedges Hf Hnode. simpl in Hnode.
    unfold encode_node in Hnode.
    apply bind_Ok in Hnode as (em & f1 & Hmax & Hnode).
    apply bind_Ok in Hnode as (tk & f2 & Htk & Hnode).
    unfold lift_opt in Hmax, Htk.
    destruct (mapM row_max edges) as [em'|] eqn:Hem; [| discriminate].
    injection Hmax as <- <-.
    destruct (snd <$> topk em' 2) as [tk'|] eqn:Htk'; [| discriminate].
    injection Htk as <- <-.
    revert Hnode. apply (for_enumerate_inv (fun f => A f = A e /\ I f)); [| exact Hf].
    intros j edge u g u' g' Hedge [HA Hg] Hrun. simpl in Hrun. split.
    + rewrite <- HA. exact (keeps_A_encode_edge _ _ _ _ _ _ _ _ Hrun).
    + exact (Hstep i edges em' tk' j edge u g u' g' Hedges Hem Htk' Hedge HA Hg Hrun).
  - split; [| exact Hstart]. unfold encoder_start, clear_tables. destruct e; reflexivity.
Qed.

Lemma states_encoder_start a e : states (encoder_start a e) = [].
Proof. unfold encoder_start, clear_tables. destruct e; reflexivity. Qed.




(** X21.  After a rebuild of a cell whose edges carry one weight per
    primitive, over a square graph, every row of the state table is a
    vector of the same length, 3 + len(A) + len(primitives): the table is a
    rectangular array, and every observation has the shape of the
    observation space. *)
Theorem state_vectors_same_length (e e' : NasEnv) :
  update_states e = Ok tt e' ->
  square (A e) ->
  (forall i edges, selected_alpha e !! i = Some edges ->
     Forall (fun edge => length edge = n_ops e) edges) ->
  Forall (fun o => length (obs_vector o) = 3 + length (A e) + n_ops e) (states e').
Proof.
  intros H Hsq Hrows.
  apply (rebuild_invariant
           (fun f => Forall (fun o => length (obs_vector o) = 3 + length (A e) + n_ops e)
                       (states f)) e e' H).
  - rewrite states_encoder_start. constructor.
  - intros i edges em tk j edge s f s' f' Hedges _ _ Hedge HA Hf Hrun.
    apply encode_edge_run in Hrun as (A_to & A_from & Hto & Hfrom & _ & ->).
    assert (Hlen : length edge = n_ops e).
    { rewrite list_lookup_fmap in Hedges.
      destruct (selected_alpha e !! i) as [raws|] eqn:Hraws; [| discriminate].
      injection Hedges as <-. rewrite list_lookup_fmap in Hedge.
      destruct (raws !! j) as [raw|] eqn:Hraw; [| discriminate].
      injection Hedge as <-. rewrite length_softmax.
      pose proof (Hrows i raws Hraws) as Hall. rewrite Forall_forall in Hall.
      apply Hall. eapply list_elem_of_lookup_2; eauto. }
    unfold square in Hsq. rewrite Forall_forall in Hsq. rewrite HA in Hto, Hfrom.
    assert (Hl1 : length A_to = length (A e))
      by (apply Hsq; eapply list_elem_of_lookup_2; eauto).
    assert (Hl2 : length A_from = length (A e))
      by (apply Hsq; eapply list_elem_of_lookup_2; eauto).
    replace (states (set_states _ _)) with
      (states f ++ [mkObs j (i + 2) (bool_decide (j ∈ tk)) A_to edge;
                    mkObs (i + 2) j (bool_decide (j ∈ tk)) A_from edge])
      by (destruct f; reflexivity).
    apply Forall_app. split; [exact Hf |].
    repeat constructor; unfold obs_vector; simpl;
      rewrite length_app, length_map; lia.
Qed.

Lemma state_vectors_same_length_witness :
  Forall (fun o => length (obs_vector o) = 3 + length (A (env_const 0)) + n_ops (env_const 0))
    (states (env_const 0)).
Proof.
  apply (state_vectors_same_length (env_const 0) (env_const 0)).
  - apply update_states_env_const.
  - repeat constructor.
  - intros i edges Hi. destruct i as [|i]; [| destruct i; discriminate].
    injection Hi as <-. repeat constructor.
Defined.



(** ** Keys and rows *)

(** Loop invariants that depend on the position in the list. *)
Lemma for_enumerate_inv_pos {T St} (I : nat -> St -> NasEnv -> Prop) (l : list T)
    (body : nat -> T -> St -> M St) :
  forall k0 s e s' e',
    (forall n x s e s' e',
        l !! n = Some x -> I n s e -> body (k0 + n) x s e = Ok s' e' -> I (S n) s' e') ->
    I 0 s e -> for_enumerate l k0 body s e = Ok s' e' -> I (length l) s' e'.
Proof.
  revert I. induction l as [|x l IH]; intros I k0 s e s' e' Hb HI H; simpl in H.
  - injection H as <- <-. exact HI.
  - apply bind_Ok in H as (s1 & e1 & Hx & H).
    apply (IH (fun n => I (S n)) (S k0) s1 e1 s' e'); [| | exact H].
    + intros n y t f t' f' Hy HIf Hrun.
      apply (Hb (S n) y t f t' f'); [exact Hy | exact HIf |].
      now replace (k0 + S n) with (S k0 + n) by lia.
    + apply (Hb 0 x s e s1 e1); [reflexivity | exact HI |].
      now rewrite Nat.add_0_r.
Qed.

Lemma encode_edge_keyed i tk j edge s f s' f' :
  j < i + 2 ->
  keyed_upto i j s f ->
  encode_edge i tk j edge s f = Ok s' f' ->
  keyed_upto i (S j) s' f'.
Proof.
  intros Hj [Hs Hrows] H.
  apply encode_edge_run in H as (A_to & A_from & _ & _ & -> & ->).
  unfold keyed_upto. destruct f; simpl in *. subst s.
  split; [rewrite length_app; simpl; lia |].
  intros t o Ho.
  destruct (decide (t < length states0)) as [Hlt | Hge].
  - rewrite lookup_app_l in Ho by exact Hlt.
    destruct (Hrows t o Ho) as [Hkey Hpos]. split; [| lia].
    rewrite !lookup_insert_ne; [exact Hkey | |]; intros Heq; injection Heq; lia.
  - rewrite lookup_app_r in Ho by lia.
    destruct (t - length states0) as [|[|n]] eqn:Ht; simpl in Ho; [| | discriminate].
    + injection Ho as <-. simpl. split; [| lia].
      rewrite lookup_insert_ne by (intros Heq; injection Heq; lia).
      rewrite lookup_insert_eq. f_equal. lia.
    + injection Ho as <-. simpl. split; [| lia].
      rewrite lookup_insert_eq. f_equal. lia.
Qed.

Lemma encode_node_keyed i edges s f s' f' :
  length edges <= i + 2 ->
  keyed_upto i 0 s f ->
  encode_node i edges s f = Ok s' f' ->
  keyed_upto (S i) 0 s' f'.
Proof.
  intros Hlen Hinv H. unfold encode_node in H.
  apply bind_Ok in H as (edge_max & e1 & Hmax & H).
  apply bind_Ok in H as (tk & e2 & Htk & Hloop).
  unfold lift_opt in Hmax, Htk.
  destruct (mapM row_max edges); [| discriminate]. injection Hmax as _ <-.
  destruct (snd <$> topk edge_max 2); [| discriminate]. injection Htk as _ <-.
  apply (for_enumerate_inv_pos (keyed_upto i)) in Hloop; [| | exact Hinv].
  - destruct Hloop as [Hs Hrows]. split; [exact Hs |].
    intros t o Ho. destruct (Hrows t o Ho) as [Hkey Hpos]. split; [exact Hkey | lia].
  - intros n x t g t' g' Hx Hg Hrun. simpl in Hrun.
    apply (encode_edge_keyed i tk n x t g t' g'); [| exact Hg | exact Hrun].
    apply lookup_lt_Some in Hx. lia.
Qed.

(** X23.  After a rebuild of a cell in which node i+2 has at most i+2
    incoming edges, [edge_to_index] is a bijection between its keys and the
    rows of the state table: every row sits at the index stored under its
    own pair of nodes, and no two keys share an index. *)
Theorem table_rows_are_keyed (e e' : NasEnv) :
  update_states e = Ok tt e' ->
  incoming_from_earlier (selected_alpha e) ->
  (forall t o, states e' !! t = Some o ->
     edge_to_index e' !! (obs_from o, obs_to o) = Some t) /\
  (forall k1 k2 t, edge_to_index e' !! k1 = Some t -> edge_to_index e' !! k2 = Some t ->
     k1 = k2).
Proof.
  intros H Hinc. split.
  - pose proof H as Hrun. apply update_states_inv in Hrun as (_ & s & Hloop).
    apply (for_enumerate_inv_pos (fun i => keyed_upto i 0)) in Hloop.
    + intros t o Ho. destruct Hloop as [_ Hrows]. now apply Hrows.
    + intros i edges t f t' f' Hedges Hf Hnode. simpl in Hnode.
      apply (encode_node_keyed i edges t f t' f'); [| exact Hf | exact Hnode].
      rewrite list_lookup_fmap in Hedges.
      destruct (selected_alpha e !! i) as [raws|] eqn:Hraws; [| discriminate].
      injection Hedges as <-. rewrite length_map. exact (Hinc i raws Hraws).
    + split; [now rewrite states_encoder_start |].
      intros t o Ho. rewrite states_encoder_start in Ho. discriminate.
  - intros [a1 b1] [a2 b2] t H1 H2.
    pose proof (rebuild_tables_agree e e' H) as Hagree.
    destruct (Hagree _ _ _ H1) as (? & ? & o1 & ? & _ & _ & Ho1 & <- & <- & _).
    destruct (Hagree _ _ _ H2) as (? & ? & o2 & ? & _ & _ & Ho2 & <- & <- & _).
    congruence.
Qed.

Lemma table_rows_are_keyed_witness :
  (forall t o, states (env_const 0) !! t = Some o ->
     edge_to_index (env_const 0) !! (obs_from o, obs_to o) = Some t) /\
  (forall k1 k2 t, edge_to_index (env_const 0) !! k1 = Some t ->
     edge_to_index (env_const 0) !! k2 = Some t -> k1 = k2).
Proof.
  apply (table_rows_are_keyed (env_const 0) (env_const 0) (update_states_env_const 0)).
  intros i edges Hi. destruct i as [|i]; [| destruct i; discriminate].
  injection Hi as <-. simpl. lia.
Defined.

(** ** The genotype *)

Section TopK.
Local Open Scope R_scope.

Lemma fold_better_max (l : list (R * nat)) (p : R * nat) :
  forall y, In y (p :: l) -> fst y <= fst (fold_left better l p).
Proof.
  assert (Hmono : forall l p, fst p <= fst (fold_left better l p)).
  { clear. induction l as [|x l IH]; intros p; simpl; [lra |].
    specialize (IH (better p x)). unfold better in *.
    destruct (Rlt_dec (fst p) (fst x)); lra. }
  revert p. induction l as [|x l IH]; intros p y Hy; simpl.
  - destruct Hy as [<- | []]. lra.
  - destruct Hy as [<- | [<- | Hy]].
    + pose proof (Hmono l (better p x)). unfold better in *.
      destruct (Rlt_dec (fst p) (fst x)); lra.
    + pose proof (Hmono l (better p x)). unfold better in *.
      destruct (Rlt_dec (fst p) (fst x)); lra.
    + apply IH. now right.
Qed.

Lemma same_index_same_pair (l : list (R * nat)) (x y : R * nat) :
  NoDup (map snd l) -> In x l -> In y l -> snd x = snd y -> x = y.
Proof.
  induction l as [|a l IH]; intros Hnd Hx Hy Heq; [contradiction |].
  simpl in Hnd. apply NoDup_cons in Hnd as [Hna Hnd].
  destruct Hx as [-> | Hx], Hy as [-> | Hy]; [reflexivity | | | now apply IH].
  - exfalso. apply Hna. rewrite Heq. apply list_elem_of_In, in_map, Hy.
  - exfalso. apply Hna. rewrite <- Heq. apply list_elem_of_In, in_map, Hx.
Qed.

(** The model of [torch.topk] returns [k] entries of the list, with
    distinct indices, none smaller than an entry it leaves out. *)
Lemma topk_pairs_spec (k : nat) :
  forall l ps, NoDup (map snd l) -> topk_pairs k l = Some ps ->
    length ps = k /\
    (forall x, In x ps -> In x l) /\
    NoDup (map snd ps) /\
    (forall x y, In x ps -> In y l -> ~ In y ps -> fst y <= fst x).
Proof.
  induction k as [|k IH]; intros l ps Hnd H; simpl in H.
  - injection H as <-. repeat split; try constructor; contradiction.
  - destruct l as [|p l]; [discriminate |].
    set (m := fold_left better l p) in *.
    destruct (topk_pairs k _) as [rest|] eqn:Hrest; [| discriminate].
    injection H as <-.
    destruct (keep_other_indices (p :: l) (snd m) Hnd) as [_ Hnd'].
    destruct (IH _ _ Hnd' Hrest) as (Hlen & Hin & Hndr & Hmax).
    assert (Hm : In m (p :: l)) by apply fold_better_in.
    assert (Hsub : forall x, In x rest -> In x (p :: l) /\ snd x <> snd m).
    { intros x Hx. apply Hin, list_elem_of_In, list_elem_of_filter in Hx as [Hne Hx].
      split; [now apply list_elem_of_In |].
      apply Is_true_true, negb_true_iff, Nat.eqb_neq in Hne. exact Hne. }
    split; [simpl; lia |]. split; [| split].
    + intros x [<- | Hx]; [exact Hm | now apply Hsub].
    + simpl. apply NoDup_cons. split; [| exact Hndr].
      intros Hbad. apply list_elem_of_In, in_map_iff in Hbad as (x & Hsnd & Hx).
      destruct (Hsub x Hx) as [_ Hne]. congruence.
    + intros x y [<- | Hx] Hy Hny.
      * now apply fold_better_max.
      * apply Hmax; [exact Hx | | intros Hbad; apply Hny; now right].
        apply list_elem_of_In, list_elem_of_filter. split; [| now apply list_elem_of_In].
        apply Is_true_true, negb_true_iff, Nat.eqb_neq. intros Heq. apply Hny. left.
        symmetry. now apply (same_index_same_pair (p :: l)).
Qed.

Lemma In_enumerate {T} (l : list T) (x : T) (i : nat) :
  In (x, i) (enumerate l) <-> l !! i = Some x.
Proof.
  unfold enumerate.
  assert (Hgen : forall n, In (x, i) (combine l (seq n (length l)))
                           <-> (n <= i)%nat /\ l !! (i - n)%nat = Some x).
  { induction l as [|a l IH]; intros n; simpl.
    - split; [contradiction | intros [_ H]; discriminate].
    - rewrite IH. split.
      + intros [Heq | [Hle Hl]].
        * injection Heq as -> ->. rewrite Nat.sub_diag. split; [lia | reflexivity].
        * split; [lia |]. replace (i - n)%nat with (S (i - S n)) by lia. exact Hl.
      + intros [Hle Hl]. destruct (decide (i = n)) as [-> | Hne].
        * rewrite Nat.sub_diag in Hl. injection Hl as ->. now left.
        * right. split; [lia |].
          replace (i - n)%nat with (S (i - S n)) in Hl by lia. exact Hl. }
  rewrite Hgen, Nat.sub_0_r. split; [tauto | split; [lia | assumption]].
Qed.

Lemma topk_spec (v : list R) (k : nat) (vals : list R) (idxs : list nat) :
  topk v k = Some (vals, idxs) ->
  length idxs = k /\ length vals = k /\ NoDup idxs /\
  (forall (n i : nat), idxs !! n = Some i ->
     exists x, v !! i = Some x /\ vals !! n = Some x /\
       forall j y, v !! j = Some y -> ~ In j idxs -> y <= x).
Proof.
  unfold topk. intros H.
  destruct (topk_pairs k (enumerate v)) as [ps|] eqn:Hps; [| discriminate].
  injection H as <- <-.
  assert (Hnd : NoDup (map snd (enumerate v)))
    by (rewrite snd_enumerate; apply NoDup_seq).
  destruct (topk_pairs_spec k _ _ Hnd Hps) as (Hlen & Hin & Hndp & Hmax).
  rewrite !length_map. split; [exact Hlen |]. split; [exact Hlen |].
  split; [exact Hndp |].
  intros n i Hn. rewrite list_lookup_fmap in Hn.
  destruct (ps !! n) as [[x i']|] eqn:Hp; [| discriminate].
  injection Hn as <-. exists x.
  assert (Hxi : In (x, i') ps) by (eapply list_elem_of_In, list_elem_of_lookup_2; eauto).
  split; [apply In_enumerate, Hin, Hxi |].
  split; [now rewrite list_lookup_fmap, Hp |].
  intros j y Hj Hnj.
  apply (Hmax (x, i') (y, j)); [exact Hxi | now apply In_enumerate |].
  intros Hbad. apply Hnj. change j with (snd (y, j)). now apply in_map.
Qed.

Lemma row_argmax_spec (edge : list R) (v : R) (p : nat) :
  row_argmax edge = Return (v, p) ->
  edge !! p = Some v /\ forall x, In x edge -> x <= v.
Proof.
  unfold row_argmax. intros H.
  destruct (topk edge 1) as [[vals idxs]|] eqn:Htop; [| discriminate].
  destruct vals as [|v' [|? ?]]; try discriminate.
  destruct idxs as [|p' [|? ?]]; try discriminate.
  injection H as -> ->.
  destruct (topk_spec _ _ _ _ Htop) as (_ & _ & _ & Hsel).
  destruct (Hsel 0%nat p eq_refl) as (x & Hx & Hv & Hmax).
  injection Hv as ->. split; [exact Hx |].
  intros y Hy. apply list_elem_of_In, list_elem_of_lookup_1 in Hy as [j Hj].
  destruct (decide (j = p)) as [-> | Hne]; [rewrite Hx in Hj; injection Hj as ->; lra |].
  apply (Hmax j y Hj). intros [Heq | []]. congruence.
Qed.

Lemma row_max_argmax (edge : list R) (v : R) (p : nat) :
  row_argmax edge = Return (v, p) -> row_max edge = Some v.
Proof.
  unfold row_max, row_argmax.
  destruct (topk edge 1) as [[vals idxs]|] eqn:Htop; [| discriminate].
  destruct vals as [|v' [|? ?]]; try discriminate.
  destruct idxs as [|p' [|? ?]]; try discriminate.
  intros H. injection H as -> ->. reflexivity.
Qed.

End TopK.

Lemma mapR_Return {T U} (f : T -> result U) (l : list T) (k : list U) :
  mapR f l = Return k <-> Forall2 (fun x y => f x = Return y) l k.
Proof.
  revert k. induction l as [|x l IH]; intros k; simpl.
  - split; [intros H; injection H as <-; constructor | intros H; inversion H; reflexivity].
  - split.
    + destruct (f x) as [y|] eqn:Hx; [| discriminate]. simpl.
      destruct (mapR f l) as [ys|] eqn:Hl; [| discriminate]. simpl.
      intros H. injection H as <-. constructor; [exact Hx | now apply IH].
    + intros H. inversion H as [|? y ? ys Hx Hl]; subst.
      rewrite Hx. simpl. apply IH in Hl. rewrite Hl. reflexivity.
Qed.

Lemma mapR_returns {T U} (f : T -> result U) (l : list T) :
  Forall (fun x => exists y, f x = Return y) l -> exists k, mapR f l = Return k.
Proof.
  induction 1 as [|x l [y Hx] _ [ys IH]]; simpl; [eauto |].
  rewrite Hx. simpl. rewrite IH. simpl. eauto.
Qed.

Lemma gene_of_inv (primitives : list string) ms j g :
  gene_of primitives ms j = Return g ->
  exists v p, ms !! j = Some (v, p) /\ primitives !! p = Some (fst g) /\ snd g = j.
Proof.
  unfold gene_of. destruct (ms !! j) as [[v p]|]; [| discriminate].
  destruct (primitives !! p) as [prim|] eqn:Hp; [| discriminate].
  intros H. injection H as <-. exists v, p. auto.
Qed.

Lemma genes_indices (primitives : list string) ms tk ng :
  mapR (gene_of primitives ms) tk = Return ng -> map snd ng = tk.
Proof.
  intros H. apply mapR_Return in H.
  induction H as [|j g tk ng Hg _ IH]; [reflexivity |].
  apply gene_of_inv in Hg as (v & p & _ & _ & Hj). simpl. now rewrite Hj, IH.
Qed.

Lemma parse_node_inv (k : nat) (primitives : list string) edges ng :
  parse_node k primitives edges = Return ng ->
  exists ms vals,
    mapR row_argmax edges = Return ms /\
    topk (map fst ms) k = Some (vals, map snd ng) /\
    mapR (gene_of primitives ms) (map snd ng) = Return ng.
Proof.
  unfold parse_node. intros H.
  destruct (mapR row_argmax edges) as [ms|] eqn:Hms; [| discriminate]. simpl in H.
  destruct (topk (map fst ms) k) as [[vals tk]|] eqn:Htop; [| discriminate].
  pose proof (genes_indices _ _ _ _ H) as Htk. subst tk.
  exists ms, vals. split; [reflexivity |]. split; [exact Htop | exact H].
Qed.

(** X24.  The genotype [parse] returns has one entry per node of the cell;
    the entry of a node names [k] distinct incoming edges of that node,
    each with the primitive that carries the largest weight on the edge,
    and no edge left out has a weight above the largest weight of an edge
    that was chosen. *)
Theorem parse_selects (alpha : alpha) (k : nat) (primitives : list string)
    (gene : list (list (string * nat))) :
  parse alpha k primitives = Return gene ->
  length gene = length alpha /\
  forall i edges ng, alpha !! i = Some edges -> gene !! i = Some ng ->
    length ng = k /\ NoDup (map snd ng) /\
    forall prim j, In (prim, j) ng ->
      exists edge p v,
        edges !! j = Some edge /\ edge !! p = Some v /\
        (forall x, In x edge -> (x <= v)%R) /\
        primitives !! p = Some prim /\
        forall j' edge' x, edges !! j' = Some edge' -> ~ In j' (map snd ng) ->
          In x edge' -> (x <= v)%R.
Proof.
  unfold parse. intros H. apply mapR_Return in H.
  split; [symmetry; exact (Forall2_length _ _ _ H) |].
  intros i edges ng Hedges Hng.
  pose proof (Forall2_lookup_lr _ _ _ _ _ _ H Hedges Hng) as Hnode.
  apply parse_node_inv in Hnode as (ms & vals & Hms & Htop & Hgenes).
  destruct (topk_spec _ _ _ _ Htop) as (Hlen & _ & Hnd & Hsel).
  rewrite length_map in Hlen.
  split; [exact Hlen |]. split; [exact Hnd |].
  intros prim j Hin.
  apply mapR_Return in Hms. apply mapR_Return in Hgenes.
  apply list_elem_of_In, list_elem_of_lookup_1 in Hin as [n Hn].
  assert (Hj : map snd ng !! n = Some j) by (now rewrite list_lookup_fmap, Hn).
  pose proof (Forall2_lookup_lr _ _ _ _ _ _ Hgenes Hj Hn) as Hg.
  apply gene_of_inv in Hg as (v & p & Hmsj & Hprim & _). simpl in Hprim.
  destruct (Hsel n j Hj) as (x & Hx & _ & Hmax).
  rewrite list_lookup_fmap, Hmsj in Hx. injection Hx as <-.
  destruct (Forall2_lookup_r _ _ _ _ _ Hms Hmsj) as (edge & Hedge & Harg).
  apply row_argmax_spec in Harg as [Hp Hle].
  exists edge, p, v. split; [exact Hedge |]. split; [exact Hp |].
  split; [exact Hle |]. split; [exact Hprim |].
  intros j' edge' y Hedge' Hnot Hy.
  destruct (Forall2_lookup_l _ _ _ _ _ Hms Hedge') as ([v' p'] & Hms' & Harg').
  apply row_argmax_spec in Harg' as [_ Hle'].
  apply Rle_trans with v'; [now apply Hle' |].
  apply (Hmax j' v'); [now rewrite list_lookup_fmap, Hms' | exact Hnot].
Qed.

Lemma parse_const (t : R) (p0 : string) (rest : list string) :
  parse [[[t; t; t]; [t; t; t]]] 2 (p0 :: rest) = Return [[(p0, 0); (p0, 1)]].
Proof.
  unfold parse, parse_node, row_argmax, topk, enumerate. simpl.
  rewrite !better_same. reflexivity.
Qed.

Lemma parse_selects_witness :
  parse [[[0; 0; 0]; [0; 0; 0]]]%R 2 ["none"; "skip_connect"; "nor_conv_3x3"]%string
    = Return [[("none"%string, 0); ("none"%string, 1)]] /\
  length [[("none"%string, 0); ("none"%string, 1)]] = length [[[0; 0; 0]; [0; 0; 0]]]%R.
Proof.
  split; [apply parse_const |].
  exact (proj1 (parse_selects _ _ _ _ (parse_const 0 "none" ["skip_connect"; "nor_conv_3x3"]%string))).
Defined.

Lemma row_argmax_total (edge : list R) :
  edge <> [] -> exists m, row_argmax edge = Return m.
Proof.
  intros Hne. unfold row_argmax.
  destruct (topk_total edge 1) as [[vals idxs] Htop].
  { destruct edge; [congruence | simpl; lia]. }
  rewrite Htop. destruct (topk_spec _ _ _ _ Htop) as (Hi & Hv & _).
  destruct vals as [|v [|? ?]]; try discriminate.
  destruct idxs as [|p [|? ?]]; try discriminate. eauto.
Qed.

Lemma row_argmax_nonempty (edge : list R) (m : R * nat) :
  row_argmax edge = Return m -> edge <> [].
Proof. intros H ->. discriminate. Qed.

(** X25.  When no edge carries more weights than there are primitives,
    [parse] returns exactly when every node has at least [k] incoming edges
    and every edge has at least one weight; otherwise it raises. *)
Theorem parse_returns_iff (alpha : alpha) (k : nat) (primitives : list string) :
  (forall edges edge, In edges alpha -> In edge edges -> length edge <= length primitives) ->
  ((exists gene, parse alpha k primitives = Return gene) <->
   forall edges, In edges alpha ->
     k <= length edges /\ forall edge, In edge edges -> edge <> []).
Proof.
  intros Hfit. unfold parse. split.
  - intros [gene H] edges Hedges. apply mapR_Return in H.
    apply list_elem_of_In, list_elem_of_lookup_1 in Hedges as [i Hi].
    destruct (Forall2_lookup_l _ _ _ _ _ H Hi) as (ng & _ & Hnode).
    apply parse_node_inv in Hnode as (ms & vals & Hms & Htop & _).
    apply mapR_Return in Hms.
    split.
    + assert (Hk : is_Some (topk (map fst ms) k)) by eauto.
      apply topk_Some_iff in Hk. rewrite length_map in Hk.
      now rewrite (Forall2_length _ _ _ Hms).
    + intros edge Hedge.
      apply list_elem_of_In, list_elem_of_lookup_1 in Hedge as [j Hj].
      destruct (Forall2_lookup_l _ _ _ _ _ Hms Hj) as (m & _ & Hm).
      exact (row_argmax_nonempty _ _ Hm).
  - intros Hshape. apply mapR_returns, Forall_forall. intros edges Hedges.
    apply list_elem_of_In in Hedges. destruct (Hshape edges Hedges) as [Hk Hne].
    unfold parse_node.
    destruct (mapR_returns row_argmax edges) as [ms Hms].
    { apply Forall_forall. intros edge Hedge.
      now apply row_argmax_total, Hne, list_elem_of_In. }
    rewrite Hms. simpl. apply mapR_Return in Hms.
    destruct (topk_total (map fst ms) k) as [[vals tk] Htop].
    { now rewrite length_map, <- (Forall2_length _ _ _ Hms). }
    rewrite Htop. apply mapR_returns, Forall_forall. intros j Hj.
    destruct (topk_spec _ _ _ _ Htop) as (_ & _ & _ & Hsel).
    apply list_elem_of_lookup_1 in Hj as [n Hn].
    destruct (Hsel n j Hn) as (x & Hx & _).
    rewrite list_lookup_fmap in Hx.
    destruct (ms !! j) as [[v p]|] eqn:Hmsj; [| discriminate].
    destruct (Forall2_lookup_r _ _ _ _ _ Hms Hmsj) as (edge & Hedge & Harg).
    apply row_argmax_spec in Harg as [Hp _].
    assert (Hlt : p < length primitives).
    { apply lookup_lt_Some in Hp.
      assert (length edge <= length primitives); [| lia].
      apply (Hfit edges edge Hedges). eapply list_elem_of_In, list_elem_of_lookup_2; eauto. }
    destruct (lookup_lt_is_Some_2 primitives p Hlt) as [prim Hprim].
    unfold gene_of. rewrite Hmsj, Hprim. eauto.
Qed.

Lemma parse_returns_iff_witness :
  (exists gene,
     parse [[[0; 0; 0]; [0; 0; 0]]]%R 2 ["none"; "skip_connect"; "nor_conv_3x3"]%string
     = Return gene)
  <-> forall edges, In edges [[[0; 0; 0]; [0; 0; 0]]]%R ->
        2 <= length edges /\ forall edge, In edge edges -> edge <> [].
Proof.
  apply parse_returns_iff. intros edges edge [<- | []] [<- | [<- | []]]; simpl; lia.
Defined.
